(** * The execution-trace engine of [probabilistic/trace.py]

    A shallow embedding of the module: random-variable records and traces
    are Python objects, so they live in a store and are named by location;
    the module-level slot [_trace] is part of the same state.  Every method
    is a computation in a state-and-exception monad over that state.

    Conventions of the embedding.
    - Log-probabilities are Python floats (binary64) in the source, and
      are floats here: the kernel's [float], whose [+] rounds as the
      machine's does and has one [nan].  The integer [0] that [__init__]
      and [sum] start from is carried as [0.0]; every operation the module
      applies to it (adding a float, copying it) gives the same result for
      both.
    - Python leaves the order in which a dictionary or a set is iterated
      unspecified.  The embedding iterates in the order of [map_to_list]
      and [elements]; what is proved of a sum taken in such an order is
      stated for an order it does not name.
    - An elementary random procedure (ERP) is an object of another module.
      It is named by an identity ([N]); its four operations are looked up in
      a table that the whole development takes as a parameter.  A draw reads
      the state of the random source ([rng]) and advances it.
    - The stochastic computation is a Python callable.  What the engine can
      observe of it is the sequence of calls it makes into this module and
      what it does with the answers, which is what [comp] records. *)

From Stdlib Require Import Ascii Floats.
From stdpp Require Import gmap strings list fin_maps pretty.

Abbreviation loc := positive.

(** ** Python values *)

Inductive value :=
| VNone
| VBool (b : bool)
| VNum (z : Z)
| VFloat (f : float)
| VStr (s : string).

(** [bool(v)] *)
Definition truthy (v : value) : bool :=
  match v with
  | VNone => false
  | VBool b => b
  | VNum z => negb (Z.eqb z 0)
  | VFloat f => negb (PrimFloat.eqb f 0)
  | VStr s => negb (String.eqb s EmptyString)
  end.

(** [f == z] for a float and an integer: Python compares the two numbers
    exactly; no finite integer equals an infinity or [nan]. *)
Definition float_eq_Z (f : float) (z : Z) : bool :=
  match Prim2SF f with
  | S754_zero _ => Z.eqb z 0
  | S754_finite s m e =>
      let v := if s then Z.neg m else Z.pos m in
      if (0 <=? e)%Z then Z.eqb z (v * 2 ^ e) else Z.eqb (z * 2 ^ (- e)) v
  | _ => false
  end.

(** [a == b]; [True == 1] and [False == 0] as in Python, and floats as
    IEEE 754 has them: [nan == nan] is false, [0.0 == -0.0] is true. *)
Definition py_eq (a b : value) : bool :=
  match a, b with
  | VNone, VNone => true
  | VStr s, VStr t => String.eqb s t
  | VBool x, VBool y => Z.eqb (Z.b2z x) (Z.b2z y)
  | VBool x, VNum y => Z.eqb (Z.b2z x) y
  | VNum x, VBool y => Z.eqb x (Z.b2z y)
  | VNum x, VNum y => Z.eqb x y
  | VFloat x, VFloat y => PrimFloat.eqb x y
  | VFloat x, VNum y => float_eq_Z x y
  | VNum x, VFloat y => float_eq_Z y x
  | VFloat x, VBool y => float_eq_Z x (Z.b2z y)
  | VBool x, VFloat y => float_eq_Z y (Z.b2z x)
  | _, _ => false
  end.

(** [a != b] *)
Definition py_ne (a b : value) : bool := negb (py_eq a b).

(** [==] on parameter lists: same length, equal elements.  (Python's list
    comparison takes two elements that are one object for equal without
    asking [==]; values carry no identity here, so a [nan] differs from a
    [nan].  The one place the module compares lists is line 172, where a
    difference rebinds [params] and recomputes [logprob].) *)
Fixpoint py_eq_list (xs ys : list value) : bool :=
  match xs, ys with
  | [], [] => true
  | x :: xs', y :: ys' => py_eq x y && py_eq_list xs' ys'
  | _, _ => false
  end.

Definition py_ne_list (xs ys : list value) : bool := negb (py_eq_list xs ys).

(** ** Exceptions and frames *)

Inductive exn :=
| AttributeError
| UserError (code : N)
| HeapFault.

Inductive outcome (A : Type) :=
| Returns (a : A)
| Raises (e : exn).
Arguments Returns {A} a.
Arguments Raises {A} e.

(** What [currentName] reads of an interpreter frame: its identity, the
    identity of its code object, [f_lineno] and [f_lasti]. *)
Record Frame := mkFrame {
  f_id : N;
  f_code : N;
  f_lineno : N;
  f_lasti : N
}.

(** ** The stochastic computation

    Each call node carries the interpreter stack at the moment the module
    function runs, innermost frame first; its head is the activation of the
    module function itself ([lookupVariableValue], [incrementLoopCounter]). *)

Inductive comp :=
| Return (v : value)
| Raise (e : exn)
| LookupVariableValue (stack : list Frame) (erp : N) (params : list value)
    (isStructural : bool) (numFrameSkip : nat) (conditionedValue : value)
    (k : value → comp)
| IncrementLoopCounter (stack : list Frame) (numFrameSkip : nat) (k : comp)
| Factor (num : float) (k : comp)
| Condition (boolexpr : bool) (k : comp).

(** ** Objects *)

Record RandomVariableRecord := mkRecord {
  erp : N;
  params : list value;
  val : value;
  logprob : float;
  active : bool;
  conditioned : bool;
  structural : bool
}.

Record RandomExecutionTrace := mkTrace {
  computation : comp;
  _vars : gmap string loc;
  tlogprob : float;
  newlogprob : float;
  oldlogprob : float;
  rootframe : option N;
  loopcounters : gmap N N;
  conditionsSatisfied : bool;
  returnValue : value
}.

Record World := mkWorld {
  traces : gmap loc RandomExecutionTrace;
  records : gmap loc RandomVariableRecord;
  _trace : option loc;
  rng : N
}.

Record ERP := mkERP {
  _sample_impl : list value → N → value;
  _logprob : value → list value → float;
  _proposal : value → list value → N → value;
  _logProposalProb : value → value → list value → float
}.

(** Field assignments. *)

Definition set_params (ps : list value) (r : RandomVariableRecord) :=
  mkRecord (erp r) ps (val r) (logprob r) (active r) (conditioned r) (structural r).
Definition set_val (v : value) (r : RandomVariableRecord) :=
  mkRecord (erp r) (params r) v (logprob r) (active r) (conditioned r) (structural r).
Definition set_logprob (lp : float) (r : RandomVariableRecord) :=
  mkRecord (erp r) (params r) (val r) lp (active r) (conditioned r) (structural r).
Definition set_active (b : bool) (r : RandomVariableRecord) :=
  mkRecord (erp r) (params r) (val r) (logprob r) b (conditioned r) (structural r).

Definition set_vars (m : gmap string loc) (t : RandomExecutionTrace) :=
  mkTrace (computation t) m (tlogprob t) (newlogprob t) (oldlogprob t)
    (rootframe t) (loopcounters t) (conditionsSatisfied t) (returnValue t).
Definition set_tlogprob (x : float) (t : RandomExecutionTrace) :=
  mkTrace (computation t) (_vars t) x (newlogprob t) (oldlogprob t)
    (rootframe t) (loopcounters t) (conditionsSatisfied t) (returnValue t).
Definition set_newlogprob (x : float) (t : RandomExecutionTrace) :=
  mkTrace (computation t) (_vars t) (tlogprob t) x (oldlogprob t)
    (rootframe t) (loopcounters t) (conditionsSatisfied t) (returnValue t).
Definition set_oldlogprob (x : float) (t : RandomExecutionTrace) :=
  mkTrace (computation t) (_vars t) (tlogprob t) (newlogprob t) x
    (rootframe t) (loopcounters t) (conditionsSatisfied t) (returnValue t).
Definition set_rootframe (f : option N) (t : RandomExecutionTrace) :=
  mkTrace (computation t) (_vars t) (tlogprob t) (newlogprob t) (oldlogprob t)
    f (loopcounters t) (conditionsSatisfied t) (returnValue t).
Definition set_loopcounters (c : gmap N N) (t : RandomExecutionTrace) :=
  mkTrace (computation t) (_vars t) (tlogprob t) (newlogprob t) (oldlogprob t)
    (rootframe t) c (conditionsSatisfied t) (returnValue t).
Definition set_conditionsSatisfied (b : bool) (t : RandomExecutionTrace) :=
  mkTrace (computation t) (_vars t) (tlogprob t) (newlogprob t) (oldlogprob t)
    (rootframe t) (loopcounters t) b (returnValue t).
Definition set_returnValue (v : value) (t : RandomExecutionTrace) :=
  mkTrace (computation t) (_vars t) (tlogprob t) (newlogprob t) (oldlogprob t)
    (rootframe t) (loopcounters t) (conditionsSatisfied t) v.

Definition set_traces (m : gmap loc RandomExecutionTrace) (w : World) :=
  mkWorld m (records w) (_trace w) (rng w).
Definition set_records (m : gmap loc RandomVariableRecord) (w : World) :=
  mkWorld (traces w) m (_trace w) (rng w).
Definition set_global (g : option loc) (w : World) :=
  mkWorld (traces w) (records w) g (rng w).
Definition set_rng (n : N) (w : World) :=
  mkWorld (traces w) (records w) (_trace w) n.

(** ** The monad: state, and exceptions that keep the state reached *)

Definition M (A : Type) : Type := World → World * outcome A.

Definition ret {A} (a : A) : M A := λ w, (w, Returns a).
Definition raise {A} (e : exn) : M A := λ w, (w, Raises e).
Definition bind {A B} (m : M A) (k : A → M B) : M B :=
  λ w, match m w with
       | (w', Returns a) => k a w'
       | (w', Raises e) => (w', Raises e)
       end.

Notation "x <~ m ;; k" := (bind m (λ x, k))
  (at level 100, m at next level, right associativity).
Notation "m ;;; k" := (bind m (λ _, k))
  (at level 100, right associativity).

Definition get_world : M World := λ w, (w, Returns w).
Definition modify (f : World → World) : M unit := λ w, (f w, Returns tt).

(** Dereferencing.  A reference held by a live object always points to an
    object, so [HeapFault] stands for a state Python cannot be in. *)
Definition get_trace (t : loc) : M RandomExecutionTrace :=
  λ w, match traces w !! t with
       | Some tr => (w, Returns tr)
       | None => (w, Raises HeapFault)
       end.
Definition update_trace (t : loc) (f : RandomExecutionTrace → RandomExecutionTrace)
  : M unit :=
  tr <~ get_trace t ;; modify (λ w, set_traces (<[t := f tr]> (traces w)) w).
Definition get_record (l : loc) : M RandomVariableRecord :=
  λ w, match records w !! l with
       | Some r => (w, Returns r)
       | None => (w, Raises HeapFault)
       end.
Definition update_record (l : loc) (f : RandomVariableRecord → RandomVariableRecord)
  : M unit :=
  r <~ get_record l ;; modify (λ w, set_records (<[l := f r]> (records w)) w).
Definition alloc_record (r : RandomVariableRecord) : M loc :=
  λ w, let l := fresh (dom (records w)) in
       (set_records (<[l := r]> (records w)) w, Returns l).
Definition alloc_trace (t : RandomExecutionTrace) : M loc :=
  λ w, let l := fresh (dom (traces w)) in
       (set_traces (<[l := t]> (traces w)) w, Returns l).

(** [acc = 0.0], then [acc += x] for each [x] in turn; [sum(xs)] as
    well. *)
Definition sum_F (xs : list float) : float := foldl PrimFloat.add 0%float xs.

(** The fields [__init__] gives a trace (lines 27-35). *)
Definition fresh_trace (c : comp) : RandomExecutionTrace :=
  mkTrace c ∅ 0 0 0 None ∅ false VNone.

(** ** Example inputs

    A table of ERPs whose draws follow the random source and whose
    log-densities tell the ERPs apart; the stack of a call made from line
    [line] of a computation that [traceUpdate] (activation 0) has called;
    some computations, and the states they run in. *)

Definition example_erps (e : N) : ERP :=
  mkERP (λ _ seed, VNum (Z.of_N seed + 10))
        (λ _ _, match e with 0%N => (-1)%float | _ => (-2)%float end)
        (λ _ _ seed, VNum (Z.of_N seed + 20))
        (λ _ _ _, (-2)%float).

Definition call_stack (line : N) : list Frame :=
  [mkFrame 3 8 205 0; mkFrame 2 7 line 3; mkFrame 0 5 93 0].

Definition two_choices : comp :=
  LookupVariableValue (call_stack 1) 0 [VNum 1] false 0 VNone (λ x,
  Factor 5 (
  LookupVariableValue (call_stack 2) 1 [] true 0 VNone (λ _,
  Return x))).

Definition one_choice : comp :=
  LookupVariableValue (call_stack 1) 0 [VNum 1] false 0 VNone (λ x, Return x).

Definition same_site_twice : comp :=
  LookupVariableValue (call_stack 1) 0 [] false 0 VNone (λ _,
  LookupVariableValue (call_stack 1) 0 [] false 0 VNone (λ y,
  Return y)).


Definition failing : comp := Raise (UserError 1).

(** A new trace of [c], which no call has touched yet. *)
Definition new_world (c : comp) : World :=
  mkWorld {[1%positive := fresh_trace c]} ∅ None 0.

(** A trace of [one_choice] after some runs: the record of its choice, and
    a record at an address the computation does not reach any more. *)
Definition ready_trace : RandomExecutionTrace :=
  mkTrace one_choice
    (<["7:0:1:3|" := 1%positive]> {["7:0:9:3|" := 2%positive]})
    (-3) 0 0 None ∅ true (VNum 10).

Definition ready_world : World :=
  mkWorld {[1%positive := ready_trace]}
    (<[1%positive := mkRecord 0 [VNum 1] (VNum 10) (-1) true false false]>
       {[2%positive := mkRecord 1 [] (VNum 4) (-2) true false true]})
    None 5.

(** A choice the computation conditions on, and a computation no run of
    which satisfies its condition. *)
Definition conditioned_choice : comp :=
  LookupVariableValue (call_stack 1) 0 [VNum 1] false 0 VNone (λ x,
  Condition (truthy x) (Return x)).

Definition impossible : comp := Condition false (Raise (UserError 2)).

(** [ready_world] with a second trace, which binds the first address of
    [ready_trace] to a record of its own and does not bind the other. *)
Definition other_trace : RandomExecutionTrace :=
  mkTrace one_choice {["7:0:1:3|" := 3%positive]} (-1) 0 0 None ∅ true
    (VNum 10).

Definition two_traces : World :=
  mkWorld (<[2%positive := other_trace]> (traces ready_world))
    (<[3%positive := mkRecord 0 [VNum 1] (VNum 10) (-1) true false false]>
       (records ready_world))
    None 5.

(** A factor too large for the next term to show, a choice, and the
    opposite factor. *)
Definition rounding : comp :=
  Factor 1e16 (
  LookupVariableValue (call_stack 1) 0 [VNum 1] false 0 VNone (λ x,
  Factor (-1e16) (
  Return x))).

(** [ready_world] after the program changed: the choice of line 1 is now
    made with ERP 1. *)
Definition changed_choice : comp :=
  LookupVariableValue (call_stack 1) 1 [VNum 1] false 0 VNone (λ x, Return x).

Definition changed_trace : RandomExecutionTrace :=
  mkTrace changed_choice (_vars ready_trace) (-3) 0 0 None ∅ true (VNum 10).

Definition changed_world : World :=
  mkWorld {[1%positive := changed_trace]} (records ready_world) None 5.

(** A choice conditioned on [nan]. *)
Definition nan_conditioned : comp :=
  LookupVariableValue (call_stack 1) 0 [] false 0 (VFloat nan) (λ x, Return x).

(** A trace of [one_choice] while its computation runs under root frame 0. *)
Definition running_world : World :=
  mkWorld {[1%positive :=
              mkTrace one_choice ∅ 0 0 0 (Some 0%N) ∅ true VNone]}
    ∅ (Some 1%positive) 0.

Section Engine.

(** The table of ERP objects, and [id(None)]. *)
Variable erps : N → ERP.
Variable id_None : N.

(** [erp._sample_impl(params)]: one draw from the random source. *)
Definition sample (e : N) (ps : list value) : M value :=
  λ w, (set_rng (N.succ (rng w)) w, Returns (_sample_impl (erps e) ps (rng w))).

(** [erp._proposal(val, params)]: one draw as well. *)
Definition propose (e : N) (v : value) (ps : list value) : M value :=
  λ w, (set_rng (N.succ (rng w)) w, Returns (_proposal (erps e) v ps (rng w))).

(** ** Naming (trace.py, lines 126-152) *)

(** [f = f.f_back], [n] times, from the frame on top of [stack]; the result
    is the stack that starts at [f] (empty when [f] is [None]).  Reading
    [f_back] of [None] raises. *)
Fixpoint f_back (n : nat) (stack : list Frame) : option (list Frame) :=
  match n with
  | O => Some stack
  | S n' => match stack with
            | [] => None
            | _ :: rest => f_back n' rest
            end
  end.

(** [Counter.__getitem__]: a missing key counts 0. *)
Definition counter_get (c : gmap N N) (key : N) : N := default 0%N (c !! key).

Definition format_frame (c : gmap N N) (f : Frame) : string :=
  pretty (f_code f) +:+ ":" +:+ pretty (counter_get c (f_id f)) +:+ ":" +:+
  pretty (f_lineno f) +:+ ":" +:+ pretty (f_lasti f) +:+ "|".

(** The [while f and f is not self.rootframe] loop: each frame met is put
    in front of the name built so far. *)
Fixpoint name_loop (root : option N) (c : gmap N N) (stack : list Frame)
  : string :=
  match stack with
  | [] => EmptyString
  | f :: rest =>
      if decide (root = Some (f_id f)) then EmptyString
      else name_loop root c rest +:+ format_frame c f
  end.

(** [self.currentName(numFrameSkip)], called with [stack] the frames from
    the caller's outwards: the method's own frame is skipped by its
    [numFrameSkip += 1]. *)
Definition currentName (self : loc) (stack : list Frame) (numFrameSkip : nat)
  : M string :=
  t <~ get_trace self ;;
  match f_back numFrameSkip stack with
  | None => raise AttributeError
  | Some fs => ret (name_loop (rootframe t) (loopcounters t) fs)
  end.

(** [id(f)] for the frame on top of [fs], [id(None)] when there is none. *)
Definition frame_id (fs : list Frame) : N :=
  match fs with
  | [] => id_None
  | f :: _ => f_id f
  end.

(** [self.incrementLoopCounter(numFrameSkip)] *)
Definition trace_incrementLoopCounter (self : loc) (stack : list Frame)
    (numFrameSkip : nat) : M unit :=
  match f_back numFrameSkip stack with
  | None => raise AttributeError
  | Some fs =>
      update_trace self (λ t,
        set_loopcounters
          (<[frame_id fs := (counter_get (loopcounters t) (frame_id fs) + 1)%N]>
             (loopcounters t)) t)
  end.

(** ** Choice points (trace.py, lines 154-195) *)

(** The test of line 161-163, on the record found (if any). *)
Definition must_create (record : option RandomVariableRecord) (e : N)
    (isStructural : bool) (conditionedValue : value) : bool :=
  match record with
  | None => true
  | Some r =>
      negb (N.eqb (erp r) e)
      || negb (eqb isStructural (structural r))
      || (truthy conditionedValue && py_ne conditionedValue (val r))
  end.

(** [self.lookup(name, erp, params, isStructural, conditionedValue)] *)
Definition trace_lookup (self : loc) (name : string) (e : N)
    (ps : list value) (isStructural : bool) (conditionedValue : value)
  : M value :=
  t <~ get_trace self ;;
  found <~ match _vars t !! name with
           | None => ret None
           | Some l => r <~ get_record l ;; ret (Some (l, r))
           end ;;
  l <~ (if must_create (snd <$> found) e isStructural conditionedValue then
          v <~ (if truthy conditionedValue then ret conditionedValue
                else sample e ps) ;;
          let ll := _logprob (erps e) v ps in
          update_trace self (λ t, set_newlogprob (newlogprob t + ll)%float t) ;;;
          l <~ alloc_record
                 (mkRecord e ps v ll true (py_ne conditionedValue VNone)
                    isStructural) ;;
          update_trace self (λ t, set_vars (<[name := l]> (_vars t)) t) ;;;
          ret l
        else
          match found with
          | None => raise HeapFault
          | Some (l, r) =>
              (if py_ne_list (params r) ps then
                 update_record l (λ r,
                   set_logprob (_logprob (erps e) (val r) ps) (set_params ps r))
               else ret tt) ;;;
              ret l
          end) ;;
  r <~ get_record l ;;
  update_trace self (λ t, set_tlogprob (tlogprob t + logprob r)%float t) ;;;
  update_record l (set_active true) ;;;
  ret (val r).

(** [self.getRecord(name)]: the record, or [None]. *)
Definition getRecord (self : loc) (name : string) : M (option loc) :=
  t <~ get_trace self ;; ret (_vars t !! name).

(** [self.addFactor(num)] *)
Definition addFactor (self : loc) (num : float) : M unit :=
  update_trace self (λ t, set_tlogprob (tlogprob t + num)%float t).

(** [self.conditionOn(boolexpr)] *)
Definition conditionOn (self : loc) (boolexpr : bool) : M unit :=
  update_trace self (λ t,
    set_conditionsSatisfied (conditionsSatisfied t && boolexpr) t).

(** ** Module-level functions (trace.py, lines 202-226) *)

Definition lookupVariableValue (stack : list Frame) (e : N) (ps : list value)
    (isStructural : bool) (numFrameSkip : nat) (conditionedValue : value)
  : M value :=
  w <~ get_world ;;
  match _trace w with
  | None => if truthy conditionedValue then ret conditionedValue
            else sample e ps
  | Some t =>
      name <~ currentName t stack (numFrameSkip + 1) ;;
      trace_lookup t name e ps isStructural conditionedValue
  end.

Definition incrementLoopCounter (stack : list Frame) (numFrameSkip : nat)
  : M unit :=
  w <~ get_world ;;
  match _trace w with
  | None => ret tt
  | Some t => trace_incrementLoopCounter t stack (numFrameSkip + 1)
  end.

Definition factor (num : float) : M unit :=
  w <~ get_world ;;
  match _trace w with
  | None => ret tt
  | Some t => addFactor t num
  end.

Definition condition (boolexpr : bool) : M unit :=
  w <~ get_world ;;
  match _trace w with
  | None => ret tt
  | Some t => conditionOn t boolexpr
  end.

(** Calling [self.computation()]. *)
Fixpoint run (c : comp) : M value :=
  match c with
  | Return v => ret v
  | Raise e => raise e
  | LookupVariableValue stack e ps s n cv k =>
      v <~ lookupVariableValue stack e ps s n cv ;; run (k v)
  | IncrementLoopCounter stack n k =>
      incrementLoopCounter stack n ;;; run k
  | Factor num k => factor num ;;; run k
  | Condition b k => condition b ;;; run k
  end.

(** ** Re-execution (trace.py, lines 70-106) *)

(** [for record in self._vars.values(): record.active = False] *)
Definition mark_inactive (vars : gmap string loc)
    (rs : gmap loc RandomVariableRecord) : gmap loc RandomVariableRecord :=
  map_fold (λ _ l acc, alter (set_active false) l acc) rs vars.

(** Lines 100-103: [self.oldlogprob = 0.0], then, for each record of the
    dictionary in turn, [self.oldlogprob += record.logprob] if it is not
    active. *)
Definition add_unreached (rs : gmap loc RandomVariableRecord) (acc : float)
    (l : loc) : float :=
  match rs !! l with
  | Some r => if active r then acc else (acc + logprob r)%float
  | None => acc
  end.

Definition unreached_logprob (rs : gmap loc RandomVariableRecord)
    (vars : gmap string loc) : float :=
  foldl (add_unreached rs) 0%float (map_to_list vars).*2.

Definition is_active (rs : gmap loc RandomVariableRecord) (l : loc) : bool :=
  match rs !! l with
  | Some r => active r
  | None => false
  end.

(** Lines 75-90: up to the call of the computation.  Returns
    [originalTrace]. *)
Definition traceUpdate_enter (self : loc) (frame : N) : M (option loc) :=
  w <~ get_world ;;
  let originalTrace := _trace w in
  modify (set_global (Some self)) ;;;
  update_trace self (λ t,
    set_conditionsSatisfied true
      (set_loopcounters ∅ (set_newlogprob 0 (set_tlogprob 0 t)))) ;;;
  t <~ get_trace self ;;
  modify (λ w, set_records (mark_inactive (_vars t) (records w)) w) ;;;
  update_trace self (set_rootframe (Some frame)) ;;;
  ret originalTrace.

(** Lines 93-106: from the computation's return on. *)
Definition traceUpdate_leave (self : loc) (originalTrace : option loc)
    (v : value) : M unit :=
  update_trace self (set_returnValue v) ;;;
  update_trace self (λ t, set_loopcounters ∅ (set_rootframe None t)) ;;;
  w <~ get_world ;;
  update_trace self (λ t,
    set_oldlogprob (unreached_logprob (records w) (_vars t)) t) ;;;
  update_trace self (λ t,
    set_vars (filter (λ p, is_active (records w) p.2 = true) (_vars t)) t) ;;;
  modify (set_global originalTrace).

(** [self.traceUpdate()]; [frame] is the identity of this activation, which
    line 90 stores as the root. *)
Definition traceUpdate (self : loc) (frame : N) : M unit :=
  originalTrace <~ traceUpdate_enter self frame ;;
  t <~ get_trace self ;;
  v <~ run (computation t) ;;
  traceUpdate_leave self originalTrace v.

(** ** Construction and copying (trace.py, lines 26-49) *)

(** [copy.copy(record)] for each item of the dictionary, in order. *)
Fixpoint copy_records (items : list (string * loc)) (acc : gmap string loc)
  : M (gmap string loc) :=
  match items with
  | [] => ret acc
  | (name, l) :: rest =>
      r <~ get_record l ;;
      l' <~ alloc_record r ;;
      copy_records rest (<[name := l']> acc)
  end.

(** [self.__deepcopy__(memo)] *)
Definition deepcopy (self : loc) : M loc :=
  t <~ get_trace self ;;
  newdb <~ alloc_trace (fresh_trace (computation t)) ;;
  update_trace newdb (set_tlogprob (tlogprob t)) ;;;
  update_trace newdb (set_oldlogprob (oldlogprob t)) ;;;
  update_trace newdb (set_newlogprob (newlogprob t)) ;;;
  vars <~ copy_records (map_to_list (_vars t)) ∅ ;;
  update_trace newdb (set_vars vars) ;;;
  update_trace newdb (set_conditionsSatisfied (conditionsSatisfied t)) ;;;
  update_trace newdb (set_returnValue (returnValue t)) ;;;
  ret newdb.

(** [self.freeVarNames(structural, nonstructural)] *)
Definition freeVarNames (self : loc) (wantStructural wantNonstructural : bool)
  : M (list string) :=
  t <~ get_trace self ;;
  w <~ get_world ;;
  ret (map fst
         (List.filter
            (λ tup, match records w !! tup.2 with
                    | Some r =>
                        negb (conditioned r)
                        && ((wantStructural && structural r)
                            || (wantNonstructural && negb (structural r)))
                    | None => false
                    end)
            (map_to_list (_vars t)))).

(** ** Proposals (trace.py, lines 108-124) *)

(** Lines 114-120: the copy, the proposed value and the mutation of the
    copy's record.  Returns [nextTrace, fwdPropLP, rvsPropLP]. *)
Definition proposeChange_mutate (self : loc) (varname : string)
  : M (loc * float * float) :=
  nextTrace <~ deepcopy self ;;
  var <~ getRecord nextTrace varname ;;
  match var with
  | None => raise AttributeError
  | Some l =>
      r <~ get_record l ;;
      propval <~ propose (erp r) (val r) (params r) ;;
      let fwdPropLP := _logProposalProb (erps (erp r)) (val r) propval (params r) in
      let rvsPropLP := _logProposalProb (erps (erp r)) propval (val r) (params r) in
      update_record l (set_val propval) ;;;
      update_record l (λ r,
        set_logprob (_logprob (erps (erp r)) (val r) (params r)) r) ;;;
      ret (nextTrace, fwdPropLP, rvsPropLP)
  end.

(** [self.proposeChange(varname)]; [frame] is the identity of the activation
    of [traceUpdate] it calls. *)
Definition proposeChange (self : loc) (varname : string) (frame : N)
  : M (loc * float * float) :=
  mutated <~ proposeChange_mutate self varname ;;
  let '(nextTrace, fwdPropLP, rvsPropLP) := mutated in
  traceUpdate nextTrace frame ;;;
  t' <~ get_trace nextTrace ;;
  ret (nextTrace, (fwdPropLP + newlogprob t')%float,
       (rvsPropLP + oldlogprob t')%float).

(** ** What the claims are stated over

    None of what follows is in the source: it names the things the
    properties talk about. *)

(** The dictionary of a trace with its references resolved: address to
    record. *)
Definition view (w : World) (t : RandomExecutionTrace)
  : gmap string RandomVariableRecord :=
  omap (λ l, records w !! l) (_vars t).

(** The shape every dictionary of the module has: it names records that
    exist, and no record under two addresses.  [lookup] stores each record
    it creates under one address, [__deepcopy__] copies record by record. *)
Definition wf_trace (w : World) (t : RandomExecutionTrace) : Prop :=
  (∀ n l, _vars t !! n = Some l → is_Some (records w !! l)) ∧
  (∀ n1 n2 l, _vars t !! n1 = Some l → _vars t !! n2 = Some l → n1 = n2).

(** The record [lookup] creates (lines 165-168), the record it reuses
    (lines 172-176), and the record it leaves at the address, given the
    record found there. *)
Definition created (e : N) (ps : list value) (isStructural : bool)
    (cv : value) (seed : N) : RandomVariableRecord :=
  let v := if truthy cv then cv else _sample_impl (erps e) ps seed in
  mkRecord e ps v (_logprob (erps e) v ps) true (py_ne cv VNone) isStructural.

Definition reused (e : N) (ps : list value) (r : RandomVariableRecord)
  : RandomVariableRecord :=
  set_active true
    (if py_ne_list (params r) ps
     then set_logprob (_logprob (erps e) (val r) ps) (set_params ps r)
     else r).

Definition looked_up (found : option RandomVariableRecord) (e : N)
    (ps : list value) (isStructural : bool) (cv : value) (seed : N)
  : RandomVariableRecord :=
  match found with
  | Some r => if must_create (Some r) e isStructural cv
              then created e ps isStructural cv seed
              else reused e ps r
  | None => created e ps isStructural cv seed
  end.

Arguments must_create : simpl never.

(** The state a completed [lookup] leaves: the record [r'] at location
    [l], bound to [name]; [mk] tells whether it was created. *)
Definition trace_after_lookup (t : RandomExecutionTrace) (name : string)
    (l : loc) (r' : RandomVariableRecord) (mk : bool) : RandomExecutionTrace :=
  mkTrace (computation t) (<[name := l]> (_vars t))
    (tlogprob t + logprob r')%float
    (if mk then (newlogprob t + logprob r')%float else newlogprob t)
    (oldlogprob t) (rootframe t) (loopcounters t)
    (conditionsSatisfied t) (returnValue t).

Definition world_after_lookup (w : World) (self : loc)
    (t : RandomExecutionTrace) (name : string) (l : loc)
    (r' : RandomVariableRecord) (mk : bool) (drawn : bool) : World :=
  mkWorld (<[self := trace_after_lookup t name l r' mk]> (traces w))
    (<[l := r']> (records w)) (_trace w)
    (if drawn then N.succ (rng w) else rng w).

(** The calls of a run that the accounting depends on: the lookups, by
    address, and the factors. *)
Inductive event :=
| ELookup (name : string) (e : N) (ps : list value) (isStructural : bool)
    (cv : value)
| EFactor (num : float).

(** The event of one call of [lookupVariableValue] from [w], with the
    address [currentName] computes there. *)
Definition lookup_event (stack : list Frame) (e : N) (ps : list value)
    (isStructural : bool) (numFrameSkip : nat) (cv : value) (w : World)
  : list event :=
  match _trace w with
  | Some t => match currentName t stack (numFrameSkip + 1) w with
              | (_, Returns name) => [ELookup name e ps isStructural cv]
              | (_, Raises _) => []
              end
  | None => []
  end.

Definition factor_event (num : float) (w : World) : list event :=
  match _trace w with
  | Some _ => [EFactor num]
  | None => []
  end.

(** The events of [run c] from [w], in order, up to the first call that
    raises. *)
Fixpoint events (c : comp) (w : World) : list event :=
  match c with
  | Return _ | Raise _ => []
  | LookupVariableValue stack e ps s n cv k =>
      match lookupVariableValue stack e ps s n cv w with
      | (w', Returns v) => lookup_event stack e ps s n cv w ++ events (k v) w'
      | (_, Raises _) => []
      end
  | IncrementLoopCounter stack n k =>
      match incrementLoopCounter stack n w with
      | (w', Returns _) => events k w'
      | (_, Raises _) => []
      end
  | Factor num k =>
      match factor num w with
      | (w', Returns _) => factor_event num w ++ events k w'
      | (_, Raises _) => []
      end
  | Condition b k =>
      match condition b w with
      | (w', Returns _) => events k w'
      | (_, Raises _) => []
      end
  end.

(** The addresses looked up, and the factors added. *)
Definition lookups (evs : list event) : list string :=
  omap (λ ev, match ev with ELookup name _ _ _ _ => Some name | _ => None end) evs.

Definition factors (evs : list event) : list float :=
  omap (λ ev, match ev with EFactor x => Some x | _ => None end) evs.

(** What the accounting reads of a state: the resolved dictionary, the
    two running sums and the random source; and what one event does to
    it. *)
Record summary := mkSummary {
  s_view : gmap string RandomVariableRecord;
  s_logprob : float;
  s_newlogprob : float;
  s_rng : N
}.

Definition summarize (w : World) (t : RandomExecutionTrace) : summary :=
  mkSummary (view w t) (tlogprob t) (newlogprob t) (rng w).

Definition apply_event (σ : summary) (ev : event) : summary :=
  match ev with
  | ELookup name e ps s cv =>
      let found := s_view σ !! name in
      let r' := looked_up found e ps s cv (s_rng σ) in
      let mk := must_create found e s cv in
      mkSummary (<[name := r']> (s_view σ))
        (s_logprob σ + logprob r')%float
        (if mk then (s_newlogprob σ + logprob r')%float else s_newlogprob σ)
        (if mk && negb (truthy cv) then N.succ (s_rng σ) else s_rng σ)
  | EFactor x =>
      mkSummary (s_view σ) (s_logprob σ + x)%float (s_newlogprob σ) (s_rng σ)
  end.

(** The trace at [self] is the active one, and is well formed. *)
Definition running (self : loc) (w : World) (t : RandomExecutionTrace) : Prop :=
  traces w !! self = Some t ∧ _trace w = Some self ∧ wf_trace w t.

(** The trace as [traceUpdate] leaves it just before the computation runs,
    and as it leaves it at the end. *)
Definition entered (t : RandomExecutionTrace) (frame : N) : RandomExecutionTrace :=
  mkTrace (computation t) (_vars t) 0 0 (oldlogprob t) (Some frame) ∅ true
    (returnValue t).

Definition finished (t : RandomExecutionTrace) (rs : gmap loc RandomVariableRecord)
    (v : value) : RandomExecutionTrace :=
  mkTrace (computation t)
    (filter (λ p, is_active rs p.2 = true) (_vars t))
    (tlogprob t) (newlogprob t)
    (unreached_logprob rs (_vars t))
    None ∅ (conditionsSatisfied t) v.

(** The calls the computation makes during [self.traceUpdate()] from [w]. *)
Definition update_events (self : loc) (frame : N) (w : World) : list event :=
  match traceUpdate_enter self frame w with
  | (w0, Returns _) =>
      match traces w0 !! self with
      | Some t => events (computation t) w0
      | None => []
      end
  | (_, Raises _) => []
  end.

(** The addresses whose record the loop of lines 101-103 counts, in the
    order in which it meets them. *)
Definition unreached (rs : gmap loc RandomVariableRecord)
    (vars : gmap string loc) : list string :=
  omap (λ p, match rs !! p.2 with
             | Some r => if active r then None else Some p.1
             | None => None
             end)
    (map_to_list vars).

(** [logprob] of the record at an address of a resolved dictionary. *)
Definition logprob_at (V : gmap string RandomVariableRecord) (n : string)
  : float :=
  from_option logprob 0%float (V !! n).

(** What one call adds to [logprob], read off the dictionary the run
    leaves: the [logprob] of the record at the address, or the factor. *)
Definition contribution (V : gmap string RandomVariableRecord) (ev : event)
  : float :=
  match ev with
  | ELookup name _ _ _ _ => logprob_at V name
  | EFactor x => x
  end.

(** The addresses at which a lookup of the run created a record. *)
Fixpoint created_at (σ : summary) (evs : list event) : list string :=
  match evs with
  | [] => []
  | ev :: evs' =>
      match ev with
      | ELookup name e _ s cv =>
          if must_create (s_view σ !! name) e s cv then [name] else []
      | EFactor _ => []
      end ++ created_at (apply_event σ ev) evs'
  end.

Definition update_creations (self : loc) (frame : N) (w : World)
  : list string :=
  match traceUpdate_enter self frame w with
  | (w0, Returns _) =>
      match traces w0 !! self with
      | Some t => created_at (summarize w0 t) (events (computation t) w0)
      | None => []
      end
  | (_, Raises _) => []
  end.



(** Every truthy [conditionedValue] of the run is equal to itself: none is
    a [nan]. *)
Definition self_equal (evs : list event) : bool :=
  forallb (λ ev, match ev with
                 | ELookup _ _ _ _ cv => implb (truthy cv) (py_eq cv cv)
                 | EFactor _ => true
                 end) evs.

(** What a reuse never changes of a record. *)
Definition kind (r : RandomVariableRecord) : N * bool * value * bool :=
  (erp r, structural r, val r, conditioned r).

(** Sum of [logprob] over the records of the trace that are active. *)
Definition active_logprob (w : World) (t : RandomExecutionTrace) : float :=
  sum_F (logprob <$> List.filter active (map_to_list (view w t)).*2).

(** [w] still holds every record of [R0] and every trace of [T0] as they
    are, and the dictionary of the trace at [nt] names none of the records
    of [R0]. *)
Definition keeps (R0 : gmap loc RandomVariableRecord)
    (T0 : gmap loc RandomExecutionTrace) (nt : loc) (w : World) : Prop :=
  (∀ l r, R0 !! l = Some r → records w !! l = Some r) ∧
  (∀ t tr, T0 !! t = Some tr → traces w !! t = Some tr) ∧
  (∀ tn n l, traces w !! nt = Some tn → _vars tn !! n = Some l →
             R0 !! l = None).

(** [wf_trace], as a test. *)
Definition wf_check (w : World) (t : RandomExecutionTrace) : bool :=
  forallb (λ p, bool_decide (is_Some (records w !! p.2)))
    (map_to_list (_vars t))
  && bool_decide (NoDup ((map_to_list (_vars t)).*2)).

(** ** The rest of the class (trace.py, lines 26-39, 57-68, 215-216) *)

(** [self.varDiff(other)]: the addresses this trace binds and the other
    does not, from the difference of the two key sets. *)
Definition varDiff (self other : loc) : M (list string) :=
  t <~ get_trace self ;;
  o <~ get_trace other ;;
  ret (elements (dom (_vars t) ∖ dom (_vars o))).

(** [self._vars[name].logprob] for each name of the list.  The names
    [lpDiff] passes are keys of the dictionary itself, so a missing key is
    not a state the call can be in. *)
Fixpoint logprobs_of (vars : gmap string loc) (names : list string)
  : M (list float) :=
  match names with
  | [] => ret []
  | name :: rest =>
      match vars !! name with
      | None => raise HeapFault
      | Some l =>
          r <~ get_record l ;;
          lps <~ logprobs_of vars rest ;;
          ret (logprob r :: lps)
      end
  end.

(** [self.lpDiff(other)] *)
Definition lpDiff (self other : loc) : M float :=
  names <~ varDiff self other ;;
  t <~ get_trace self ;;
  lps <~ logprobs_of (_vars t) names ;;
  ret (sum_F lps).

(** The [while not self.conditionsSatisfied] loop of [__init__] (lines
    37-39).  The loop has no bound in the source: [fuel] bounds the number
    of iterations here, and [None] says that it ran out. *)
Fixpoint rejection_loop (fuel : nat) (self : loc) (frame : N) (w : World)
  : option (World * outcome unit) :=
  match get_trace self w with
  | (w0, Raises e) => Some (w0, Raises e)
  | (w0, Returns t) =>
      if conditionsSatisfied t then Some (w0, Returns tt)
      else
        match fuel with
        | O => None
        | S fuel' =>
            match (update_trace self (set_vars ∅) ;;;
                   traceUpdate self frame) w0 with
            | (w1, Returns _) => rejection_loop fuel' self frame w1
            | (w1, Raises e) => Some (w1, Raises e)
            end
        end
  end.

(** [RandomExecutionTrace(computation, doRejectionInit)]: the new object,
    then the loop if asked for. *)
Definition RandomExecutionTrace_init (c : comp) (doRejectionInit : bool)
    (fuel : nat) (frame : N) (w : World) : option (World * outcome loc) :=
  match alloc_trace (fresh_trace c) w with
  | (w0, Raises e) => Some (w0, Raises e)
  | (w0, Returns self) =>
      if doRejectionInit then
        match rejection_loop fuel self frame w0 with
        | None => None
        | Some (w1, Returns _) => Some (w1, Returns self)
        | Some (w1, Raises e) => Some (w1, Raises e)
        end
      else Some (w0, Returns self)
  end.

(** [newTrace(computation)] *)
Definition newTrace (c : comp) (fuel : nat) (frame : N) (w : World)
  : option (World * outcome loc) :=
  RandomExecutionTrace_init c true fuel frame w.

(** ** More of what properties are stated over *)

(** The values passed to [condition] during [run c] from [w], in order. *)
Definition condition_event (b : bool) (w : World) : list bool :=
  match _trace w with
  | Some _ => [b]
  | None => []
  end.

Fixpoint conditions (c : comp) (w : World) : list bool :=
  match c with
  | Return _ | Raise _ => []
  | LookupVariableValue stack e ps s n cv k =>
      match lookupVariableValue stack e ps s n cv w with
      | (w', Returns v) => conditions (k v) w'
      | (_, Raises _) => []
      end
  | IncrementLoopCounter stack n k =>
      match incrementLoopCounter stack n w with
      | (w', Returns _) => conditions k w'
      | (_, Raises _) => []
      end
  | Factor num k =>
      match factor num w with
      | (w', Returns _) => conditions k w'
      | (_, Raises _) => []
      end
  | Condition b k =>
      match condition b w with
      | (w', Returns _) => condition_event b w ++ conditions k w'
      | (_, Raises _) => []
      end
  end.

(** The state in which [self.traceUpdate()] from [w] calls the
    computation. *)
Definition entered_world (self : loc) (frame : N) (w : World) : World :=
  (traceUpdate_enter self frame w).1.

(** What [currentName] writes for one frame, as numbers, and the frames it
    writes: those on the stack before the root. *)
Definition frame_key (c : gmap N N) (f : Frame) : N * N * N * N :=
  (f_code f, counter_get c (f_id f), f_lineno f, f_lasti f).

Fixpoint named_frames (root : option N) (stack : list Frame) : list Frame :=
  match stack with
  | [] => []
  | f :: rest =>
      if decide (root = Some (f_id f)) then [] else f :: named_frames root rest
  end.

(** A string without [:] and [|]. *)
Fixpoint plain (s : string) : Prop :=
  match s with
  | EmptyString => True
  | String a s' => a ≠ ":"%char ∧ a ≠ "|"%char ∧ plain s'
  end.

(** The name written for a list of frames, outermost first. *)
Fixpoint name_of (c : gmap N N) (fs : list Frame) : string :=
  match fs with
  | [] => EmptyString
  | f :: rest => format_frame c f +:+ name_of c rest
  end.

(** * Lemmas *)

Lemma lookup_view w t n :
  view w t !! n = _vars t !! n ≫= (λ l, records w !! l).
Proof. unfold view. by rewrite lookup_omap. Qed.

(** ** One lookup *)

(** Unfolding the primitives of the monad, and closing goals between
    states. *)
Ltac munfold :=
  unfold update_trace, update_record, alloc_record, alloc_trace, sample, propose;
  unfold get_trace, get_record, modify, get_world, ret, raise, bind.

Ltac wsolve :=
  unfold set_records, set_traces, set_rng, set_global; simpl;
  rewrite ?insert_insert_eq; done.

Lemma trace_lookup_spec self name e ps s cv w t :
  traces w !! self = Some t →
  (∀ l, _vars t !! name = Some l → is_Some (records w !! l)) →
  let found := view w t !! name in
  let mk := must_create found e s cv in
  let r' := looked_up found e ps s cv (rng w) in
  ∃ l,
    trace_lookup self name e ps s cv w =
      (world_after_lookup w self t name l r' mk (mk && negb (truthy cv)),
       Returns (val r')) ∧
    (if mk then records w !! l = None else _vars t !! name = Some l).
Proof.
  intros Ht Hall found mk r'. subst found mk r'.
  unfold world_after_lookup, trace_after_lookup.
  rewrite lookup_view. unfold trace_lookup.
  destruct (_vars t !! name) as [l|] eqn:Hn; simpl.
  - destruct (Hall l eq_refl) as [r Hr]. rewrite Hr.
    destruct (must_create (Some r) e s cv) eqn:Hmk.
    + exists (fresh (dom (records w))).
      assert (Hf : records w !! fresh (dom (records w)) = None).
      { apply not_elem_of_dom, is_fresh. }
      split; [|done].
      munfold. rewrite Ht, Hn. simpl. rewrite Hr. simpl. rewrite Hmk.
      destruct (truthy cv) eqn:Hcv;
        repeat (simpl; rewrite ?lookup_insert_eq, ?Ht);
        unfold created; rewrite Hcv; wsolve.
    + exists l. split; [|done].
      munfold. rewrite Ht, Hn. simpl. rewrite Hr. simpl. rewrite Hmk.
      unfold reused.
      destruct (py_ne_list (params r) ps) eqn:Hps;
        repeat (simpl; rewrite ?lookup_insert_eq, ?Ht, ?Hr);
        unfold set_records, set_traces, set_rng, set_global; simpl;
        rewrite (insert_id (_vars t) name l Hn); unfold set_tlogprob; simpl;
        rewrite ?insert_insert_eq; done.
  - exists (fresh (dom (records w))).
    assert (Hf : records w !! fresh (dom (records w)) = None).
    { apply not_elem_of_dom, is_fresh. }
    split; [|done].
    munfold. rewrite Ht, Hn. simpl.
    destruct (truthy cv) eqn:Hcv;
      repeat (simpl; rewrite ?lookup_insert_eq, ?Ht);
      unfold created; rewrite Hcv; wsolve.
Qed.

Lemma view_insert (rs : gmap loc RandomVariableRecord) (vars : gmap string loc)
    name l r' :
  (∀ n l, vars !! n = Some l → is_Some (rs !! l)) →
  (∀ n1 n2 l, vars !! n1 = Some l → vars !! n2 = Some l → n1 = n2) →
  rs !! l = None ∨ vars !! name = Some l →
  omap (λ l0, <[l := r']> rs !! l0) (<[name := l]> vars)
  = <[name := r']> (omap (λ l0, rs !! l0) vars).
Proof.
  intros Hall Hinj Hl. apply map_eq. intros n.
  rewrite lookup_omap. destruct (decide (n = name)) as [->|Hne].
  - rewrite !lookup_insert_eq. simpl. by rewrite lookup_insert_eq.
  - rewrite !lookup_insert_ne by done. rewrite lookup_omap.
    destruct (vars !! n) as [l2|] eqn:Hn; [simpl|done].
    rewrite lookup_insert_ne; [done|]. intros Heq. subst l2.
    destruct Hl as [Hl|Hl].
    + destruct (Hall _ _ Hn) as [? ?]. congruence.
    + apply Hne. by apply (Hinj _ _ _ Hn Hl).
Qed.

Lemma wf_insert (rs : gmap loc RandomVariableRecord) (vars : gmap string loc)
    name l r' :
  (∀ n l, vars !! n = Some l → is_Some (rs !! l)) →
  (∀ n1 n2 l, vars !! n1 = Some l → vars !! n2 = Some l → n1 = n2) →
  rs !! l = None ∨ vars !! name = Some l →
  (∀ n l0, <[name := l]> vars !! n = Some l0 → is_Some (<[l := r']> rs !! l0)) ∧
  (∀ n1 n2 l0, <[name := l]> vars !! n1 = Some l0 →
     <[name := l]> vars !! n2 = Some l0 → n1 = n2).
Proof.
  intros Hall Hinj Hl.
  assert (Hother : ∀ n, n ≠ name → vars !! n = Some l → False).
  { intros n Hne Hn. destruct Hl as [Hl|Hl].
    - destruct (Hall _ _ Hn) as [? ?]. congruence.
    - apply Hne. by apply (Hinj _ _ _ Hn Hl). }
  split.
  - intros n l0. rewrite lookup_insert. case_decide; intros Hn; simplify_eq.
    + rewrite lookup_insert_eq. eauto.
    + rewrite lookup_insert. case_decide; eauto.
  - intros n1 n2 l0. rewrite !lookup_insert.
    repeat case_decide; intros H1 H2; simplify_eq; try done.
    + exfalso. eauto.
    + exfalso. eauto.
    + eauto.
Qed.

(** ** One call from the computation *)

Lemma bind_returns {A B} (m : M A) (k : A → M B) w w1 a :
  m w = (w1, Returns a) → bind m k w = k a w1.
Proof. unfold bind. by intros ->. Qed.

Lemma bind_raises {A B} (m : M A) (k : A → M B) w w1 x :
  m w = (w1, Raises x) → bind m k w = (w1, Raises x).
Proof. unfold bind. by intros ->. Qed.

Lemma currentName_eq self stack n w t :
  traces w !! self = Some t →
  currentName self stack n w =
    (w, match f_back n stack with
        | Some fs => Returns (name_loop (rootframe t) (loopcounters t) fs)
        | None => Raises AttributeError
        end).
Proof.
  intros Ht. unfold currentName.
  erewrite bind_returns; [|unfold get_trace; by rewrite Ht].
  by destruct (f_back n stack).
Qed.

Lemma lookupVariableValue_active self stack e ps s n cv w :
  _trace w = Some self →
  lookupVariableValue stack e ps s n cv w =
    (name <~ currentName self stack (n + 1) ;;
     trace_lookup self name e ps s cv) w.
Proof.
  intros Hg. unfold lookupVariableValue.
  erewrite bind_returns; [|reflexivity]. by rewrite Hg.
Qed.

(** What one completed call from the computation does to the state. *)
Lemma lookupVariableValue_running self stack e ps s n cv w t w' o :
  running self w t →
  lookupVariableValue stack e ps s n cv w = (w', o) →
  (∃ x, o = Raises x ∧ w' = w ∧ f_back (n + 1) stack = None ∧
        lookup_event stack e ps s n cv w = []) ∨
  (∃ fs t',
     f_back (n + 1) stack = Some fs ∧
     let name := name_loop (rootframe t) (loopcounters t) fs in
     lookup_event stack e ps s n cv w = [ELookup name e ps s cv] ∧
     running self w' t' ∧
     o = Returns (val (looked_up (view w t !! name) e ps s cv (rng w))) ∧
     summarize w' t' = apply_event (summarize w t) (ELookup name e ps s cv) ∧
     computation t' = computation t ∧
     loopcounters t' = loopcounters t ∧
     rootframe t' = rootframe t ∧
     conditionsSatisfied t' = conditionsSatisfied t ∧
     (∀ t2, t2 ≠ self → traces w' !! t2 = traces w !! t2)).
Proof.
  intros (Ht & Hg & Hwf) Hrun.
  rewrite (lookupVariableValue_active self) in Hrun by done.
  unfold lookup_event. rewrite Hg, (currentName_eq _ _ _ _ _ Ht).
  destruct (f_back (n + 1) stack) as [fs|] eqn:Hfs.
  - right.
    erewrite bind_returns in Hrun;
      [|by rewrite (currentName_eq _ _ _ _ _ Ht), Hfs].
    destruct (trace_lookup_spec self (name_loop (rootframe t) (loopcounters t) fs)
                e ps s cv w t Ht (λ l, proj1 Hwf _ l)) as (l & Hlk & Hl).
    rewrite Hlk in Hrun. simplify_eq.
    set (name := name_loop (rootframe t) (loopcounters t) fs) in *.
    exists fs, (trace_after_lookup t name l
      (looked_up (view w t !! name) e ps s cv (rng w))
      (must_create (view w t !! name) e s cv)).
    split; [done|]. split; [done|].
    destruct Hwf as [Hall Hinj].
    assert (Hl' : records w !! l = None ∨ _vars t !! name = Some l).
    { destruct (must_create _ _ _ _); eauto. }
    split; [|split; [done|split;[|split;[done|split;[done|split;[done|split; [done|]]]]]]].
    + split; [|split]; simpl.
      * apply lookup_insert_eq.
      * done.
      * unfold wf_trace; simpl. by apply wf_insert.
    + unfold summarize, view; simpl. f_equal. by apply view_insert.
    + intros t2 Hne. simpl. by rewrite lookup_insert_ne.
  - left.
    erewrite bind_raises in Hrun;
      [|by rewrite (currentName_eq _ _ _ _ _ Ht), Hfs].
    simplify_eq. eauto.
Qed.

(** The same call, with the objects it leaves named. *)
Lemma lookupVariableValue_objects self stack e ps s n cv w t fs :
  running self w t →
  f_back (n + 1) stack = Some fs →
  let name := name_loop (rootframe t) (loopcounters t) fs in
  let found := view w t !! name in
  let mk := must_create found e s cv in
  let r' := looked_up found e ps s cv (rng w) in
  ∃ l,
    lookupVariableValue stack e ps s n cv w
    = (world_after_lookup w self t name l r' mk (mk && negb (truthy cv)),
       Returns (val r')) ∧
    (if mk then records w !! l = None else _vars t !! name = Some l).
Proof.
  intros (Ht & Hg & Hwf) Hfs name found mk r'.
  rewrite (lookupVariableValue_active self) by done.
  erewrite bind_returns; [|by rewrite (currentName_eq _ _ _ _ _ Ht), Hfs].
  apply (trace_lookup_spec self name e ps s cv w t Ht (λ l, proj1 Hwf _ l)).
Qed.

Lemma update_trace_running self f w t :
  running self w t →
  (∀ t, _vars (f t) = _vars t) →
  update_trace self f w = (set_traces (<[self := f t]> (traces w)) w, Returns tt) ∧
  running self (set_traces (<[self := f t]> (traces w)) w) (f t) ∧
  view (set_traces (<[self := f t]> (traces w)) w) (f t) = view w t.
Proof.
  intros (Ht & Hg & Hwf) Hf. split; [|split; [split; [|split]|]].
  - unfold update_trace. erewrite bind_returns; [done|].
    unfold get_trace. by rewrite Ht.
  - simpl. apply lookup_insert_eq.
  - done.
  - unfold wf_trace in *. simpl. by rewrite Hf.
  - unfold view. simpl. by rewrite Hf.
Qed.

Lemma factor_active self x w :
  _trace w = Some self → factor x w = addFactor self x w.
Proof.
  intros Hg. unfold factor. erewrite bind_returns; [|reflexivity]. by rewrite Hg.
Qed.

Lemma condition_active self b w :
  _trace w = Some self → condition b w = conditionOn self b w.
Proof.
  intros Hg. unfold condition. erewrite bind_returns; [|reflexivity]. by rewrite Hg.
Qed.

Lemma incrementLoopCounter_active self stack n w :
  _trace w = Some self →
  incrementLoopCounter stack n w =
  trace_incrementLoopCounter self stack (n + 1) w.
Proof.
  intros Hg. unfold incrementLoopCounter.
  erewrite bind_returns; [|reflexivity]. by rewrite Hg.
Qed.

(** ** A run, event by event *)

Section sim.
Variable self : loc.

Lemma run_sim c : ∀ w t w' v,
  running self w t →
  run c w = (w', Returns v) →
  ∃ t', running self w' t' ∧
        summarize w' t' = foldl apply_event (summarize w t) (events c w) ∧
        computation t' = computation t.
Proof.
  induction c as [v0|x|stack e ps s n cv k IH|stack n k IH|x k IH|b k IH];
    intros w t w' v Hrun Hc; simpl in *.
  - unfold ret in Hc. simplify_eq. eauto.
  - unfold raise in Hc. simplify_eq.
  - unfold bind in Hc.
    destruct (lookupVariableValue stack e ps s n cv w) as [w1 o] eqn:Hlk.
    destruct (lookupVariableValue_running _ _ _ _ _ _ _ _ _ _ _ Hrun Hlk)
      as [(x & -> & _)|(fs & t1 & Hfs & Hev & Hrun1 & -> & Hsum & Hcomp & _)];
      [done|].
    rewrite Hev. simpl.
    destruct (IH _ _ _ _ _ Hrun1 Hc) as (t' & Hrun' & Hsum' & Hcomp').
    exists t'. split; [done|]. split; [|congruence]. by rewrite Hsum', Hsum.
  - unfold bind in Hc.
    pose proof Hrun as (Ht & Hg & Hwf).
    rewrite (incrementLoopCounter_active self) in * by done.
    unfold trace_incrementLoopCounter in *.
    destruct (f_back (n + 1) stack) as [fs|]; [|unfold raise in Hc; simplify_eq].
    edestruct (update_trace_running self) as (Hu & Hrun1 & Hv); [exact Hrun| |].
    2: { rewrite Hu in *.
         destruct (IH _ _ _ _ Hrun1 Hc) as (t' & Hrun' & Hsum' & Hcomp').
         exists t'. split; [done|]. split; [|by rewrite Hcomp'].
         rewrite Hsum'. done. }
    done.
  - unfold bind in Hc.
    pose proof Hrun as (Ht & Hg & Hwf).
    rewrite (factor_active self) in * by done.
    unfold factor_event. rewrite Hg. unfold addFactor in *.
    edestruct (update_trace_running self) as (Hu & Hrun1 & Hv); [exact Hrun| |].
    2: { rewrite Hu in *.
         destruct (IH _ _ _ _ Hrun1 Hc) as (t' & Hrun' & Hsum' & Hcomp').
         exists t'. split; [done|]. split; [|by rewrite Hcomp'].
         rewrite Hsum'. done. }
    done.
  - unfold bind in Hc.
    pose proof Hrun as (Ht & Hg & Hwf).
    rewrite (condition_active self) in * by done.
    unfold conditionOn in *.
    edestruct (update_trace_running self) as (Hu & Hrun1 & Hv); [exact Hrun| |].
    2: { rewrite Hu in *.
         destruct (IH _ _ _ _ Hrun1 Hc) as (t' & Hrun' & Hsum' & Hcomp').
         exists t'. split; [done|]. split; [|by rewrite Hcomp'].
         rewrite Hsum'. done. }
    done.
Qed.
End sim.

(** ** [traceUpdate], step by step *)

Lemma mark_inactive_spec (vars : gmap string loc)
    (rs : gmap loc RandomVariableRecord) (l : loc) :
  ((∃ n, vars !! n = Some l) ∧
   mark_inactive vars rs !! l = set_active false <$> rs !! l) ∨
  ((∀ n, vars !! n ≠ Some l) ∧ mark_inactive vars rs !! l = rs !! l).
Proof.
  unfold mark_inactive. revert l.
  apply (map_fold_weak_ind (λ acc (m : gmap string loc), ∀ l,
    ((∃ n, m !! n = Some l) ∧ acc !! l = set_active false <$> rs !! l) ∨
    ((∀ n, m !! n ≠ Some l) ∧ acc !! l = rs !! l))).
  - intros l. right. split; [|done]. intros n. by rewrite lookup_empty.
  - intros i x m acc Hi IH l.
    destruct (decide (x = l)) as [->|Hne].
    + left. split; [exists i; apply lookup_insert_eq|].
      rewrite lookup_alter_eq.
      destruct (IH l) as [[_ ->]|[_ ->]]; by destruct (rs !! l).
    + rewrite lookup_alter_ne by done.
      destruct (IH l) as [[[n Hn] ->]|[Hn ->]]; [left|right]; (split; [|done]).
      * exists n. rewrite lookup_insert_ne; [done|]. intros ->. congruence.
      * intros n. rewrite lookup_insert. case_decide; [congruence|apply Hn].
Qed.

Lemma view_mark_inactive (vars : gmap string loc)
    (rs : gmap loc RandomVariableRecord) :
  omap (λ l, mark_inactive vars rs !! l) vars
  = set_active false <$> omap (λ l, rs !! l) vars.
Proof.
  apply map_eq. intros n. rewrite lookup_fmap, !lookup_omap.
  destruct (vars !! n) as [l|] eqn:Hn; [simpl|done].
  destruct (mark_inactive_spec vars rs l) as [[_ ->]|[Hno _]]; [done|].
  by destruct (Hno n).
Qed.

Lemma traceUpdate_enter_spec self frame w t :
  traces w !! self = Some t →
  traceUpdate_enter self frame w =
    (mkWorld (<[self := entered t frame]> (traces w))
       (mark_inactive (_vars t) (records w)) (Some self) (rng w),
     Returns (_trace w)).
Proof.
  intros Ht. unfold traceUpdate_enter. munfold.
  repeat (simpl; rewrite ?lookup_insert_eq, ?Ht).
  unfold entered. wsolve.
Qed.

Lemma traceUpdate_enter_running self frame w t :
  traces w !! self = Some t →
  wf_trace w t →
  ∃ w0, traceUpdate_enter self frame w = (w0, Returns (_trace w)) ∧
        running self w0 (entered t frame) ∧
        summarize w0 (entered t frame)
        = mkSummary (set_active false <$> view w t) 0 0 (rng w).
Proof.
  intros Ht [Hall Hinj]. eexists. split; [by apply traceUpdate_enter_spec|].
  split; [split; [|split; [done|split]]|]; simpl.
  - apply lookup_insert_eq.
  - intros n l Hn.
    destruct (Hall _ _ Hn) as [r Hr].
    destruct (mark_inactive_spec (_vars t) (records w) l) as [[_ ->]|[_ ->]];
      rewrite Hr; eauto.
  - done.
  - unfold summarize, view. simpl. by rewrite view_mark_inactive.
Qed.

Lemma traceUpdate_leave_spec self orig v w t :
  traces w !! self = Some t →
  traceUpdate_leave self orig v w =
    (mkWorld (<[self := finished t (records w) v]> (traces w)) (records w) orig
       (rng w),
     Returns tt).
Proof.
  intros Ht. unfold traceUpdate_leave. munfold.
  repeat (simpl; rewrite ?lookup_insert_eq, ?Ht).
  unfold finished. wsolve.
Qed.

Lemma view_left (vars : gmap string loc) (rs : gmap loc RandomVariableRecord) :
  omap (λ l, rs !! l) (filter (λ p, is_active rs p.2 = true) vars)
  = filter (λ p, active p.2 = true) (omap (λ l, rs !! l) vars).
Proof.
  apply map_eq. intros n. apply option_eq. intros r.
  rewrite lookup_omap_Some, map_lookup_filter_Some, lookup_omap_Some. simpl.
  split.
  - intros (l & Hr & [Hn Hact]%map_lookup_filter_Some). simpl in *.
    unfold is_active in Hact. rewrite Hr in Hact. eauto.
  - intros [(l & Hr & Hn) Hact]. exists l. split; [done|].
    apply map_lookup_filter_Some. split; [done|]. simpl.
    unfold is_active. by rewrite Hr.
Qed.

(** The loop of lines 100-103 as a sum over addresses. *)
Lemma add_unreached_fold (rs : gmap loc RandomVariableRecord)
    (vars : gmap string loc) (items : list (string * loc)) : ∀ acc,
  (∀ p, p ∈ items → vars !! p.1 = Some p.2) →
  foldl (add_unreached rs) acc items.*2
  = foldl PrimFloat.add acc
      (logprob_at (omap (λ l, rs !! l) vars)
         <$> omap (λ p, match rs !! p.2 with
                        | Some r => if active r then None else Some p.1
                        | None => None
                        end) items).
Proof.
  induction items as [|[n l] items IH]; intros acc Hin; [done|].
  assert (Hrest : ∀ p, p ∈ items → vars !! p.1 = Some p.2)
    by (intros p Hp; apply Hin; by right).
  assert (Hl : vars !! n = Some l) by (apply (Hin (n, l)); by left).
  rewrite fmap_cons. cbn [foldl omap list_omap snd fst].
  rewrite (IH _ Hrest). unfold add_unreached at 1.
  destruct (rs !! l) as [r|] eqn:Hr; [|done].
  destruct (active r); [done|].
  rewrite fmap_cons. cbn [foldl]. do 2 f_equal.
  unfold logprob_at. rewrite lookup_omap, Hl. simpl. by rewrite Hr.
Qed.

Lemma unreached_logprob_sum (rs : gmap loc RandomVariableRecord)
    (vars : gmap string loc) :
  unreached_logprob rs vars
  = sum_F (logprob_at (omap (λ l, rs !! l) vars) <$> unreached rs vars).
Proof.
  unfold unreached_logprob, unreached, sum_F. apply add_unreached_fold.
  intros [n l]. simpl. by rewrite elem_of_map_to_list.
Qed.

Lemma omap_keys_NoDup {A} (sel : string * A → bool) (items : list (string * A)) :
  NoDup items.*1 →
  NoDup (omap (λ p, if sel p then Some p.1 else None) items).
Proof.
  induction items as [|p items IH]; simpl; [constructor|].
  intros [Hp Hnd]%NoDup_cons. destruct (sel p); [|by apply IH].
  apply NoDup_cons. split; [|by apply IH].
  intros Hin. apply Hp. apply list_elem_of_omap in Hin as (q & Hq & Heq).
  destruct (sel q); [|done]. injection Heq as <-.
  by apply list_elem_of_fmap_2.
Qed.

Lemma unreached_spec (rs : gmap loc RandomVariableRecord)
    (vars : gmap string loc) :
  NoDup (unreached rs vars) ∧
  ∀ n, n ∈ unreached rs vars ↔
       ∃ r, omap (λ l, rs !! l) vars !! n = Some r ∧ active r = false.
Proof.
  unfold unreached. split.
  - rewrite (list_omap_ext _
      (λ p, if match rs !! p.2 with
               | Some r => negb (active r)
               | None => false
               end then Some p.1 else None) _ (map_to_list vars)).
    + apply omap_keys_NoDup, NoDup_fst_map_to_list.
    + apply Forall2_same_length_lookup_2; [done|].
      intros i [n l] [n' l'] H1 H2. assert ((n', l') = (n, l)) as ->
        by congruence. simpl.
      destruct (rs !! l) as [r|]; [|done]. by destruct (active r).
  - intros n. rewrite list_elem_of_omap. split.
    + intros ([n' l] & Hin%elem_of_map_to_list & Hsel). simpl in Hsel.
      destruct (rs !! l) as [r|] eqn:Hr; [|done].
      destruct (active r) eqn:Hact; [done|]. injection Hsel as ->.
      exists r. split; [|done]. by rewrite lookup_omap, Hin.
    + intros (r & Hn & Hact). rewrite lookup_omap in Hn.
      destruct (vars !! n) as [l|] eqn:Hl; [simpl in Hn|done].
      exists (n, l). split; [by apply elem_of_map_to_list|]. simpl.
      by rewrite Hn, Hact.
Qed.
(** ** [traceUpdate] as a whole, and folds of events *)

Lemma traceUpdate_spec self frame w t w' :
  traces w !! self = Some t →
  wf_trace w t →
  traceUpdate self frame w = (w', Returns tt) →
  let σ := foldl apply_event
             (mkSummary (set_active false <$> view w t) 0 0 (rng w))
             (update_events self frame w) in
  ∃ t', traces w' !! self = Some t' ∧
        wf_trace w' t' ∧
        view w' t' = filter (λ p, active p.2 = true) (s_view σ) ∧
        tlogprob t' = s_logprob σ ∧
        newlogprob t' = s_newlogprob σ ∧
        (∃ names,
           NoDup names ∧
           (∀ n, n ∈ names ↔ ∃ r, s_view σ !! n = Some r ∧ active r = false) ∧
           oldlogprob t' = sum_F (logprob_at (s_view σ) <$> names)) ∧
        computation t' = computation t ∧
        _trace w' = _trace w ∧
        rng w' = s_rng σ.
Proof.
  intros Ht Hwf Hupd σ. subst σ. unfold update_events.
  destruct (traceUpdate_enter_running self frame w t Ht Hwf)
    as (w0 & Hent & Hrun0 & Hsum0).
  unfold traceUpdate in Hupd. rewrite Hent.
  erewrite bind_returns in Hupd by exact Hent.
  pose proof Hrun0 as (Ht0 & _ & _). rewrite Ht0.
  erewrite bind_returns in Hupd; [|unfold get_trace; by rewrite Ht0].
  change (computation (entered t frame)) with (computation t) in *.
  destruct (run (computation t) w0) as [w1 [v|x]] eqn:Hc.
  2: { erewrite bind_raises in Hupd by exact Hc. simplify_eq. }
  erewrite bind_returns in Hupd by exact Hc.
  destruct (run_sim self _ _ _ _ _ Hrun0 Hc) as (t1 & Hrun1 & Hsum1 & Hcomp1).
  destruct Hrun1 as (Ht1 & Hg1 & Hall1 & Hinj1).
  rewrite (traceUpdate_leave_spec _ _ _ _ _ Ht1) in Hupd. simplify_eq.
  rewrite Hsum0 in Hsum1. rewrite <- Hsum1.
  exists (finished t1 (records w1) v). simpl.
  split; [apply lookup_insert_eq|].
  split; [|split; [|split; [done|split; [done|split; [|done]]]]].
  - split; simpl.
    + intros n l [Hn _]%map_lookup_filter_Some. eauto.
    + intros n1 n2 l [H1 _]%map_lookup_filter_Some [H2 _]%map_lookup_filter_Some.
      eauto.
  - unfold view. simpl. apply view_left.
  - exists (unreached (records w1) (_vars t1)).
    destruct (unreached_spec (records w1) (_vars t1)) as [Hnd Hin].
    split; [done|]. split; [exact Hin|]. apply unreached_logprob_sum.
Qed.

Lemma looked_up_active found e ps s cv seed :
  active (looked_up found e ps s cv seed) = true.
Proof.
  unfold looked_up, created, reused.
  destruct found as [r|]; [|done]. by destruct (must_create _ _ _ _).
Qed.

Lemma fold_seen evs : ∀ σ0 n,
  n ∈ lookups evs →
  ∃ r, s_view (foldl apply_event σ0 evs) !! n = Some r ∧ active r = true.
Proof.
  induction evs as [|ev evs IH] using rev_ind; intros σ0 n.
  - by intros ?%elem_of_nil.
  - unfold lookups. rewrite omap_app, foldl_app, elem_of_app. simpl.
    intros [Hin|Hin].
    + destruct (IH σ0 n Hin) as (r & Hr & Hact).
      destruct ev as [name e ps s cv|x]; simpl; [|eauto].
      rewrite lookup_insert. case_decide; [|eauto].
      eexists. split; [done|]. apply looked_up_active.
    + destruct ev as [name e ps s cv|x]; simpl in *.
      * apply list_elem_of_singleton in Hin as ->. rewrite lookup_insert_eq.
        eexists. split; [done|]. apply looked_up_active.
      * by apply elem_of_nil in Hin.
Qed.

Lemma fold_unseen evs : ∀ σ0 n,
  n ∉ lookups evs →
  s_view (foldl apply_event σ0 evs) !! n = s_view σ0 !! n.
Proof.
  induction evs as [|ev evs IH]; intros σ0 n; [done|].
  destruct ev as [name e ps s cv|x]; simpl; intros Hn.
  - rewrite IH by set_solver. simpl. rewrite lookup_insert_ne; [done|].
    set_solver.
  - by rewrite IH.
Qed.

(** [logprob] as the run accumulates it: one term for each call, in the
    order of the calls.  When no address is looked up twice, the term of a
    lookup is the [logprob] of the record the run leaves at its address. *)
Lemma fold_contributions evs : ∀ σ0,
  NoDup (lookups evs) →
  let σ := foldl apply_event σ0 evs in
  s_logprob σ = foldl PrimFloat.add (s_logprob σ0) (contribution (s_view σ) <$> evs).
Proof.
  induction evs as [|ev evs IH]; intros σ0 Hnd; [done|].
  cbn [foldl]. rewrite fmap_cons. cbn [foldl].
  destruct ev as [name e ps s cv|x]; simpl in Hnd.
  - apply NoDup_cons in Hnd as [Hname Hnd].
    rewrite (IH _ Hnd). f_equal. simpl. f_equal.
    unfold logprob_at. rewrite (fold_unseen _ _ _ Hname). simpl.
    by rewrite lookup_insert_eq.
  - by rewrite (IH _ Hnd).
Qed.

(** [newlogprob] likewise, when every lookup creates its record. *)
Lemma fold_created evs : ∀ σ0,
  NoDup (lookups evs) →
  (∀ n, n ∈ lookups evs → s_view σ0 !! n = None) →
  let σ := foldl apply_event σ0 evs in
  s_newlogprob σ
  = foldl PrimFloat.add (s_newlogprob σ0) (logprob_at (s_view σ) <$> lookups evs).
Proof.
  induction evs as [|ev evs IH]; intros σ0 Hnd Hnone; [done|].
  cbn [foldl]. destruct ev as [name e ps s cv|x]; simpl in Hnd, Hnone.
  - apply NoDup_cons in Hnd as [Hname Hnd].
    change (lookups (ELookup name e ps s cv :: evs)) with (name :: lookups evs).
    rewrite fmap_cons. cbn [foldl]. rewrite IH; [|done|].
    + f_equal.
      assert (Hmk : must_create (s_view σ0 !! name) e s cv = true)
        by (by rewrite (Hnone name) by (by left)).
      unfold logprob_at. rewrite (fold_unseen _ _ _ Hname).
      simpl. by rewrite Hmk, lookup_insert_eq.
    + intros n Hn. simpl. rewrite lookup_insert_ne; [apply Hnone; by right|].
      by intros <-.
  - change (lookups (EFactor x :: evs)) with (lookups evs).
    by rewrite IH.
Qed.

(** Without factors the two sums take the same terms. *)
Lemma contributions_lookups (V : gmap string RandomVariableRecord) evs :
  factors evs = [] →
  contribution V <$> evs = logprob_at V <$> lookups evs.
Proof.
  induction evs as [|[name e ps s cv|x] evs IH]; intros Hf; [done| |done].
  change (lookups (ELookup name e ps s cv :: evs)) with (name :: lookups evs).
  rewrite !fmap_cons, IH; done.
Qed.
(** ** Accounting and reclamation *)

Lemma filter_key_fmap {A B} (P : string → Prop) `{!∀ n, Decision (P n)}
    (f : B → A) (m1 : gmap string A) (m2 : gmap string B) :
  (∀ n, P n → m1 !! n = f <$> m2 !! n) →
  filter (λ p, P p.1) m1 = f <$> filter (λ p, P p.1) m2.
Proof.
  intros Hm. apply map_eq. intros n. apply option_eq. intros x.
  rewrite lookup_fmap, fmap_Some, map_lookup_filter_Some. simpl. split.
  - intros [Hx HP]. rewrite (Hm n HP), fmap_Some in Hx.
    destruct Hx as (y & Hy & ->). exists y. split; [|done].
    by apply map_lookup_filter_Some.
  - intros (y & [Hy HP]%map_lookup_filter_Some & ->). simpl in *.
    split; [|done]. by rewrite (Hm n HP), Hy.
Qed.

Lemma view_None w t n :
  wf_trace w t → view w t !! n = None → _vars t !! n = None.
Proof.
  intros [Hall _]. rewrite lookup_view.
  destruct (_vars t !! n) as [l|] eqn:Hn; [simpl|done].
  destruct (Hall _ _ Hn) as [r ->]. done.
Qed.

(** C1 (as amended).  After a completed [traceUpdate] in which no address
    was looked up twice, the records of the trace are all active, they are
    the records at the addresses looked up, and [logprob] is the sum, taken
    from 0.0 in the order of the calls, of the [logprob] of the record at
    the address of each lookup and of each factor added. *)
Theorem accounting_invariant self frame w t w' :
  traces w !! self = Some t →
  wf_trace w t →
  traceUpdate self frame w = (w', Returns tt) →
  NoDup (lookups (update_events self frame w)) →
  ∃ t', traces w' !! self = Some t' ∧
        (∀ n r, view w' t' !! n = Some r →
                active r = true ∧ n ∈ lookups (update_events self frame w)) ∧
        (∀ n, n ∈ lookups (update_events self frame w) →
              is_Some (view w' t' !! n)) ∧
        tlogprob t'
        = sum_F (contribution (view w' t') <$> update_events self frame w).
Proof.
  intros Ht Hwf Hupd Hnd.
  destruct (traceUpdate_spec self frame w t w' Ht Hwf Hupd)
    as (t' & Ht' & _ & Hview & Hlp & _).
  set (σ0 := mkSummary (set_active false <$> view w t) 0 0 (rng w)) in *.
  set (evs := update_events self frame w) in *.
  assert (Hseen : ∀ n, n ∈ lookups evs →
            ∃ r, view w' t' !! n = Some r ∧
                 s_view (foldl apply_event σ0 evs) !! n = Some r).
  { intros n Hn. destruct (fold_seen evs σ0 n Hn) as (r & Hr & Hact).
    exists r. split; [|done]. rewrite Hview.
    by apply map_lookup_filter_Some. }
  exists t'. split; [done|]. split; [|split].
  - intros n r. rewrite Hview. intros [Hr Hact]%map_lookup_filter_Some.
    split; [done|]. destruct (decide (n ∈ lookups evs)) as [|Hn]; [done|].
    rewrite (fold_unseen _ σ0 n Hn) in Hr. simpl in Hr, Hact.
    rewrite lookup_fmap in Hr. apply fmap_Some in Hr as (r0 & _ & ->). done.
  - intros n Hn. destruct (Hseen n Hn) as (r & Hr & _). eauto.
  - rewrite Hlp. rewrite (fold_contributions evs σ0 Hnd). unfold sum_F.
    simpl. f_equal. apply list_fmap_ext. intros i ev Hev.
    destruct ev as [name e ps s cv|x]; [simpl|done].
    assert (Hname : name ∈ lookups evs).
    { apply list_elem_of_omap. exists (ELookup name e ps s cv).
      split; [|done]. by eapply list_elem_of_lookup_2. }
    destruct (Hseen name Hname) as (r & Hr1 & Hr2).
    unfold logprob_at. by rewrite Hr1, Hr2.
Qed.

(** ** Which record objects a run leaves *)

Section objects.
Variable self : loc.

Lemma run_objects c : ∀ w t w' v,
  running self w t →
  run c w = (w', Returns v) →
  ∃ t', traces w' !! self = Some t' ∧
        (∀ l, records w' !! l = None → records w !! l = None) ∧
        ∀ n l, _vars t' !! n = Some l →
          (n ∈ created_at (summarize w t) (events c w) →
           records w !! l = None) ∧
          (n ∉ created_at (summarize w t) (events c w) →
           _vars t !! n = Some l).
Proof.
  induction c as [v0|x|stack e ps s n cv k IH|stack n k IH|x k IH|b k IH];
    intros w t w' v Hrun Hc; simpl in *.
  - unfold ret in Hc. simplify_eq. exists t. destruct Hrun as (Ht & _).
    split; [done|]. split; [done|]. intros n l Hn.
    split; [by intros ?%elem_of_nil|done].
  - unfold raise in Hc. simplify_eq.
  - unfold bind in Hc.
    destruct (lookupVariableValue stack e ps s n cv w) as [w1 o] eqn:Hlk.
    destruct (lookupVariableValue_running _ _ _ _ _ _ _ _ _ _ _ Hrun Hlk)
      as [(x & -> & _)|(fs & t1 & Hfs & Hev & Hrun1 & -> & Hsum & _)];
      [done|].
    destruct (lookupVariableValue_objects self stack e ps s n cv w t fs
                Hrun Hfs) as (l1 & Hobj & Hl1).
    rewrite Hlk in Hobj. injection Hobj as ->.
    rewrite Hev. cbn [app created_at].
    set (name := name_loop (rootframe t) (loopcounters t) fs) in *.
    set (mk := must_create (view w t !! name) e s cv) in *.
    assert (t1 = trace_after_lookup t name l1
                   (looked_up (view w t !! name) e ps s cv (rng w)) mk) as Ht1.
    { destruct Hrun1 as (Ht1 & _). simpl in Ht1.
      rewrite lookup_insert_eq in Ht1. congruence. }
    destruct (IH _ _ _ _ _ Hrun1 Hc) as (t' & Ht' & Hrec & Hvars).
    rewrite Hsum in Hvars.
    change (s_view (summarize w t) !! name) with (view w t !! name).
    fold mk.
    exists t'. split; [done|]. split.
    + intros l Hl. apply Hrec in Hl. simpl in Hl.
      rewrite lookup_insert in Hl. by case_decide.
    + intros n0 l Hn0. destruct (Hvars n0 l Hn0) as [Hin Hout]. split.
      * intros [Hhead|Htail]%elem_of_app.
        -- match type of Hin with ?P → _ =>
             destruct (decide P) as [Htail|Htail] end.
           ++ specialize (Hin Htail). simpl in Hin.
              rewrite lookup_insert in Hin. by case_decide.
           ++ specialize (Hout Htail). rewrite Ht1 in Hout. simpl in Hout.
              destruct mk; [|by apply elem_of_nil in Hhead].
              apply list_elem_of_singleton in Hhead as ->.
              rewrite lookup_insert_eq in Hout. by simplify_eq.
        -- specialize (Hin Htail). simpl in Hin.
           rewrite lookup_insert in Hin. by case_decide.
      * intros [Hhead Htail]%not_elem_of_app.
        specialize (Hout Htail). rewrite Ht1 in Hout. simpl in Hout.
        rewrite lookup_insert in Hout. case_decide as Heq; [|done].
        subst n0. simplify_eq.
        destruct mk; [|done]. destruct Hhead. by left.
  - unfold bind in Hc.
    pose proof Hrun as (Ht & Hg & Hwf).
    rewrite (incrementLoopCounter_active self) in * by done.
    unfold trace_incrementLoopCounter in *.
    destruct (f_back (n + 1) stack) as [fs|]; [|unfold raise in Hc; simplify_eq].
    edestruct (update_trace_running self) as (Hu & Hrun1 & Hv); [exact Hrun| |].
    2: { rewrite Hu in *.
         destruct (IH _ _ _ _ Hrun1 Hc) as (t' & Ht' & Hrec & Hvars).
         exists t'. split; [done|]. split; [done|]. exact Hvars. }
    done.
  - unfold bind in Hc.
    pose proof Hrun as (Ht & Hg & Hwf).
    rewrite (factor_active self) in * by done.
    unfold factor_event. rewrite Hg. unfold addFactor in *.
    edestruct (update_trace_running self) as (Hu & Hrun1 & Hv); [exact Hrun| |].
    2: { rewrite Hu in *.
         destruct (IH _ _ _ _ Hrun1 Hc) as (t' & Ht' & Hrec & Hvars).
         exists t'. split; [done|]. split; [done|]. exact Hvars. }
    done.
  - unfold bind in Hc.
    pose proof Hrun as (Ht & Hg & Hwf).
    rewrite (condition_active self) in * by done.
    unfold conditionOn in *.
    edestruct (update_trace_running self) as (Hu & Hrun1 & Hv); [exact Hrun| |].
    2: { rewrite Hu in *.
         destruct (IH _ _ _ _ Hrun1 Hc) as (t' & Ht' & Hrec & Hvars).
         exists t'. split; [done|]. split; [done|]. exact Hvars. }
    done.
Qed.
End objects.

Lemma traceUpdate_objects self frame w t w' :
  traces w !! self = Some t →
  wf_trace w t →
  traceUpdate self frame w = (w', Returns tt) →
  ∃ t', traces w' !! self = Some t' ∧
        ∀ n l, _vars t' !! n = Some l →
          (n ∈ update_creations self frame w → records w !! l = None) ∧
          (n ∉ update_creations self frame w → _vars t !! n = Some l).
Proof.
  intros Ht Hwf Hupd.
  destruct (traceUpdate_enter_running self frame w t Ht Hwf)
    as (w0 & Hent & Hrun0 & Hsum0).
  pose proof Hrun0 as (Ht0 & _ & _).
  unfold update_creations. rewrite Hent, Ht0.
  change (computation (entered t frame)) with (computation t).
  unfold traceUpdate in Hupd.
  erewrite bind_returns in Hupd by exact Hent.
  erewrite bind_returns in Hupd; [|unfold get_trace; by rewrite Ht0].
  change (computation (entered t frame)) with (computation t) in Hupd.
  destruct (run (computation t) w0) as [wo [v|x]] eqn:Hc.
  2: { erewrite bind_raises in Hupd by exact Hc. simplify_eq. }
  erewrite bind_returns in Hupd by exact Hc.
  destruct (run_objects self _ _ _ _ _ Hrun0 Hc) as (to & Hto & Hrec & Hvars).
  rewrite (traceUpdate_leave_spec _ _ _ _ _ Hto) in Hupd. simplify_eq.
  rewrite (traceUpdate_enter_spec _ _ _ _ Ht) in Hent. injection Hent as <-.
  eexists. split; [apply lookup_insert_eq|]. simpl.
  intros n l [Hn _]%map_lookup_filter_Some.
  destruct (Hvars n l Hn) as [Hin Hout]. split; [|done].
  intros Hmade. specialize (Hin Hmade). simpl in Hin.
  destruct (mark_inactive_spec (_vars t) (records w) l) as [[_ Heq]|[_ Heq]];
    rewrite Heq in Hin; [|done].
  by destruct (records w !! l).
Qed.

(** C4 (as amended).  After a completed [traceUpdate], an address that the
    computation did not look up is not in the dictionary any more, and
    [oldlogprob] is the sum, taken from 0.0 in the order in which the
    dictionary is iterated, of the [logprob] of the records that were stored
    at exactly those addresses.  An address that it looked up is bound to
    an active record: the record object stored there before the call when
    no lookup of the call created a record at the address, and an object
    created during the call otherwise. *)
Theorem reclamation self frame w t w' :
  traces w !! self = Some t →
  wf_trace w t →
  traceUpdate self frame w = (w', Returns tt) →
  let seen := lookups (update_events self frame w) in
  let made := update_creations self frame w in
  ∃ t', traces w' !! self = Some t' ∧
        (∀ n, n ∉ seen → _vars t' !! n = None) ∧
        (∃ names,
           NoDup names ∧
           (∀ n, n ∈ names ↔ (n ∉ seen) ∧ is_Some (view w t !! n)) ∧
           oldlogprob t' = sum_F (logprob_at (view w t) <$> names)) ∧
        (∀ n, n ∈ seen →
           ∃ l r, _vars t' !! n = Some l ∧
                  records w' !! l = Some r ∧
                  active r = true ∧
                  (n ∈ made → records w !! l = None) ∧
                  (n ∉ made → _vars t !! n = Some l)).
Proof.
  intros Ht Hwf Hupd seen made.
  destruct (traceUpdate_spec self frame w t w' Ht Hwf Hupd)
    as (t' & Ht' & Hwf' & Hview & _ & _ & Hold & _).
  fold seen in Hview, Hold.
  set (σ0 := mkSummary (set_active false <$> view w t) 0 0 (rng w)) in *.
  exists t'. split; [done|]. split; [|split].
  - intros n Hn. apply (view_None w'); [done|].
    rewrite Hview. apply map_lookup_filter_None. right. intros r Hr. simpl.
    rewrite (fold_unseen _ σ0 n Hn) in Hr. simpl in Hr.
    rewrite lookup_fmap in Hr. apply fmap_Some in Hr as (r0 & _ & ->). done.
  - destruct Hold as (names & Hnd & Hin & Hold).
    assert (Hin' : ∀ n, n ∈ names ↔ (n ∉ seen) ∧ is_Some (view w t !! n)).
    { intros n. rewrite Hin. split.
      - intros (r & Hr & Hact).
        assert (Hn : n ∉ seen).
        { intros Hn.
          destruct (fold_seen (update_events self frame w) σ0 n Hn)
            as (r' & Hr' & Hact').
          fold seen in Hr'. congruence. }
        split; [done|]. rewrite (fold_unseen _ σ0 n Hn) in Hr. simpl in Hr.
        rewrite lookup_fmap in Hr. apply fmap_Some in Hr as (r0 & Hr0 & _).
        eauto.
      - intros [Hn [r0 Hr0]]. exists (set_active false r0).
        split; [|done]. rewrite (fold_unseen _ σ0 n Hn). simpl.
        by rewrite lookup_fmap, Hr0. }
    exists names. split; [done|]. split; [done|]. rewrite Hold.
    f_equal. apply list_fmap_ext. intros i n Hi.
    apply list_elem_of_lookup_2, Hin' in Hi as [Hn _].
    unfold logprob_at. rewrite (fold_unseen _ σ0 n Hn). simpl.
    rewrite lookup_fmap. by destruct (view w t !! n).
  - intros n Hn.
    destruct (fold_seen (update_events self frame w) σ0 n Hn) as (r & Hr & Hact).
    assert (Hv : view w' t' !! n = Some r).
    { rewrite Hview. by apply map_lookup_filter_Some. }
    rewrite lookup_view in Hv.
    destruct (_vars t' !! n) as [l|] eqn:Hl; [simpl in Hv|done].
    destruct (traceUpdate_objects self frame w t w' Ht Hwf Hupd)
      as (t'' & Ht'' & Hobj).
    assert (t'' = t') as -> by congruence.
    destruct (Hobj n l Hl) as [Hin Hout]. exists l, r. done.
Qed.

(** ** Running a computation again *)

Lemma kind_reused e ps r : kind (reused e ps r) = kind r.
Proof. unfold kind, reused. by destruct (py_ne_list (params r) ps). Qed.

Lemma active_reused e ps r : active (reused e ps r) = true.
Proof. done. Qed.

Lemma must_create_kind r r' e s cv :
  kind r = kind r' →
  must_create (Some r) e s cv = must_create (Some r') e s cv.
Proof.
  unfold kind, must_create. intros [= He Hs Hv _]. by rewrite He, Hs, Hv.
Qed.

Lemma looked_up_reuse r e ps s cv seed :
  must_create (Some r) e s cv = false →
  looked_up (Some r) e ps s cv seed = reused e ps r.
Proof. unfold looked_up. by intros ->. Qed.

(** A record left by a lookup is one the same lookup reuses, provided the
    value it was conditioned on, if any, is equal to itself. *)
Lemma looked_up_agrees found e ps s cv seed :
  implb (truthy cv) (py_eq cv cv) = true →
  must_create (Some (looked_up found e ps s cv seed)) e s cv = false.
Proof.
  intros Hcv.
  assert (Hcreated : must_create (Some (created e ps s cv seed)) e s cv = false).
  { unfold must_create, created, py_ne. simpl.
    rewrite N.eqb_refl, eqb_reflx. simpl.
    destruct (truthy cv); simpl in *; [by rewrite Hcv|done]. }
  unfold looked_up. destruct found as [r0|]; [|done].
  destruct (must_create (Some r0) e s cv) eqn:Hmk0; [done|].
  rewrite <- Hmk0. apply must_create_kind, kind_reused.
Qed.

(** Reusing the record a lookup has just left changes nothing of it. *)
Lemma reused_looked_up found e ps s cv seed :
  reused e ps (looked_up found e ps s cv seed)
  = looked_up found e ps s cv seed.
Proof.
  assert (Hcreated : reused e ps (created e ps s cv seed)
                     = created e ps s cv seed).
  { unfold reused, created. simpl.
    by destruct (py_ne_list ps ps). }
  assert (Hreused : ∀ r0, reused e ps (reused e ps r0) = reused e ps r0).
  { intros r0. unfold reused.
    destruct (py_ne_list (params r0) ps) eqn:Hps; simpl.
    - by destruct (py_ne_list ps ps).
    - by rewrite Hps. }
  unfold looked_up. destruct found as [r0|]; [|done].
  by destruct (must_create (Some r0) e s cv).
Qed.


Section replay.
Variable self : loc.


End replay.
Lemma traceUpdate_inv self frame w t w' :
  traces w !! self = Some t →
  wf_trace w t →
  traceUpdate self frame w = (w', Returns tt) →
  ∃ w0 wo v,
    traceUpdate_enter self frame w = (w0, Returns (_trace w)) ∧
    running self w0 (entered t frame) ∧
    summarize w0 (entered t frame)
    = mkSummary (set_active false <$> view w t) 0 0 (rng w) ∧
    update_events self frame w = events (computation t) w0 ∧
    run (computation t) w0 = (wo, Returns v) ∧
    ∀ to, traces wo !! self = Some to →
      w' = mkWorld (<[self := finished to (records wo) v]> (traces wo)) (records wo)
             (_trace w) (rng wo).
Proof.
  intros Ht Hwf Hupd.
  destruct (traceUpdate_enter_running self frame w t Ht Hwf)
    as (w0 & Hent & Hrun0 & Hsum0).
  unfold traceUpdate in Hupd.
  erewrite bind_returns in Hupd by exact Hent.
  pose proof Hrun0 as (Ht0 & _ & _).
  erewrite bind_returns in Hupd; [|unfold get_trace; by rewrite Ht0].
  change (computation (entered t frame)) with (computation t) in *.
  destruct (run (computation t) w0) as [wo [v|x]] eqn:Hc.
  2: { erewrite bind_raises in Hupd by exact Hc. simplify_eq. }
  erewrite bind_returns in Hupd by exact Hc.
  exists w0, wo, v. split; [done|]. split; [done|]. split; [done|].
  split; [|split; [done|]].
  - unfold update_events. by rewrite Hent, Ht0.
  - intros to Hto. rewrite (traceUpdate_leave_spec _ _ _ _ _ Hto) in Hupd.
    congruence.
Qed.




(** ** The rule of [lookup], and choices outside a trace *)

Lemma must_create_spec found e s cv :
  must_create found e s cv = true ↔
  found = None ∨
  ∃ r, found = Some r ∧
       (erp r ≠ e ∨ structural r ≠ s ∨
        (truthy cv = true ∧ py_ne cv (val r) = true)).
Proof.
  unfold must_create. destruct found as [r|].
  2: { split; [by left|done]. }
  rewrite !orb_true_iff, andb_true_iff, !negb_true_iff, N.eqb_neq.
  rewrite eqb_false_iff. split.
  - intros H. right. exists r. split; [done|].
    destruct H as [[H|H]|H]; [by left|right; left|by right; right].
    intros Heq. by apply H.
  - intros [H|(r' & Heq & H)]; [done|]. injection Heq as <-.
    destruct H as [H|[H|H]]; [by left; left|left; right|by right].
    intros Heq. by apply H.
Qed.

(** The rule as the documentation states it, for a [conditionedValue] that
    is absent or truthy: "supplied" is then the same as truthy. *)
Lemma must_create_supplied found e s cv :
  cv = VNone ∨ truthy cv = true →
  must_create found e s cv = true ↔
  found = None ∨
  ∃ r, found = Some r ∧
       (erp r ≠ e ∨ structural r ≠ s ∨
        (cv ≠ VNone ∧ py_ne cv (val r) = true)).
Proof.
  intros Hcv. rewrite must_create_spec.
  assert (Hiff : truthy cv = true ↔ cv ≠ VNone).
  { destruct Hcv as [->|Hcv]; [by split|].
    split; [|done]. intros _ ->. done. }
  split; (intros [H|(r & Hr & H)]; [by left|right]; exists r; split; [done|]);
    (destruct H as [H|[H|[H1 H2]]]; [by left|by right; left|right; right]);
    split; try done; by apply Hiff.
Qed.

Lemma py_ne_None cv : cv ≠ VNone → py_ne cv VNone = true.
Proof. by destruct cv. Qed.

(** C10.  A lookup at an address that holds no record, with a
    [conditionedValue] that is falsy but not [None], stores a record whose
    value is a draw from the ERP, marks it conditioned, and the address is
    not among the names [freeVarNames] returns. *)
Theorem falsy_condition_is_sampled self name e ps s cv w t :
  traces w !! self = Some t →
  _vars t !! name = None →
  truthy cv = false →
  cv ≠ VNone →
  ∃ w' t' l r,
    trace_lookup self name e ps s cv w
    = (w', Returns (_sample_impl (erps e) ps (rng w))) ∧
    traces w' !! self = Some t' ∧
    _vars t' !! name = Some l ∧
    records w' !! l = Some r ∧
    val r = _sample_impl (erps e) ps (rng w) ∧
    conditioned r = true ∧
    ∀ a b, ∃ names,
      freeVarNames self a b w' = (w', Returns names) ∧ name ∉ names.
Proof.
  intros Ht Hn Hcv Hnone.
  destruct (trace_lookup_spec self name e ps s cv w t Ht) as (l & Hlk & _).
  { intros l. by rewrite Hn. }
  rewrite lookup_view, Hn in Hlk. simpl in Hlk.
  unfold created in Hlk. rewrite Hcv in Hlk. simpl in Hlk.
  rewrite (py_ne_None cv Hnone) in Hlk.
  eexists _, _, l, _. split; [exact Hlk|].
  unfold world_after_lookup, trace_after_lookup. simpl.
  split; [apply lookup_insert_eq|]. split; [apply lookup_insert_eq|].
  split; [apply lookup_insert_eq|]. split; [done|]. split; [done|].
  intros a b. eexists. split.
  - unfold freeVarNames. munfold. simpl. by rewrite lookup_insert_eq.
  - simpl. intros Hin. apply list_elem_of_fmap in Hin as ([n l0] & Heq & Hin).
    simpl in Heq. subst n. apply list_elem_of_In, filter_In in Hin as [Hin Hp].
    apply list_elem_of_In, elem_of_map_to_list in Hin.
    rewrite lookup_insert_eq in Hin. simplify_eq. simpl in Hp.
    rewrite lookup_insert_eq in Hp. done.
Qed.

(** C6 (as amended).  With no active trace, [lookupVariableValue] returns
    the supplied [conditionedValue] when that is truthy, without a draw and
    without touching the state; for every other [conditionedValue], [None]
    or falsy, it returns a draw from the ERP and ignores the value.  With
    an active trace, every call computes the address and hands over to that
    trace's [lookup]. *)
Theorem resolve_choice stack e ps s n cv w :
  match _trace w with
  | None =>
      lookupVariableValue stack e ps s n cv w
      = if truthy cv then (w, Returns cv)
        else (set_rng (N.succ (rng w)) w,
              Returns (_sample_impl (erps e) ps (rng w)))
  | Some t =>
      lookupVariableValue stack e ps s n cv w
      = (name <~ currentName t stack (n + 1) ;;
         trace_lookup t name e ps s cv) w
  end.
Proof.
  destruct (_trace w) as [t|] eqn:Hg.
  - by apply lookupVariableValue_active.
  - unfold lookupVariableValue. erewrite bind_returns; [|reflexivity].
    rewrite Hg. by destruct (truthy cv).
Qed.
(** ** What a call leaves alone *)

Lemma bind_cases {A B} (m : M A) (k : A → M B) w w' o :
  bind m k w = (w', o) →
  (∃ w1 a, m w = (w1, Returns a) ∧ k a w1 = (w', o)) ∨
  (∃ x, m w = (w', Raises x) ∧ o = Raises x).
Proof.
  unfold bind. destruct (m w) as [w1 [a|x]]; intros Heq.
  - left. eauto.
  - right. exists x. by simplify_eq.
Qed.

Lemma get_trace_cases t w w' o :
  get_trace t w = (w', o) →
  w' = w ∧ (∀ tr, o = Returns tr → traces w !! t = Some tr).
Proof.
  unfold get_trace. destruct (traces w !! t); intros; simplify_eq; split;
    congruence.
Qed.

Lemma get_record_cases l w w' o :
  get_record l w = (w', o) →
  w' = w ∧ (∀ r, o = Returns r → records w !! l = Some r).
Proof.
  unfold get_record. destruct (records w !! l); intros; simplify_eq; split;
    congruence.
Qed.

Lemma update_trace_cases t f w w' o :
  update_trace t f w = (w', o) →
  w' = w ∨
  ∃ tr, traces w !! t = Some tr ∧
        w' = set_traces (<[t := f tr]> (traces w)) w ∧ o = Returns tt.
Proof.
  unfold update_trace, bind, get_trace, modify.
  destruct (traces w !! t) as [tr|]; intros; simplify_eq; eauto.
Qed.

Lemma update_record_cases l f w w' o :
  update_record l f w = (w', o) →
  w' = w ∨
  ∃ r, records w !! l = Some r ∧
       w' = set_records (<[l := f r]> (records w)) w ∧ o = Returns tt.
Proof.
  unfold update_record, bind, get_record, modify.
  destruct (records w !! l) as [r|]; intros; simplify_eq; eauto.
Qed.

Lemma trace_lookup_cases self name e ps s cv w w' o :
  trace_lookup self name e ps s cv w = (w', o) →
  w' = w ∨
  ∃ t l r' mk drawn,
    traces w !! self = Some t ∧
    (records w !! l = None ∨ _vars t !! name = Some l) ∧
    w' = world_after_lookup w self t name l r' mk drawn.
Proof.
  intros Hlk.
  assert (Hcase : traces w !! self = None ∨ ∃ t, traces w !! self = Some t)
    by (destruct (traces w !! self); eauto).
  destruct Hcase as [Ht|[t Ht]].
  { left. unfold trace_lookup in Hlk.
    erewrite bind_raises in Hlk; [by simplify_eq|].
    unfold get_trace. by rewrite Ht. }
  assert (Hcase : (∃ l, _vars t !! name = Some l ∧ records w !! l = None) ∨
                  (∀ l, _vars t !! name = Some l → is_Some (records w !! l))).
  { destruct (_vars t !! name) as [l|]; [|by right].
    destruct (records w !! l) eqn:Hr; [right|left; eauto].
    intros l0 ?. simplify_eq. eauto. }
  destruct Hcase as [(l & Hn & Hr)|Hall].
  - left. unfold trace_lookup in Hlk.
    erewrite bind_returns in Hlk; [|unfold get_trace; by rewrite Ht].
    rewrite Hn in Hlk.
    erewrite bind_raises in Hlk; [by simplify_eq|].
    erewrite bind_raises; [done|]. unfold get_record. by rewrite Hr.
  - right.
    destruct (trace_lookup_spec self name e ps s cv w t Ht Hall)
      as (l & Hspec & Hl).
    rewrite Hspec in Hlk. simplify_eq. eexists t, l, _, _, _.
    split; [done|]. split; [|done].
    destruct (must_create _ _ _ _); eauto.
Qed.

Lemma bind_ext_active_incr {B} self stack n (k : unit → M B) w :
  _trace w = Some self →
  bind (incrementLoopCounter stack n) k w
  = bind (trace_incrementLoopCounter self stack (n + 1)) k w.
Proof.
  intros Hg. unfold bind. by rewrite (incrementLoopCounter_active self).
Qed.

Lemma bind_ext_active_factor {B} self x (k : unit → M B) w :
  _trace w = Some self →
  bind (factor x) k w = bind (addFactor self x) k w.
Proof. intros Hg. unfold bind. by rewrite (factor_active self). Qed.

Lemma bind_ext_active_condition {B} self b (k : unit → M B) w :
  _trace w = Some self →
  bind (condition b) k w = bind (conditionOn self b) k w.
Proof. intros Hg. unfold bind. by rewrite (condition_active self). Qed.

Section frame.
Variable R0 : gmap loc RandomVariableRecord.
Variable T0 : gmap loc RandomExecutionTrace.
Variable nt : loc.
Hypothesis Hnt : T0 !! nt = None.

Lemma keeps_update_trace f w w' o :
  keeps R0 T0 nt w →
  (∀ tn n l, traces w !! nt = Some tn → _vars (f tn) !! n = Some l →
             R0 !! l = None) →
  update_trace nt f w = (w', o) →
  keeps R0 T0 nt w'.
Proof.
  intros (HR & HT & HV) Hf [->|(tr & Htr & -> & _)]%update_trace_cases; [done|].
  split; [done|]. split; simpl.
  - intros t tr' Ht. rewrite lookup_insert_ne; [by apply HT|].
    intros <-. congruence.
  - intros tn n l. rewrite lookup_insert_eq. intros [= <-]. by apply Hf.
Qed.

Lemma keeps_update_fields f w w' o :
  keeps R0 T0 nt w →
  (∀ tn, _vars (f tn) = _vars tn) →
  update_trace nt f w = (w', o) →
  keeps R0 T0 nt w'.
Proof.
  intros Hk Hf. apply keeps_update_trace; [done|].
  intros tn n l Htn. rewrite Hf. destruct Hk as (_ & _ & HV). by apply HV.
Qed.

Lemma keeps_update_record l f w w' o :
  keeps R0 T0 nt w →
  R0 !! l = None →
  update_record l f w = (w', o) →
  keeps R0 T0 nt w'.
Proof.
  intros (HR & HT & HV) Hl [->|(r & Hr & -> & _)]%update_record_cases; [done|].
  split; [|done]. simpl. intros l0 r0 Hl0.
  rewrite lookup_insert_ne; [by apply HR|]. intros <-. congruence.
Qed.

Lemma keeps_fresh w l :
  keeps R0 T0 nt w → records w !! l = None → R0 !! l = None.
Proof.
  intros (HR & _) Hl. destruct (R0 !! l) as [r|] eqn:H0; [|done].
  rewrite (HR _ _ H0) in Hl. done.
Qed.

Lemma keeps_trace_lookup name e ps s cv w w' o :
  keeps R0 T0 nt w →
  trace_lookup nt name e ps s cv w = (w', o) →
  keeps R0 T0 nt w'.
Proof.
  intros Hk [->|(t & l & r' & mk & drawn & Ht & Hl & ->)]%trace_lookup_cases;
    [done|].
  assert (Hl0 : R0 !! l = None).
  { destruct Hl as [Hl|Hl]; [by apply (keeps_fresh w)|].
    destruct Hk as (_ & _ & HV). by apply (HV t name). }
  destruct Hk as (HR & HT & HV).
  unfold world_after_lookup. split; [|split]; simpl.
  - intros l0 r0 H0. rewrite lookup_insert_ne; [by apply HR|].
    intros <-. congruence.
  - intros t0 tr H0. rewrite lookup_insert_ne; [by apply HT|].
    intros <-. congruence.
  - intros tn n l0. rewrite lookup_insert_eq. intros [= <-]. simpl.
    rewrite lookup_insert. case_decide; [congruence|]. by apply HV.
Qed.

Lemma keeps_run c : ∀ w w' o,
  keeps R0 T0 nt w →
  _trace w = Some nt →
  run c w = (w', o) →
  keeps R0 T0 nt w' ∧ _trace w' = Some nt.
Proof.
  assert (Hupd : ∀ f w w' o, _trace w = Some nt →
            update_trace nt f w = (w', o) → _trace w' = Some nt).
  { intros f w w' o Hg [->|(tr & _ & -> & _)]%update_trace_cases; done. }
  induction c as [v0|x|stack e ps s n cv k IH|stack n k IH|x k IH|b k IH];
    intros w w' o Hk Hg Hc; simpl in Hc.
  - unfold ret in Hc. by simplify_eq.
  - unfold raise in Hc. by simplify_eq.
  - apply bind_cases in Hc as [(w1 & v & Hm & Hc)|(x & Hm & ->)].
    + rewrite (lookupVariableValue_active nt) in Hm by done.
      apply bind_cases in Hm as [(w2 & name & Hm & Hlk)|(x & Hm & ?)];
        [|done].
      unfold currentName in Hm.
      apply bind_cases in Hm as [(w3 & t & [-> _]%get_trace_cases & Hm)
                                |(x & Hm & ?)]; [|done].
      assert (w2 = w) as ->.
      { destruct (f_back (n + 1) stack); unfold ret, raise in Hm;
          by simplify_eq. }
      apply (IH v w1 w' o); [by eapply keeps_trace_lookup| |done].
      apply trace_lookup_cases in Hlk
        as [->|(t0 & l & r' & mk & drawn & _ & _ & ->)]; done.
    + rewrite (lookupVariableValue_active nt) in Hm by done.
      apply bind_cases in Hm as [(w2 & name & Hm & Hlk)|(x' & Hm & ?)].
      * unfold currentName in Hm.
        apply bind_cases in Hm as [(w3 & t & [-> _]%get_trace_cases & Hm)
                                  |(x'' & Hm & ?)]; [|done].
        assert (w2 = w) as ->.
        { destruct (f_back (n + 1) stack); unfold ret, raise in Hm;
            by simplify_eq. }
        split; [by eapply keeps_trace_lookup|].
        apply trace_lookup_cases in Hlk
          as [->|(t0 & l & r' & mk & drawn & _ & _ & ->)]; done.
      * unfold currentName in Hm.
        apply bind_cases in Hm as [(w3 & t & [-> _]%get_trace_cases & Hm)
                                  |(x'' & [-> _]%get_trace_cases & ?)];
          [|done].
        destruct (f_back (n + 1) stack); unfold ret, raise in Hm;
          by simplify_eq.
  - rewrite (bind_ext_active_incr nt) in Hc by done.
    apply bind_cases in Hc as [(w1 & v & Hm & Hc)|(x & Hm & ->)];
      unfold trace_incrementLoopCounter in Hm;
      (destruct (f_back (n + 1) stack);
         [|unfold raise in Hm; by simplify_eq]).
    + apply (IH w1 w' o); [by refine (keeps_update_fields _ _ _ _ Hk _ Hm)|by eapply Hupd|done].
    + split; [by refine (keeps_update_fields _ _ _ _ Hk _ Hm)|by eapply Hupd].
  - rewrite (bind_ext_active_factor nt) in Hc by done.
    apply bind_cases in Hc as [(w1 & v & Hm & Hc)|(x' & Hm & ->)];
      unfold addFactor in Hm.
    + apply (IH w1 w' o); [by refine (keeps_update_fields _ _ _ _ Hk _ Hm)|by eapply Hupd|done].
    + split; [by refine (keeps_update_fields _ _ _ _ Hk _ Hm)|by eapply Hupd].
  - rewrite (bind_ext_active_condition nt) in Hc by done.
    apply bind_cases in Hc as [(w1 & v & Hm & Hc)|(x' & Hm & ->)];
      unfold conditionOn in Hm.
    + apply (IH w1 w' o); [by refine (keeps_update_fields _ _ _ _ Hk _ Hm)|by eapply Hupd|done].
    + split; [by refine (keeps_update_fields _ _ _ _ Hk _ Hm)|by eapply Hupd].
Qed.

End frame.

Lemma traceUpdate_enter_cases self frame w w' o :
  traceUpdate_enter self frame w = (w', o) →
  (traces w !! self = None ∧ w' = set_global (Some self) w ∧
   o = Raises HeapFault) ∨
  (∃ t, traces w !! self = Some t ∧
        w' = mkWorld (<[self := entered t frame]> (traces w))
               (mark_inactive (_vars t) (records w)) (Some self) (rng w) ∧
        o = Returns (_trace w)).
Proof.
  intros Hent.
  assert (Hcase : traces w !! self = None ∨ ∃ t, traces w !! self = Some t)
    by (destruct (traces w !! self); eauto).
  destruct Hcase as [Ht|[t Ht]].
  - left. split; [done|]. revert Hent. unfold traceUpdate_enter. munfold.
    simpl. rewrite Ht. by intros [= <- <-].
  - right. exists t. rewrite (traceUpdate_enter_spec _ _ _ _ Ht) in Hent.
    by simplify_eq.
Qed.

Lemma traceUpdate_leave_cases self orig v w w' o :
  traceUpdate_leave self orig v w = (w', o) →
  (traces w !! self = None ∧ w' = w ∧ o = Raises HeapFault) ∨
  (∃ t, traces w !! self = Some t ∧
        w' = mkWorld (<[self := finished t (records w) v]> (traces w)) (records w)
               orig (rng w) ∧
        o = Returns tt).
Proof.
  intros Hlv.
  assert (Hcase : traces w !! self = None ∨ ∃ t, traces w !! self = Some t)
    by (destruct (traces w !! self); eauto).
  destruct Hcase as [Ht|[t Ht]].
  - left. split; [done|]. revert Hlv. unfold traceUpdate_leave. munfold.
    rewrite Ht. by intros [= <- <-].
  - right. exists t. rewrite (traceUpdate_leave_spec _ _ _ _ _ Ht) in Hlv.
    by simplify_eq.
Qed.

Lemma traceUpdate_returns_trace self frame w w' :
  traceUpdate self frame w = (w', Returns tt) →
  ∃ t', traces w' !! self = Some t'.
Proof.
  unfold traceUpdate. intros Hupd.
  apply bind_cases in Hupd as [(w0 & orig & _ & Hupd)|(x & _ & ?)]; [|done].
  apply bind_cases in Hupd as [(w1 & t & _ & Hupd)|(x & _ & ?)]; [|done].
  apply bind_cases in Hupd as [(w2 & v & _ & Hupd)|(x & _ & ?)]; [|done].
  apply traceUpdate_leave_cases in Hupd as [(_ & _ & ?)|(t' & Ht' & -> & _)];
    [done|].
  eexists. simpl. apply lookup_insert_eq.
Qed.

Lemma keeps_traceUpdate R0 T0 nt frame w w' o :
  T0 !! nt = None →
  keeps R0 T0 nt w →
  traceUpdate nt frame w = (w', o) →
  keeps R0 T0 nt w'.
Proof.
  intros Hnt Hk Hupd. unfold traceUpdate in Hupd.
  assert (Hglobal : ∀ g, keeps R0 T0 nt (set_global g w)) by (intros g; exact Hk).
  apply bind_cases in Hupd as [(w0 & orig & Hent & Hupd)|(x & Hent & _)].
  2: { apply traceUpdate_enter_cases in Hent
         as [(_ & -> & _)|(t & _ & _ & ?)]; done. }
  apply traceUpdate_enter_cases in Hent as [(_ & _ & ?)|(t & Ht & -> & _)];
    [done|].
  assert (Hk0 : keeps R0 T0 nt
    (mkWorld (<[nt := entered t frame]> (traces w))
       (mark_inactive (_vars t) (records w)) (Some nt) (rng w))).
  { destruct Hk as (HR & HT & HV). split; [|split]; simpl.
    - intros l r Hl.
      destruct (mark_inactive_spec (_vars t) (records w) l)
        as [[[n Hn] _]|[_ ->]]; [|by apply HR].
      rewrite (HV t n l Ht Hn) in Hl. done.
    - intros t0 tr H0. rewrite lookup_insert_ne; [by apply HT|].
      intros <-. congruence.
    - intros tn n l. rewrite lookup_insert_eq. intros [= <-]. simpl.
      by apply HV. }
  apply bind_cases in Hupd as [(w1 & t1 & [-> _]%get_trace_cases & Hupd)
                              |(x & [-> _]%get_trace_cases & _)]; [|done].
  apply bind_cases in Hupd as [(w2 & v & Hc & Hupd)|(x & Hc & _)].
  2: { by apply (keeps_run R0 T0 nt Hnt) in Hc as [? _]. }
  apply (keeps_run R0 T0 nt Hnt) in Hc as [(HR & HT & HV) _]; [|done..].
  apply traceUpdate_leave_cases in Hupd as [(_ & -> & _)|(tl & Htl & -> & _)];
    [done|].
  split; [done|]. split; simpl.
  - intros t0 tr H0. rewrite lookup_insert_ne; [by apply HT|].
    intros <-. congruence.
  - intros tn n l. rewrite lookup_insert_eq. intros [= <-]. simpl.
    intros [Hn _]%map_lookup_filter_Some. by apply (HV tl n).
Qed.

Lemma copy_records_frame items : ∀ acc w w' o,
  copy_records items acc w = (w', o) →
  traces w' = traces w ∧
  (∀ l r, records w !! l = Some r → records w' !! l = Some r) ∧
  (∀ vars', o = Returns vars' → ∀ n l, vars' !! n = Some l →
            acc !! n = Some l ∨ records w !! l = None).
Proof.
  induction items as [|[n l] rest IH]; intros acc w w' o Hcp; simpl in Hcp.
  - unfold ret in Hcp. simplify_eq. split; [done|]. split; [done|].
    intros vars' [= <-]. eauto.
  - apply bind_cases in Hcp as [(w1 & r & [-> Hr]%get_record_cases & Hcp)
                               |(x & [-> _]%get_record_cases & ->)];
      [|done].
    apply bind_cases in Hcp as [(w1 & l' & Hal & Hcp)|(x & Hal & _)];
      [|done]. unfold alloc_record in Hal. simplify_eq.
    assert (Hf : records w !! fresh (dom (records w)) = None)
      by apply not_elem_of_dom, is_fresh.
    apply IH in Hcp as (HT & HR & HV). simpl in *.
    split; [done|]. split.
    + intros l0 r0 H0. apply HR. rewrite lookup_insert_ne; [done|].
      intros <-. congruence.
    + intros vars' Ho n0 l0 H0.
      destruct (HV vars' Ho n0 l0 H0) as [Hacc|Hnew].
      * rewrite lookup_insert in Hacc. case_decide; [|by left].
        simplify_eq. by right.
      * right. rewrite lookup_insert in Hnew. by case_decide.
Qed.

Lemma copy_records_spec items : ∀ acc w,
  NoDup (items.*1) →
  (∀ n l, (n, l) ∈ items → is_Some (records w !! l)) →
  ∃ w' vars',
    copy_records items acc w = (w', Returns vars') ∧
    _trace w' = _trace w ∧ rng w' = rng w ∧
    (∀ n, n ∉ items.*1 → vars' !! n = acc !! n) ∧
    (∀ n l, (n, l) ∈ items →
       ∃ l', vars' !! n = Some l' ∧ records w' !! l' = records w !! l).
Proof.
  induction items as [|[n l] rest IH]; intros acc w Hnd Hall; simpl.
  - exists w, acc. split; [done|]. split; [done|]. split; [done|].
    split; [done|]. by intros n l ?%elem_of_nil.
  - apply NoDup_cons in Hnd as [Hn Hnd].
    destruct (Hall n l) as [r Hr]; [by left|].
    erewrite bind_returns; [|unfold get_record; by rewrite Hr].
    erewrite bind_returns; [|reflexivity]. simpl.
    set (l' := fresh (dom (records w))).
    assert (Hf : records w !! l' = None) by apply not_elem_of_dom, is_fresh.
    set (w1 := set_records (<[l' := r]> (records w)) w).
    assert (Hother : ∀ l0, is_Some (records w !! l0) →
              records w1 !! l0 = records w !! l0).
    { intros l0 [r0 H0]. simpl. rewrite lookup_insert_ne; [done|].
      intros <-. congruence. }
    destruct (IH (<[n := l']> acc) w1 Hnd) as (w' & vars' & Hcp & Hg & Hrng
      & Hout & Hin).
    { intros n0 l0 H0. rewrite Hother; apply (Hall n0); by right. }
    exists w', vars'. split; [done|]. split; [done|]. split; [done|].
    destruct (copy_records_frame _ _ _ _ _ Hcp) as (_ & HR & _).
    split.
    + intros n0 [Hne Hn0]%not_elem_of_cons. rewrite (Hout n0 Hn0).
      by rewrite lookup_insert_ne.
    + intros n0 l0 [[= -> ->]|H0]%elem_of_cons.
      * exists l'. rewrite (Hout n Hn), lookup_insert_eq. split; [done|].
        rewrite Hr. apply HR. simpl. apply lookup_insert_eq.
      * destruct (Hin n0 l0 H0) as (l0' & Hv & Hrec). exists l0'.
        split; [done|]. rewrite Hrec. apply Hother, (Hall n0). by right.
Qed.

Lemma bind_update_fields_inv {A} R0 T0 nt f (k : unit → M A) w w' o
    (Q : World → outcome A → Prop) :
  T0 !! nt = None →
  keeps R0 T0 nt w →
  (∀ tn, _vars (f tn) = _vars tn) →
  (∀ w1 x, keeps R0 T0 nt w1 → Q w1 (Raises x)) →
  (∀ w1, keeps R0 T0 nt w1 → k tt w1 = (w', o) → Q w' o) →
  bind (update_trace nt f) k w = (w', o) →
  Q w' o.
Proof.
  intros Hnt Hk Hf HQr HQ [(w1 & [] & Hm & Hc)|(x & Hm & ->)]%bind_cases.
  - apply (HQ w1); [|done]. by refine (keeps_update_fields _ _ _ Hnt _ _ _ _ Hk _ Hm).
  - apply HQr. by refine (keeps_update_fields _ _ _ Hnt _ _ _ _ Hk _ Hm).
Qed.

Lemma deepcopy_frame self w w' o :
  let nt := fresh (dom (traces w)) in
  deepcopy self w = (w', o) →
  keeps (records w) (traces w) nt w' ∧ (∀ n', o = Returns n' → n' = nt).
Proof.
  intros nt Hdc.
  assert (Hnt : traces w !! nt = None) by apply not_elem_of_dom, is_fresh.
  assert (Hk : keeps (records w) (traces w) nt w).
  { split; [done|]. split; [done|]. intros tn n l. by rewrite Hnt. }
  unfold deepcopy in Hdc.
  apply bind_cases in Hdc as [(w1 & t & [-> _]%get_trace_cases & Hdc)
                             |(x & [-> _]%get_trace_cases & ->)]; [|done].
  apply bind_cases in Hdc as [(w1 & nt' & Hal & Hdc)|(x & Hal & _)]; [|done].
  unfold alloc_trace in Hal. fold nt in Hal.
  injection Hal as <- <-.
  assert (Hk1 : keeps (records w) (traces w) nt
            (set_traces (<[nt := fresh_trace (computation t)]> (traces w)) w)).
  { split; [done|]. split; simpl.
    - intros t0 tr H0. rewrite lookup_insert_ne; [done|]. intros <-. congruence.
    - intros tn n l. rewrite lookup_insert_eq. intros [= <-]. done. }
  set (Q := λ (w' : World) (o : outcome loc),
    keeps (records w) (traces w) nt w' ∧ (∀ n', o = Returns n' → n' = nt)).
  assert (HQr : ∀ w1 x, keeps (records w) (traces w) nt w1 → Q w1 (Raises x))
    by (by split).
  change (Q w' o). revert Hdc.
  apply (bind_update_fields_inv (records w) (traces w) nt _ _ _ _ _ Q); [done..|].
  clear Hk1. intros w1 Hk1.
  apply (bind_update_fields_inv (records w) (traces w) nt _ _ _ _ _ Q); [done..|].
  clear Hk1. intros w2 Hk1.
  apply (bind_update_fields_inv (records w) (traces w) nt _ _ _ _ _ Q); [done..|].
  clear Hk1. intros w3 Hk1.
  intros [(w4 & vars' & Hcp & Hdc)|(x & Hcp & ->)]%bind_cases.
  2: { split; [|done]. apply copy_records_frame in Hcp as (HT & HR & _).
       destruct Hk1 as (HR1 & HT1 & HV1). split; [by eauto|].
       rewrite HT. split; [done|]. intros tn n l ??. by eapply HV1. }
  apply copy_records_frame in Hcp as (HT & HR & HV).
  specialize (HV vars' eq_refl).
  assert (Hk4 : keeps (records w) (traces w) nt w4).
  { destruct Hk1 as (HR1 & HT1 & HV1). split; [by eauto|].
    rewrite HT. split; [done|]. intros tn n l ??. by eapply HV1. }
  apply bind_cases in Hdc as [(w5 & [] & Hm & Hdc)|(x & Hm & ->)].
  2: { split; [|done]. refine (keeps_update_trace _ _ _ Hnt _ _ _ _ Hk4 _ Hm).
       intros tn n l _ Hn. simpl in Hn.
       destruct (HV n l Hn) as [?|Hnew]; [done|]. by apply (keeps_fresh (records w) (traces w) nt w3). }
  assert (Hk5 : keeps (records w) (traces w) nt w5).
  { refine (keeps_update_trace _ _ _ Hnt _ _ _ _ Hk4 _ Hm).
    intros tn n l _ Hn. simpl in Hn.
    destruct (HV n l Hn) as [?|Hnew]; [done|]. by apply (keeps_fresh (records w) (traces w) nt w3). }
  revert Hdc.
  apply (bind_update_fields_inv (records w) (traces w) nt _ _ _ _ _ Q); [done..|]. intros w6 Hk6.
  apply (bind_update_fields_inv (records w) (traces w) nt _ _ _ _ _ Q); [done..|]. intros w7 Hk7.
  unfold ret. intros [= <- <-]. split; [done|]. by intros n' [= <-].
Qed.

Lemma proposeChange_mutate_frame self varname w w' o :
  let nt := fresh (dom (traces w)) in
  proposeChange_mutate self varname w = (w', o) →
  keeps (records w) (traces w) nt w' ∧
  (∀ n' f r, o = Returns (n', f, r) → n' = nt).
Proof.
  intros nt Hmu. unfold proposeChange_mutate in Hmu.
  assert (Hnt : traces w !! nt = None) by apply not_elem_of_dom, is_fresh.
  apply bind_cases in Hmu as [(w1 & nt' & Hdc & Hmu)|(x & Hdc & ->)].
  2: { apply deepcopy_frame in Hdc as [? _]. by split. }
  apply deepcopy_frame in Hdc as [Hk1 Hnt']. fold nt in Hk1, Hnt'.
  rewrite (Hnt' nt' eq_refl) in Hmu. clear Hnt' nt'.
  unfold getRecord in Hmu.
  apply bind_cases in Hmu as [(w2 & var & Hget & Hmu)|(x & Hget & ->)].
  2: { apply bind_cases in Hget as [(w2 & tn & [-> _]%get_trace_cases & Hret)
                                   |(x' & [-> _]%get_trace_cases & _)];
         [|by split].
       unfold ret in Hret. by simplify_eq. }
  apply bind_cases in Hget as [(w3 & tn & [-> Htn]%get_trace_cases & Hret)
                              |(x' & _ & ?)]; [|done].
  specialize (Htn tn eq_refl). unfold ret in Hret. injection Hret as <- <-.
  destruct (_vars tn !! varname) as [l|] eqn:Hl.
  2: { unfold raise in Hmu. simplify_eq. by split. }
  assert (Hl0 : records w !! l = None).
  { destruct Hk1 as (_ & _ & HV). by apply (HV tn varname). }
  apply bind_cases in Hmu as [(w2 & r & [-> _]%get_record_cases & Hmu)
                             |(x & [-> _]%get_record_cases & ->)];
    [|by split].
  apply bind_cases in Hmu as [(w2 & propval & Hp & Hmu)|(x & Hp & _)];
    [|done].
  unfold propose in Hp. injection Hp as <- <-.
  assert (Hk2 : keeps (records w) (traces w) nt (set_rng (N.succ (rng w1)) w1))
    by exact Hk1.
  apply bind_cases in Hmu as [(w3 & [] & Hu1 & Hmu)|(x & Hu1 & ->)].
  2: { split; [|done]. by apply (keeps_update_record _ _ _ _ _ _ _ _ Hk2 Hl0 Hu1). }
  pose proof (keeps_update_record _ _ _ _ _ _ _ _ Hk2 Hl0 Hu1) as Hk3.
  apply bind_cases in Hmu as [(w4 & [] & Hu2 & Hmu)|(x & Hu2 & ->)].
  2: { split; [|done]. by apply (keeps_update_record _ _ _ _ _ _ _ _ Hk3 Hl0 Hu2). }
  pose proof (keeps_update_record _ _ _ _ _ _ _ _ Hk3 Hl0 Hu2) as Hk4.
  unfold ret in Hmu. injection Hmu as <- <-. split; [done|].
  by intros n' f r0 [= <- _ _].
Qed.

(** C7.  [proposeChange] leaves every trace and every record that existed
    before the call as it was, whatever the outcome: the original trace's
    dictionary, its records' values, parameters and log-densities, and its
    [logprob], [newlogprob], [oldlogprob], [conditionsSatisfied] and
    [returnValue].  The trace it returns is a new object whose dictionary
    names new records only. *)
Theorem proposal_leaves_original self varname frame w w' o :
  proposeChange self varname frame w = (w', o) →
  (∀ t tr, traces w !! t = Some tr → traces w' !! t = Some tr) ∧
  (∀ l r, records w !! l = Some r → records w' !! l = Some r) ∧
  (∀ nt fwd rvs, o = Returns (nt, fwd, rvs) →
     traces w !! nt = None ∧
     ∀ tn n l, traces w' !! nt = Some tn → _vars tn !! n = Some l →
               records w !! l = None).
Proof.
  intros Hpc. unfold proposeChange in Hpc.
  set (nt := fresh (dom (traces w))).
  assert (Hnt : traces w !! nt = None) by apply not_elem_of_dom, is_fresh.
  assert (Hdone : ∀ w1 x, keeps (records w) (traces w) nt w1 →
    (∀ t tr, traces w !! t = Some tr → traces w1 !! t = Some tr) ∧
    (∀ l r, records w !! l = Some r → records w1 !! l = Some r) ∧
    (∀ (nt : loc) (fwd rvs : float),
       @Raises (loc * float * float) x = Returns (nt, fwd, rvs) →
       traces w !! nt = None ∧
       ∀ tn n l, traces w1 !! nt = Some tn → _vars tn !! n = Some l →
                 records w !! l = None)).
  { intros w1 x (HR & HT & _). split; [done|]. split; [done|]. done. }
  apply bind_cases in Hpc as [(w1 & [[nt' fwd] rvs] & Hmu & Hpc)|(x & Hmu & ->)].
  2: { apply proposeChange_mutate_frame in Hmu as [Hk _]. by apply Hdone. }
  apply proposeChange_mutate_frame in Hmu as [Hk Hnt'].
  fold nt in Hk, Hnt'. rewrite (Hnt' nt' fwd rvs eq_refl) in Hpc.
  apply bind_cases in Hpc as [(w2 & [] & Hupd & Hpc)|(x & Hupd & ->)].
  2: { apply Hdone. by apply (keeps_traceUpdate _ _ _ _ _ _ _ Hnt Hk Hupd). }
  pose proof (keeps_traceUpdate _ _ _ _ _ _ _ Hnt Hk Hupd) as Hk2.
  apply bind_cases in Hpc as [(w3 & t2 & [-> _]%get_trace_cases & Hret)
                             |(x & [-> _]%get_trace_cases & ->)];
    [|by apply Hdone].
  unfold ret in Hret. injection Hret as <- <-.
  destruct Hk2 as (HR & HT & HV). split; [done|]. split; [done|].
  intros nt0 fwd0 rvs0 [= <- _ _]. split; [done|]. exact HV.
Qed.

(** ** Proposals *)

Lemma update_trace_returns t f w tr :
  traces w !! t = Some tr →
  update_trace t f w = (set_traces (<[t := f tr]> (traces w)) w, Returns tt).
Proof.
  intros Ht. unfold update_trace.
  erewrite bind_returns; [done|]. unfold get_trace. by rewrite Ht.
Qed.

Lemma update_record_returns l f w r :
  records w !! l = Some r →
  update_record l f w = (set_records (<[l := f r]> (records w)) w, Returns tt).
Proof.
  intros Hl. unfold update_record.
  erewrite bind_returns; [done|]. unfold get_record. by rewrite Hl.
Qed.

Lemma deepcopy_spec self w t :
  traces w !! self = Some t →
  (∀ n l, _vars t !! n = Some l → is_Some (records w !! l)) →
  ∃ w1 tn,
    deepcopy self w = (w1, Returns (fresh (dom (traces w)))) ∧
    traces w1 !! fresh (dom (traces w)) = Some tn ∧
    rng w1 = rng w ∧
    _trace w1 = _trace w ∧
    computation tn = computation t ∧
    (∀ n l, _vars t !! n = Some l →
       ∃ l', _vars tn !! n = Some l' ∧ records w1 !! l' = records w !! l).
Proof.
  intros Ht Hall. set (nt := fresh (dom (traces w))).
  unfold deepcopy.
  erewrite bind_returns; [|unfold get_trace; by rewrite Ht].
  erewrite bind_returns; [|reflexivity]. fold nt.
  erewrite bind_returns;
    [|apply update_trace_returns; simpl; apply lookup_insert_eq].
  erewrite bind_returns;
    [|apply update_trace_returns; simpl; apply lookup_insert_eq].
  erewrite bind_returns;
    [|apply update_trace_returns; simpl; apply lookup_insert_eq].
  match goal with |- context [bind (copy_records _ _) _ ?w0] =>
    set (wc := w0) end.
  destruct (copy_records_spec (map_to_list (_vars t)) ∅ wc)
    as (wd & vars' & Hcp & Hg & Hrng & _ & Hin).
  { apply NoDup_fst_map_to_list. }
  { intros n l Hnl%elem_of_map_to_list. by apply (Hall n). }
  destruct (copy_records_frame _ _ _ _ _ Hcp) as (HT & _ & _).
  erewrite bind_returns by exact Hcp.
  erewrite bind_returns;
    [|apply update_trace_returns; rewrite HT; simpl; apply lookup_insert_eq].
  erewrite bind_returns;
    [|apply update_trace_returns; simpl; apply lookup_insert_eq].
  erewrite bind_returns;
    [|apply update_trace_returns; simpl; apply lookup_insert_eq].
  eexists _, _. split; [reflexivity|]. simpl.
  split; [apply lookup_insert_eq|]. split; [done|]. split; [done|].
  split; [done|]. simpl.
  intros n l Hnl. apply Hin. by apply elem_of_map_to_list.
Qed.

(** C3.  For a trace whose dictionary binds [varname], [proposeChange]
    copies the trace, draws the proposed value from the proposal kernel at
    the record's value and parameters, sets the copy's record to that value
    and to its prior log-density, and, once the re-execution of the copy has
    completed, returns the copy with the forward proposal log-density plus
    the copy's [newlogprob] and the reverse proposal log-density plus the
    copy's [oldlogprob]. *)
Theorem proposal_bookkeeping self varname frame w t l r :
  traces w !! self = Some t →
  (∀ n l, _vars t !! n = Some l → is_Some (records w !! l)) →
  _vars t !! varname = Some l →
  records w !! l = Some r →
  let propval := _proposal (erps (erp r)) (val r) (params r) (rng w) in
  let fwd := _logProposalProb (erps (erp r)) (val r) propval (params r) in
  let rvs := _logProposalProb (erps (erp r)) propval (val r) (params r) in
  ∃ w1 nt tn l',
    proposeChange_mutate self varname w = (w1, Returns (nt, fwd, rvs)) ∧
    traces w1 !! nt = Some tn ∧
    _vars tn !! varname = Some l' ∧
    records w1 !! l'
    = Some (set_logprob (_logprob (erps (erp r)) propval (params r))
              (set_val propval r)) ∧
    ∀ w2, traceUpdate nt frame w1 = (w2, Returns tt) →
      ∃ t2, traces w2 !! nt = Some t2 ∧
            proposeChange self varname frame w
            = (w2, Returns (nt, (fwd + newlogprob t2)%float,
                            (rvs + oldlogprob t2)%float)).
Proof.
  intros Ht Hall Hl Hr propval fwd rvs.
  destruct (deepcopy_spec self w t Ht Hall)
    as (wc & tn & Hdc & Htn & Hrng & _ & _ & Hcopy).
  destruct (Hcopy varname l Hl) as (l' & Hl' & Hr').
  rewrite Hr in Hr'.
  set (nt := fresh (dom (traces w))) in *.
  set (r1 := set_val propval r).
  set (r2 := set_logprob (_logprob (erps (erp r)) propval (params r)) r1).
  set (w1 := set_records (<[l' := r2]> (<[l' := r1]> (records wc)))
               (set_rng (N.succ (rng wc)) wc)).
  assert (Hmu : proposeChange_mutate self varname w
                = (w1, Returns (nt, fwd, rvs))).
  { unfold proposeChange_mutate.
    erewrite bind_returns by exact Hdc.
    erewrite bind_returns.
    2: { unfold getRecord. erewrite bind_returns; [reflexivity|].
         unfold get_trace. by rewrite Htn. }
    rewrite Hl'.
    erewrite bind_returns; [|unfold get_record; by rewrite Hr'].
    erewrite bind_returns; [|reflexivity].
    erewrite bind_returns; [|by apply update_record_returns].
    erewrite bind_returns;
      [|apply update_record_returns; simpl; apply lookup_insert_eq].
    unfold ret, w1, r2, r1, fwd, rvs, propval. simpl. by rewrite Hrng. }
  exists w1, nt, tn, l'. split; [done|]. split; [done|]. split; [done|].
  split; [apply lookup_insert_eq|].
  intros w2 Hupd.
  destruct (traceUpdate_returns_trace _ _ _ _ Hupd) as (t2 & Ht2).
  exists t2. split; [done|]. unfold proposeChange.
  erewrite bind_returns by exact Hmu. simpl.
  erewrite bind_returns by exact Hupd.
  erewrite bind_returns; [done|]. unfold get_trace. by rewrite Ht2.
Qed.

(** ** Checking and the slot *)

Lemma NoDup_fmap_eq {A B} (f : A → B) (l : list A) x y :
  NoDup (f <$> l) → x ∈ l → y ∈ l → f x = f y → x = y.
Proof.
  induction l as [|a l IH]; simpl; [by intros _ ?%elem_of_nil|].
  intros [Ha Hnd]%NoDup_cons [->|Hx]%elem_of_cons [->|Hy]%elem_of_cons Hf;
    try done.
  - destruct Ha. rewrite Hf. by apply list_elem_of_fmap_2.
  - destruct Ha. rewrite <- Hf. by apply list_elem_of_fmap_2.
  - by apply IH.
Qed.

Lemma wf_check_sound w t : wf_check w t = true → wf_trace w t.
Proof.
  unfold wf_check. intros [Hall Hnd]%andb_true_iff.
  apply bool_decide_eq_true in Hnd. rewrite forallb_forall in Hall. split.
  - intros n l Hn. apply elem_of_map_to_list, list_elem_of_In, Hall in Hn.
    by apply bool_decide_eq_true in Hn.
  - intros n1 n2 l H1%elem_of_map_to_list H2%elem_of_map_to_list.
    by pose proof (NoDup_fmap_eq snd _ _ _ Hnd H1 H2 eq_refl) as [= ->].
Qed.

Lemma pair_eq_2 {A B} (p : A * B) (b : B) : p.2 = b → p = (p.1, b).
Proof. destruct p. simpl. by intros ->. Qed.

(** The slot around [traceUpdate]: a call that completes puts back what it
    found; a call whose computation raises leaves the trace in it. *)
Lemma traceUpdate_restores_slot self frame w t w' :
  traces w !! self = Some t →
  wf_trace w t →
  traceUpdate self frame w = (w', Returns tt) →
  _trace w' = _trace w.
Proof.
  intros Ht Hwf Hupd.
  by destruct (traceUpdate_spec self frame w t w' Ht Hwf Hupd)
    as (t' & _ & _ & _ & _ & _ & _ & _ & Hg & _).
Qed.

Lemma traceUpdate_error_slot self frame w t w' x :
  traces w !! self = Some t →
  traceUpdate self frame w = (w', Raises x) →
  _trace w' = Some self.
Proof.
  intros Ht Hupd. unfold traceUpdate in Hupd.
  erewrite bind_returns in Hupd by (by apply traceUpdate_enter_spec).
  erewrite bind_returns in Hupd;
    [|unfold get_trace; simpl; by rewrite lookup_insert_eq].
  apply bind_cases in Hupd as [(w1 & v & Hc & Hlv)|(x' & Hc & _)].
  - apply (keeps_run ∅ ∅ self) in Hc as [_ Hg]; [|done| |done].
    + apply traceUpdate_leave_cases in Hlv
        as [(_ & -> & _)|(t1 & _ & _ & ?)]; done.
    + split; [|split]; intros *; by rewrite ?lookup_empty.
  - apply (keeps_run ∅ ∅ self) in Hc as [_ Hg]; [done|done| |done].
    split; [|split]; intros *; by rewrite ?lookup_empty.
Qed.

(** [wf_trace] is an invariant: a new trace has it, and [traceUpdate]
    keeps it. *)
Lemma wf_trace_fresh w c : wf_trace w (fresh_trace c).
Proof. split; intros *; simpl; by rewrite lookup_empty. Qed.

Lemma traceUpdate_wf self frame w t w' :
  traces w !! self = Some t →
  wf_trace w t →
  traceUpdate self frame w = (w', Returns tt) →
  ∃ t', traces w' !! self = Some t' ∧ wf_trace w' t'.
Proof.
  intros Ht Hwf Hupd.
  destruct (traceUpdate_spec self frame w t w' Ht Hwf Hupd)
    as (t' & Ht' & Hwf' & _).
  eauto.
Qed.

(** * Further properties of the module *)

(** ** [lookup] *)

Lemma looked_up_found found e ps s cv seed seed' :
  (truthy cv = true → py_eq cv cv = true) →
  let r1 := looked_up found e ps s cv seed in
  must_create (Some r1) e s cv = false ∧
  looked_up (Some r1) e ps s cv seed' = r1.
Proof.
  intros Hcv r1.
  assert (Hmk : must_create (Some r1) e s cv = false).
  { apply looked_up_agrees. destruct (truthy cv); [|done]. by apply Hcv. }
  split; [done|].
  rewrite (looked_up_reuse _ _ _ _ _ _ Hmk). apply reused_looked_up.
Qed.

(** X1.  After a lookup the address is bound to a record that holds the
    value returned; when the [conditionedValue], if truthy, is equal to
    itself (any value but a [nan]), the same lookup made again returns that
    value, creates no record, leaves the record as it is, draws nothing and
    adds nothing to [newlogprob]. *)
Theorem lookup_again self name e ps s cv w t :
  traces w !! self = Some t →
  wf_trace w t →
  (truthy cv = true → py_eq cv cv = true) →
  ∃ w1 t1 v,
    trace_lookup self name e ps s cv w = (w1, Returns v) ∧
    traces w1 !! self = Some t1 ∧
    val <$> view w1 t1 !! name = Some v ∧
    ∃ w2 t2,
      trace_lookup self name e ps s cv w1 = (w2, Returns v) ∧
      traces w2 !! self = Some t2 ∧
      _vars t2 = _vars t1 ∧
      view w2 t2 = view w1 t1 ∧
      newlogprob t2 = newlogprob t1 ∧
      rng w2 = rng w1.
Proof.
  intros Ht Hwf Hcv. pose proof Hwf as [Hall Hinj].
  destruct (trace_lookup_spec self name e ps s cv w t Ht (Hall name))
    as (l & Hlk & Hl).
  set (r1 := looked_up (view w t !! name) e ps s cv (rng w)) in *.
  set (mk := must_create (view w t !! name) e s cv) in *.
  set (w1 := world_after_lookup w self t name l r1 mk (mk && negb (truthy cv)))
    in *.
  set (t1 := trace_after_lookup t name l r1 mk).
  assert (Hl' : records w !! l = None ∨ _vars t !! name = Some l)
    by (destruct mk; eauto).
  assert (Ht1 : traces w1 !! self = Some t1) by apply lookup_insert_eq.
  assert (Hview1 : view w1 t1 = <[name := r1]> (view w t))
    by (by apply view_insert).
  assert (Hwf1 : wf_trace w1 t1) by (by apply wf_insert).
  exists w1, t1, (val r1). split; [done|]. split; [done|].
  split; [by rewrite Hview1, lookup_insert_eq|].
  destruct (trace_lookup_spec self name e ps s cv w1 t1 Ht1 (proj1 Hwf1 name))
    as (l2 & Hlk2 & Hl2).
  rewrite Hview1, lookup_insert_eq in Hlk2, Hl2.
  destruct (looked_up_found (view w t !! name) e ps s cv (rng w) (rng w1) Hcv)
    as [Hmk Hfound].
  fold r1 in Hmk, Hfound. rewrite Hmk, Hfound in Hlk2. rewrite Hmk in Hl2.
  eexists _, _. split; [exact Hlk2|].
  split; [apply lookup_insert_eq|]. simpl.
  assert (Hvars : <[name := l2]> (<[name := l]> (_vars t)) = <[name := l]> (_vars t)).
  { apply insert_id. exact Hl2. }
  split; [exact Hvars|]. split; [|split; done].
  unfold view at 1. simpl.
  pose proof (view_insert (records w1) (_vars t1) name l2 r1
    (proj1 Hwf1) (proj2 Hwf1) (or_intror Hl2)) as Hv.
  simpl in Hv. rewrite Hv. fold (view w1 t1).
  apply insert_id. by rewrite Hview1, lookup_insert_eq.
Qed.

(** X2.  A lookup touches its own address only: every other address of the
    trace keeps its record, every other trace is as it was, and so is the
    slot. *)
Theorem lookup_elsewhere self name e ps s cv w t w' o :
  traces w !! self = Some t →
  wf_trace w t →
  trace_lookup self name e ps s cv w = (w', o) →
  ∃ t', traces w' !! self = Some t' ∧
        (∀ n, n ≠ name → view w' t' !! n = view w t !! n) ∧
        (∀ t2, t2 ≠ self → traces w' !! t2 = traces w !! t2) ∧
        _trace w' = _trace w ∧
        oldlogprob t' = oldlogprob t ∧
        conditionsSatisfied t' = conditionsSatisfied t ∧
        returnValue t' = returnValue t.
Proof.
  intros Ht [Hall Hinj] Hlk.
  destruct (trace_lookup_spec self name e ps s cv w t Ht (Hall name))
    as (l & Hspec & Hl).
  rewrite Hspec in Hlk. injection Hlk as <- <-.
  eexists. split; [apply lookup_insert_eq|]. simpl.
  split; [|split; [|done]].
  - intros n Hn. unfold view. simpl.
    rewrite view_insert; [by rewrite lookup_insert_ne|done|done|].
    destruct (must_create _ _ _ _); eauto.
  - intros t2 Hne. by rewrite lookup_insert_ne.
Qed.

(** X3.  A truthy [conditionedValue] is honoured by [lookup]: the call
    returns either the supplied value itself, stored in a record it
    creates, or the value of the record it reuses, which then is equal
    ([==]) to the supplied one.  So the value returned is equal to the
    supplied one whenever that one is equal to itself, which every value
    but a [nan] is. *)
Theorem lookup_returns_condition self name e ps s cv w t :
  traces w !! self = Some t →
  wf_trace w t →
  truthy cv = true →
  ∃ w' v, trace_lookup self name e ps s cv w = (w', Returns v) ∧
          (v = cv ∨ py_eq cv v = true) ∧
          (py_eq cv cv = true → py_eq cv v = true).
Proof.
  intros Ht [Hall Hinj] Hcv.
  destruct (trace_lookup_spec self name e ps s cv w t Ht (Hall name))
    as (l & Hspec & Hl).
  eexists _, _. split; [exact Hspec|].
  assert (Hv : val (looked_up (view w t !! name) e ps s cv (rng w)) = cv ∨
               py_eq cv (val (looked_up (view w t !! name) e ps s cv (rng w)))
               = true).
  { unfold looked_up, created, reused.
    destruct (view w t !! name) as [r|]; simpl; rewrite ?Hcv; [|by left].
    destruct (must_create (Some r) e s cv) eqn:Hmk; simpl; rewrite ?Hcv;
      [by left|].
    right. unfold must_create in Hmk. rewrite Hcv in Hmk.
    apply orb_false_iff in Hmk as [_ Hne]. simpl in Hne.
    unfold py_ne in Hne. apply negb_false_iff in Hne.
    by destruct (py_ne_list (params r) ps). }
  split; [done|]. intros Hself. destruct Hv as [->|Hv]; done.
Qed.
(** ** [freeVarNames] *)

Lemma NoDup_fst_filter {A B} (p : A * B → bool) (l : list (A * B)) :
  NoDup (l.*1) → NoDup ((List.filter p l).*1).
Proof.
  induction l as [|x l IH]; simpl; [done|].
  intros [Hx Hnd]%NoDup_cons. destruct (p x); simpl; [|by apply IH].
  apply NoDup_cons. split; [|by apply IH].
  intros Hin. apply Hx.
  apply list_elem_of_fmap in Hin as (y & -> & Hy).
  apply list_elem_of_In, filter_In in Hy as [Hy _].
  apply list_elem_of_fmap. exists y. split; [done|]. by apply list_elem_of_In.
Qed.

(** X4.  [freeVarNames] returns, each once, the addresses bound to a record
    that is not conditioned and is of a requested kind; it changes nothing. *)
Theorem freeVarNames_spec self wantS wantN w t :
  traces w !! self = Some t →
  ∃ names,
    freeVarNames self wantS wantN w = (w, Returns names) ∧
    NoDup names ∧
    ∀ n, n ∈ names ↔
         ∃ r, view w t !! n = Some r ∧
              conditioned r = false ∧
              ((wantS = true ∧ structural r = true) ∨
               (wantN = true ∧ structural r = false)).
Proof.
  intros Ht. eexists. split; [|split].
  - unfold freeVarNames.
    erewrite bind_returns; [|unfold get_trace; by rewrite Ht].
    erewrite bind_returns; [|reflexivity]. reflexivity.
  - apply NoDup_fst_filter, NoDup_fst_map_to_list.
  - intros n. rewrite list_elem_of_fmap. split.
    + intros ([n' l] & -> & Hin). simpl.
      apply list_elem_of_In, filter_In in Hin as [Hin Hp].
      apply list_elem_of_In, elem_of_map_to_list in Hin. simpl in Hp.
      destruct (records w !! l) as [r|] eqn:Hr; [|done].
      exists r. split; [by rewrite lookup_view, Hin|].
      apply andb_true_iff in Hp as [Hc Hk]. apply negb_true_iff in Hc.
      split; [done|].
      apply orb_true_iff in Hk as [Hk|Hk]; apply andb_true_iff in Hk as [? Hs];
        [left|right; apply negb_true_iff in Hs]; done.
    + intros (r & Hv & Hc & Hk). rewrite lookup_view in Hv.
      destruct (_vars t !! n) as [l|] eqn:Hn; [simpl in Hv|done].
      exists (n, l). split; [done|].
      apply list_elem_of_In, filter_In. split.
      * by apply list_elem_of_In, elem_of_map_to_list.
      * simpl. rewrite Hv, Hc. simpl.
        destruct Hk as [[-> ->]|[-> ->]]; simpl; [done|].
        by rewrite orb_true_r.
Qed.

(** ** Calls made while no trace is active *)

(** X5.  A computation run while no trace is active reads and writes no
    trace and no record, and leaves the slot empty: only the random source
    moves, and never backwards. *)
Theorem run_outside c : ∀ w w' o,
  _trace w = None →
  run c w = (w', o) →
  traces w' = traces w ∧ records w' = records w ∧ _trace w' = None ∧
  (rng w ≤ rng w')%N.
Proof.
  induction c as [v0|x|stack e ps s n cv k IH|stack n k IH|x k IH|b k IH];
    intros w w' o Hg Hc; simpl in Hc.
  - unfold ret in Hc. by simplify_eq.
  - unfold raise in Hc. by simplify_eq.
  - apply bind_cases in Hc as [(w1 & v & Hm & Hc)|(x & Hm & ->)];
      unfold lookupVariableValue in Hm;
      (erewrite bind_returns in Hm; [|reflexivity]); rewrite Hg in Hm.
    + assert (Hw1 : traces w1 = traces w ∧ records w1 = records w ∧
                    _trace w1 = None ∧ (rng w ≤ rng w1)%N).
      { destruct (truthy cv); unfold ret, sample in Hm; simplify_eq; simpl;
          repeat split; try done; lia. }
      destruct Hw1 as (HT & HR & Hg1 & Hrng).
      destruct (IH v w1 w' o Hg1 Hc) as (HT' & HR' & Hg' & Hrng').
      repeat split; [congruence|congruence|done|lia].
    + destruct (truthy cv); unfold ret, sample in Hm; by simplify_eq.
  - apply bind_cases in Hc as [(w1 & v & Hm & Hc)|(x & Hm & ->)];
      unfold incrementLoopCounter in Hm;
      (erewrite bind_returns in Hm; [|reflexivity]); rewrite Hg in Hm;
      unfold ret in Hm; simplify_eq. by apply (IH _ w' o).
  - apply bind_cases in Hc as [(w1 & v & Hm & Hc)|(x' & Hm & ->)];
      unfold factor in Hm;
      (erewrite bind_returns in Hm; [|reflexivity]); rewrite Hg in Hm;
      unfold ret in Hm; simplify_eq. by apply (IH _ w' o).
  - apply bind_cases in Hc as [(w1 & v & Hm & Hc)|(x' & Hm & ->)];
      unfold condition in Hm;
      (erewrite bind_returns in Hm; [|reflexivity]); rewrite Hg in Hm;
      unfold ret in Hm; simplify_eq. by apply (IH _ w' o).
Qed.

(** ** Frame skipping *)

(** X6.  Asked to skip more frames than the stack holds,
    [lookupVariableValue] and [incrementLoopCounter] raise [AttributeError]
    and change nothing: no record is created and no counter moves. *)
Theorem skip_past_stack self stack e ps s n cv w t :
  _trace w = Some self →
  traces w !! self = Some t →
  length stack < n + 1 →
  lookupVariableValue stack e ps s n cv w = (w, Raises AttributeError) ∧
  incrementLoopCounter stack n w = (w, Raises AttributeError).
Proof.
  intros Hg Ht Hlen.
  assert (Hnone : f_back (n + 1) stack = None).
  { revert Hlen. generalize (n + 1). clear.
    induction stack as [|f stack IH]; intros [|m] Hlen; simpl in *;
      try done; try lia.
    apply IH. lia. }
  split.
  - rewrite (lookupVariableValue_active self) by done.
    erewrite bind_raises; [done|].
    by rewrite (currentName_eq _ _ _ _ _ Ht), Hnone.
  - rewrite (incrementLoopCounter_active self) by done.
    unfold trace_incrementLoopCounter. by rewrite Hnone.
Qed.

(** ** [traceUpdate]: conditions, outcome, first run *)

Lemma run_conditions self c : ∀ w t w' v,
  running self w t →
  run c w = (w', Returns v) →
  ∃ t', running self w' t' ∧
        conditionsSatisfied t'
        = conditionsSatisfied t && forallb id (conditions c w).
Proof.
  induction c as [v0|x|stack e ps s n cv k IH|stack n k IH|x k IH|b k IH];
    intros w t w' v Hrun Hc; simpl in *.
  - unfold ret in Hc. simplify_eq. exists t. by rewrite andb_true_r.
  - unfold raise in Hc. simplify_eq.
  - unfold bind in Hc.
    destruct (lookupVariableValue stack e ps s n cv w) as [w1 o] eqn:Hlk.
    destruct (lookupVariableValue_running _ _ _ _ _ _ _ _ _ _ _ Hrun Hlk)
      as [(x & -> & _)|(fs & t1 & _ & _ & Hrun1 & -> & _ & _ & _ & _ & Hcs & _)];
      [done|].
    destruct (IH _ _ _ _ _ Hrun1 Hc) as (t' & Hrun' & Hcs').
    exists t'. split; [done|]. by rewrite Hcs', Hcs.
  - unfold bind in Hc.
    pose proof Hrun as (Ht & Hg & Hwf).
    rewrite (incrementLoopCounter_active self) in * by done.
    unfold trace_incrementLoopCounter in *.
    destruct (f_back (n + 1) stack) as [fs|]; [|unfold raise in Hc; simplify_eq].
    match type of Hc with context [update_trace self ?f w] =>
      destruct (update_trace_running self f w t Hrun) as (Hu & Hrun1 & _);
        [done|] end.
    rewrite Hu in *.
    destruct (IH _ _ _ _ Hrun1 Hc) as (t' & Hrun' & Hcs'). by exists t'.
  - unfold bind in Hc.
    pose proof Hrun as (Ht & Hg & Hwf).
    rewrite (factor_active self) in * by done. unfold addFactor in *.
    match type of Hc with context [update_trace self ?f w] =>
      destruct (update_trace_running self f w t Hrun) as (Hu & Hrun1 & _);
        [done|] end.
    rewrite Hu in *.
    destruct (IH _ _ _ _ Hrun1 Hc) as (t' & Hrun' & Hcs'). by exists t'.
  - unfold bind in Hc.
    pose proof Hrun as (Ht & Hg & Hwf).
    rewrite (condition_active self) in * by done. unfold conditionOn in *.
    unfold condition_event. rewrite Hg.
    match type of Hc with context [update_trace self ?f w] =>
      destruct (update_trace_running self f w t Hrun) as (Hu & Hrun1 & _);
        [done|] end.
    rewrite Hu in *.
    destruct (IH _ _ _ _ Hrun1 Hc) as (t' & Hrun' & Hcs').
    exists t'. split; [done|]. rewrite Hcs'. simpl.
    by rewrite andb_assoc.
Qed.

Lemma entered_world_eq self frame w w0 (o : outcome (option loc)) :
  traceUpdate_enter self frame w = (w0, o) → entered_world self frame w = w0.
Proof. unfold entered_world. by intros ->. Qed.

(** X7.  After a completed [traceUpdate], [conditionsSatisfied] is the
    conjunction of the values the computation passed to [condition] during
    the run: true when it passed none, false as soon as one was false. *)
Theorem conditions_accumulate self frame w t w' :
  traces w !! self = Some t →
  wf_trace w t →
  traceUpdate self frame w = (w', Returns tt) →
  ∃ t', traces w' !! self = Some t' ∧
        conditionsSatisfied t'
        = forallb id (conditions (computation t) (entered_world self frame w)).
Proof.
  intros Ht Hwf Hupd.
  destruct (traceUpdate_inv self frame w t w' Ht Hwf Hupd)
    as (w0 & wo & v & Hent & Hrun0 & _ & _ & Hc & Hw').
  rewrite (entered_world_eq _ _ _ _ _ Hent).
  destruct (run_conditions self _ _ _ _ _ Hrun0 Hc) as (to & Hruno & Hcs).
  destruct Hruno as (Hto & _). rewrite (Hw' to Hto).
  eexists. split; [apply lookup_insert_eq|]. simpl. by rewrite Hcs.
Qed.

(** X8.  [traceUpdate] raises exactly when the run of the computation
    raises, with the same error and in the state the computation left; when
    it returns, the trace holds the computation's result as [returnValue],
    has no root frame and no loop counters left, and every record of its
    dictionary is active. *)
Theorem traceUpdate_outcome self frame w t w' o :
  traces w !! self = Some t →
  wf_trace w t →
  traceUpdate self frame w = (w', o) →
  match o with
  | Raises x =>
      run (computation t) (entered_world self frame w) = (w', Raises x)
  | Returns _ =>
      ∃ wo v t',
        run (computation t) (entered_world self frame w) = (wo, Returns v) ∧
        traces w' !! self = Some t' ∧
        returnValue t' = v ∧
        rootframe t' = None ∧
        loopcounters t' = ∅ ∧
        computation t' = computation t ∧
        records w' = records wo ∧
        ∀ n r, view w' t' !! n = Some r → active r = true
  end.
Proof.
  intros Ht Hwf Hupd.
  destruct (traceUpdate_enter_running self frame w t Ht Hwf)
    as (w0 & Hent & Hrun0 & _).
  rewrite (entered_world_eq _ _ _ _ _ Hent).
  unfold traceUpdate in Hupd.
  erewrite bind_returns in Hupd by exact Hent.
  pose proof Hrun0 as (Ht0 & _ & _).
  erewrite bind_returns in Hupd; [|unfold get_trace; by rewrite Ht0].
  change (computation (entered t frame)) with (computation t) in *.
  destruct (run (computation t) w0) as [wo [v|x]] eqn:Hc.
  2: { erewrite bind_raises in Hupd by exact Hc. by simplify_eq. }
  erewrite bind_returns in Hupd by exact Hc.
  destruct (run_sim self _ _ _ _ _ Hrun0 Hc) as (to & Hruno & _ & Hcomp).
  destruct Hruno as (Hto & _).
  rewrite (traceUpdate_leave_spec _ _ _ _ _ Hto) in Hupd.
  injection Hupd as <- <-.
  exists wo, v, (finished to (records wo) v).
  split; [done|]. split; [apply lookup_insert_eq|]. simpl.
  split; [done|]. split; [done|]. split; [done|]. split; [done|].
  split; [done|].
  intros n r. unfold view. simpl. rewrite view_left.
  by intros [_ ?]%map_lookup_filter_Some.
Qed.

(** X9.  The first run of a trace, and every run of the rejection loop,
    starts from an empty dictionary.  Such a call, when it completes having
    looked up no address twice, reclaims nothing: [oldlogprob] is 0.0; and
    [newlogprob] is the sum, taken from 0.0 in the order of the lookups, of
    the [logprob] of the record left at each address looked up.  These are
    the additions made to [logprob] but for the factors: when the
    computation adds no factor, [newlogprob] and [logprob] are the same
    float. *)
Theorem update_from_empty self frame w t w' :
  traces w !! self = Some t →
  _vars t = ∅ →
  traceUpdate self frame w = (w', Returns tt) →
  NoDup (lookups (update_events self frame w)) →
  ∃ t', traces w' !! self = Some t' ∧
        oldlogprob t' = 0%float ∧
        newlogprob t'
        = sum_F (logprob_at (view w' t')
                   <$> lookups (update_events self frame w)) ∧
        (factors (update_events self frame w) = [] →
         newlogprob t' = tlogprob t').
Proof.
  intros Ht Hempty Hupd Hnd.
  assert (Hwf : wf_trace w t).
  { split; intros *; by rewrite Hempty, lookup_empty. }
  assert (Hview0 : view w t = ∅).
  { unfold view. rewrite Hempty. apply omap_empty. }
  destruct (traceUpdate_spec self frame w t w' Ht Hwf Hupd)
    as (t' & Ht' & _ & Hview & Hlp & Hnew & Hold & _).
  rewrite Hview0, fmap_empty in Hview, Hlp, Hnew, Hold.
  set (σ0 := mkSummary ∅ 0 0 (rng w)) in *.
  set (evs := update_events self frame w) in *.
  assert (Hat : logprob_at (view w' t') <$> lookups evs
                = logprob_at (s_view (foldl apply_event σ0 evs))
                    <$> lookups evs).
  { apply list_fmap_ext. intros i n Hn%list_elem_of_lookup_2.
    destruct (fold_seen evs σ0 n Hn) as (r & Hr & Hact).
    unfold logprob_at. rewrite Hview, Hr.
    by erewrite (proj2 (map_lookup_filter_Some _ _ _ _)). }
  assert (Hsum : newlogprob t' = sum_F (logprob_at (view w' t') <$> lookups evs)).
  { rewrite Hnew, Hat.
    apply (fold_created evs σ0 Hnd). intros n _. apply lookup_empty. }
  exists t'. split; [done|]. split; [|split; [done|]].
  - destruct Hold as (names & _ & Hin & ->).
    destruct names as [|n names]; [done|].
    destruct (proj1 (Hin n)) as (r & Hr & Hina); [by left|].
    destruct (decide (n ∈ lookups evs)) as [Hn|Hn].
    + destruct (fold_seen _ σ0 n Hn) as (r' & Hr' & Hact). congruence.
    + by rewrite (fold_unseen _ σ0 n Hn) in Hr.
  - intros Hnof. rewrite Hsum, Hat, Hlp.
    rewrite (fold_contributions evs σ0 Hnd).
    by rewrite (contributions_lookups _ evs Hnof).
Qed.
(** ** Copies *)

Lemma copy_records_wf items : ∀ acc w w' vars',
  copy_records items acc w = (w', Returns vars') →
  (∀ n l, acc !! n = Some l → is_Some (records w !! l)) →
  (∀ n1 n2 l, acc !! n1 = Some l → acc !! n2 = Some l → n1 = n2) →
  (∀ n l, vars' !! n = Some l → is_Some (records w' !! l)) ∧
  (∀ n1 n2 l, vars' !! n1 = Some l → vars' !! n2 = Some l → n1 = n2).
Proof.
  induction items as [|[n l] rest IH]; intros acc w w' vars' Hcp Hall Hinj;
    simpl in Hcp.
  - unfold ret in Hcp. by simplify_eq.
  - apply bind_cases in Hcp as [(w1 & r & [-> Hr]%get_record_cases & Hcp)
                               |(x & _ & ?)]; [|done].
    apply bind_cases in Hcp as [(w1 & l' & Hal & Hcp)|(x & _ & ?)]; [|done].
    unfold alloc_record in Hal. injection Hal as <- <-.
    assert (Hf : records w !! fresh (dom (records w)) = None)
      by apply not_elem_of_dom, is_fresh.
    apply (IH _ _ _ _ Hcp); simpl.
    + intros n0 l0. rewrite lookup_insert. case_decide; intros Hn0.
      * simplify_eq. rewrite lookup_insert_eq. eauto.
      * rewrite lookup_insert. case_decide; eauto.
    + assert (Hnew : ∀ n0, acc !! n0 = Some (fresh (dom (records w))) → False).
      { intros n0 Hn0. destruct (Hall _ _ Hn0) as [? ?]. congruence. }
      intros n1 n2 l0. rewrite !lookup_insert.
      repeat case_decide; intros H1 H2; simplify_eq; try done.
      * exfalso. eauto.
      * exfalso. eauto.
      * eauto.
Qed.

Lemma deepcopy_returns self w t :
  traces w !! self = Some t →
  wf_trace w t →
  ∃ w1 nt tn,
    deepcopy self w = (w1, Returns nt) ∧
    traces w !! nt = None ∧
    traces w1 !! nt = Some tn ∧
    view w1 tn = view w t ∧
    wf_trace w1 tn ∧
    (∀ n l, _vars tn !! n = Some l → records w !! l = None) ∧
    (computation tn = computation t ∧ tlogprob tn = tlogprob t ∧
     newlogprob tn = newlogprob t ∧ oldlogprob tn = oldlogprob t ∧
     conditionsSatisfied tn = conditionsSatisfied t ∧
     returnValue tn = returnValue t ∧
     rootframe tn = None ∧ loopcounters tn = ∅) ∧
    (∀ t2 tr, traces w !! t2 = Some tr → traces w1 !! t2 = Some tr) ∧
    (∀ l r, records w !! l = Some r → records w1 !! l = Some r) ∧
    _trace w1 = _trace w ∧ rng w1 = rng w.
Proof.
  intros Ht [Hall Hinj]. set (nt := fresh (dom (traces w))).
  assert (Hnt : traces w !! nt = None) by apply not_elem_of_dom, is_fresh.
  unfold deepcopy.
  erewrite bind_returns; [|unfold get_trace; by rewrite Ht].
  erewrite bind_returns; [|reflexivity]. fold nt.
  erewrite bind_returns;
    [|apply update_trace_returns; simpl; apply lookup_insert_eq].
  erewrite bind_returns;
    [|apply update_trace_returns; simpl; apply lookup_insert_eq].
  erewrite bind_returns;
    [|apply update_trace_returns; simpl; apply lookup_insert_eq].
  match goal with |- context [bind (copy_records _ _) _ ?w0] =>
    set (wc := w0) end.
  destruct (copy_records_spec (map_to_list (_vars t)) ∅ wc)
    as (wd & vars' & Hcp & Hg & Hrng & Hout & Hin).
  { apply NoDup_fst_map_to_list. }
  { intros n l Hnl%elem_of_map_to_list. by apply (Hall n). }
  destruct (copy_records_frame _ _ _ _ _ Hcp) as (HT & HR & Hnew).
  destruct (copy_records_wf _ _ _ _ _ Hcp) as [Hall' Hinj'].
  { intros n l. by rewrite lookup_empty. }
  { intros n1 n2 l. by rewrite lookup_empty. }
  erewrite bind_returns by exact Hcp.
  erewrite bind_returns;
    [|apply update_trace_returns; rewrite HT; simpl; apply lookup_insert_eq].
  erewrite bind_returns;
    [|apply update_trace_returns; simpl; apply lookup_insert_eq].
  erewrite bind_returns;
    [|apply update_trace_returns; simpl; apply lookup_insert_eq].
  eexists _, nt, _. split; [reflexivity|]. simpl.
  split; [done|]. split; [apply lookup_insert_eq|].
  split; [|split; [by split|split; [|split; [done|split; [|done]]]]].
  - apply map_eq. intros n. rewrite !lookup_view. simpl.
    destruct (_vars t !! n) as [l|] eqn:Hn; simpl.
    + destruct (Hin n l) as (l' & -> & Hrec);
        [by apply elem_of_map_to_list|]. simpl. by rewrite Hrec.
    + rewrite Hout, lookup_empty; [done|].
      intros ([n' l] & -> & Hnl%elem_of_map_to_list)%list_elem_of_fmap.
      simpl in Hn. congruence.
  - intros n l Hn. destruct (Hnew vars' eq_refl n l Hn) as [Hemp|Hnone];
      [by rewrite lookup_empty in Hemp|done].
  - intros t2 tr H2. rewrite !insert_insert_eq, HT. simpl.
    rewrite !insert_insert_eq. rewrite lookup_insert_ne; [done|].
    intros <-. congruence.
Qed.

(** X10.  [__deepcopy__] returns a new trace object with the computation,
    the three sums, [conditionsSatisfied] and [returnValue] of the original,
    no root frame and no loop counters; its dictionary binds the same
    addresses to equal records, and none of them is a record of the
    original.  Nothing else changes. *)
Theorem deepcopy_copy self w t :
  traces w !! self = Some t →
  wf_trace w t →
  ∃ w1 nt tn,
    deepcopy self w = (w1, Returns nt) ∧
    traces w !! nt = None ∧
    traces w1 !! nt = Some tn ∧
    view w1 tn = view w t ∧
    (∀ n l, _vars tn !! n = Some l → records w !! l = None) ∧
    (computation tn = computation t ∧ tlogprob tn = tlogprob t ∧
     newlogprob tn = newlogprob t ∧ oldlogprob tn = oldlogprob t ∧
     conditionsSatisfied tn = conditionsSatisfied t ∧
     returnValue tn = returnValue t ∧
     rootframe tn = None ∧ loopcounters tn = ∅) ∧
    (∀ t2 tr, traces w !! t2 = Some tr → traces w1 !! t2 = Some tr) ∧
    (∀ l r, records w !! l = Some r → records w1 !! l = Some r) ∧
    _trace w1 = _trace w ∧ rng w1 = rng w.
Proof.
  intros Ht Hwf.
  destruct (deepcopy_returns self w t Ht Hwf)
    as (w1 & nt & tn & Hdc & Hnt & Htn & Hview & _ & Hnew & Hfields & HT & HR
        & Hg & Hrng).
  exists w1, nt, tn. split; [done|]. split; [done|]. split; [done|].
  split; [done|]. split; [done|]. split; [done|]. split; [done|].
  split; [done|]. by split.
Qed.

(** ** [proposeChange] at an address the trace does not bind *)

(** X11.  [proposeChange] at an address the trace does not bind:
    [getRecord] answers [None] on the copy and reading [var.erp] raises, so
    the call ends in [AttributeError] before anything is proposed, with the
    slot and the random source as they were. *)
Theorem proposeChange_unbound self varname frame w t :
  traces w !! self = Some t →
  wf_trace w t →
  _vars t !! varname = None →
  ∃ w', proposeChange self varname frame w = (w', Raises AttributeError) ∧
        _trace w' = _trace w ∧ rng w' = rng w.
Proof.
  intros Ht Hwf Hn.
  destruct (deepcopy_returns self w t Ht Hwf)
    as (w1 & nt & tn & Hdc & _ & Htn & Hview & Hwfn & _ & _ & _ & _ & Hg & Hrng).
  assert (Hnn : _vars tn !! varname = None).
  { apply (view_None w1); [done|]. by rewrite Hview, lookup_view, Hn. }
  exists w1. split; [|done].
  unfold proposeChange. erewrite bind_raises; [done|].
  unfold proposeChange_mutate.
  erewrite bind_returns by exact Hdc.
  erewrite bind_returns.
  2: { unfold getRecord. erewrite bind_returns; [reflexivity|].
       unfold get_trace. by rewrite Htn. }
  by rewrite Hnn.
Qed.

(** ** [varDiff] and [lpDiff] *)

Lemma varDiff_returns self other w t o :
  traces w !! self = Some t →
  traces w !! other = Some o →
  ∃ names,
    varDiff self other w = (w, Returns names) ∧
    NoDup names ∧
    ∀ n, n ∈ names ↔ is_Some (_vars t !! n) ∧ _vars o !! n = None.
Proof.
  intros Ht Ho. eexists. split; [|split].
  - unfold varDiff.
    erewrite bind_returns; [|unfold get_trace; by rewrite Ht].
    erewrite bind_returns; [|unfold get_trace; by rewrite Ho].
    reflexivity.
  - apply NoDup_elements.
  - intros n. rewrite elem_of_elements, elem_of_difference, !elem_of_dom.
    by rewrite <- eq_None_not_Some.
Qed.

(** X12.  [varDiff] returns, each once, the addresses the trace binds and
    the other trace does not; it changes nothing. *)
Theorem varDiff_spec self other w t o :
  traces w !! self = Some t →
  traces w !! other = Some o →
  ∃ names,
    varDiff self other w = (w, Returns names) ∧
    NoDup names ∧
    ∀ n, n ∈ names ↔ is_Some (_vars t !! n) ∧ _vars o !! n = None.
Proof.
  intros Ht Ho. exists (elements (dom (_vars t) ∖ dom (_vars o))).
  split; [|split].
  - unfold varDiff, get_trace, bind, ret. by rewrite Ht, Ho.
  - apply NoDup_elements.
  - intros n. rewrite elem_of_elements, elem_of_difference, !elem_of_dom.
    by rewrite <- eq_None_not_Some.
Qed.

Lemma logprobs_of_returns (vars : gmap string loc) w names :
  (∀ n, n ∈ names → ∃ l r, vars !! n = Some l ∧ records w !! l = Some r) →
  logprobs_of vars names w
  = (w, Returns ((λ n, from_option logprob 0%float
                          (vars !! n ≫= (λ l, records w !! l))) <$> names)).
Proof.
  induction names as [|n names IH]; intros Hall; simpl; [done|].
  destruct (Hall n) as (l & r & Hl & Hr); [by left|].
  rewrite Hl. simpl.
  erewrite bind_returns; [|unfold get_record; by rewrite Hr].
  erewrite bind_returns; [|apply IH; intros n0 Hn0; apply Hall; by right].
  by rewrite Hr.
Qed.

(** X13.  [lpDiff] returns the sum, taken from 0 in the order of the list
    that [varDiff] returns, of the [logprob] of the record at each of its
    addresses, which are, each once, the addresses the other trace does not
    bind; it changes nothing.  Against itself a trace has no such address
    and the sum is 0. *)
Theorem lpDiff_spec self other w t o :
  traces w !! self = Some t →
  traces w !! other = Some o →
  wf_trace w t →
  (∃ names,
     varDiff self other w = (w, Returns names) ∧
     NoDup names ∧
     (∀ n, n ∈ names ↔ is_Some (_vars t !! n) ∧ _vars o !! n = None) ∧
     lpDiff self other w
     = (w, Returns (sum_F (logprob_at (view w t) <$> names)))) ∧
  varDiff self self w = (w, Returns []) ∧
  lpDiff self self w = (w, Returns 0%float).
Proof.
  intros Ht Ho [Hall _]. split.
  - destruct (varDiff_returns self other w t o Ht Ho) as (names & Hvd & Hnd & Hin).
    exists names. split; [done|]. split; [done|]. split; [done|].
    unfold lpDiff. erewrite bind_returns by exact Hvd.
    erewrite bind_returns; [|unfold get_trace; by rewrite Ht].
    erewrite bind_returns.
    2: { apply logprobs_of_returns. intros n [[l Hl] _]%Hin.
         destruct (Hall n l Hl) as [r Hr]. eauto. }
    unfold ret. do 3 f_equal. apply list_fmap_ext. intros i n _.
    unfold logprob_at. by rewrite lookup_view.
  - assert (Hself : varDiff self self w = (w, Returns [])).
    { unfold varDiff.
      erewrite bind_returns; [|unfold get_trace; by rewrite Ht].
      erewrite bind_returns; [|unfold get_trace; by rewrite Ht].
      unfold ret. do 2 f_equal.
      rewrite difference_diag_L. apply elements_empty. }
    split; [done|].
    unfold lpDiff. erewrite bind_returns by exact Hself.
    erewrite bind_returns; [|unfold get_trace; by rewrite Ht]. done.
Qed.
(** ** Construction *)

Lemma clear_then_update self frame w t :
  traces w !! self = Some t →
  (update_trace self (set_vars ∅) ;;; traceUpdate self frame) w
  = traceUpdate self frame
      (set_traces (<[self := set_vars ∅ t]> (traces w)) w).
Proof.
  intros Ht. erewrite bind_returns; [done|]. by apply update_trace_returns.
Qed.

Lemma rejection_loop_inv c self frame fuel : ∀ w t r,
  traces w !! self = Some t →
  wf_trace w t →
  computation t = c →
  rejection_loop fuel self frame w = Some r →
  match r.2 with
  | Returns _ =>
      ∃ t', traces r.1 !! self = Some t' ∧
            conditionsSatisfied t' = true ∧
            computation t' = c ∧
            wf_trace r.1 t'
  | Raises _ => True
  end.
Proof.
  induction fuel as [|fuel IH]; intros w t r Ht Hwf Hc Hloop;
    simpl in Hloop; unfold get_trace in Hloop; rewrite Ht in Hloop;
    destruct (conditionsSatisfied t) eqn:Hcs; simplify_eq; simpl; eauto.
  rewrite (clear_then_update self frame w t Ht) in Hloop.
  set (w0 := set_traces (<[self := set_vars ∅ t]> (traces w)) w) in *.
  assert (Ht0 : traces w0 !! self = Some (set_vars ∅ t))
    by apply lookup_insert_eq.
  assert (Hwf0 : wf_trace w0 (set_vars ∅ t)).
  { split; intros *; simpl; by rewrite lookup_empty. }
  destruct (traceUpdate self frame w0) as [w1 [[]|x]] eqn:Hupd.
  2: { by simplify_eq. }
  destruct (traceUpdate_spec self frame w0 _ w1 Ht0 Hwf0 Hupd)
    as (t1 & Ht1 & Hwf1 & _ & _ & _ & _ & Hc1 & _).
  apply (IH w1 t1); [done|done| |done]. by rewrite Hc1.
Qed.

(** X14.  When [RandomExecutionTrace(c)] returns, it returns a new trace of
    [c] whose [conditionsSatisfied] is true; without rejection it returns
    the new trace untouched, with [conditionsSatisfied] false. *)
Theorem init_satisfied c frame fuel w w' self :
  (RandomExecutionTrace_init c true fuel frame w = Some (w', Returns self) →
   traces w !! self = None ∧
   ∃ t', traces w' !! self = Some t' ∧
         conditionsSatisfied t' = true ∧
         computation t' = c ∧
         wf_trace w' t') ∧
  ∃ new, traces w !! new = None ∧
         RandomExecutionTrace_init c false fuel frame w
         = Some (set_traces (<[new := fresh_trace c]> (traces w)) w,
                 Returns new).
Proof.
  split.
  2: { exists (fresh (dom (traces w))).
       split; [apply not_elem_of_dom, is_fresh|done]. }
  unfold RandomExecutionTrace_init, alloc_trace.
  set (new := fresh (dom (traces w))).
  set (w0 := set_traces (<[new := fresh_trace c]> (traces w)) w).
  intros Hinit.
  destruct (rejection_loop fuel new frame w0) as [[w1 [[]|x]]|] eqn:Hloop;
    [|done|done].
  injection Hinit as Hw Hs. subst w1 self.
  split; [apply not_elem_of_dom, is_fresh|].
  apply (rejection_loop_inv c new frame fuel w0 (fresh_trace c)
           (w', Returns tt));
    [apply lookup_insert_eq|apply wf_trace_fresh|done|exact Hloop].
Qed.

Lemma rejection_loop_more self frame fuel : ∀ k w r,
  rejection_loop fuel self frame w = Some r →
  rejection_loop (fuel + k) self frame w = Some r.
Proof.
  induction fuel as [|fuel IH]; intros k w r Hloop.
  - simpl in Hloop. destruct k as [|k]; [done|]. simpl.
    destruct (get_trace self w) as [w0 [t|x]]; [|done].
    by destruct (conditionsSatisfied t).
  - simpl in *. destruct (get_trace self w) as [w0 [t|x]]; [|done].
    destruct (conditionsSatisfied t); [done|].
    destruct ((update_trace self (set_vars ∅) ;;; traceUpdate self frame) w0)
      as [w1 [[]|x]]; [by apply IH|done].
Qed.

(** The bound on the loop does not show in a result: what construction
    gives with some fuel it gives with any more. *)
Lemma init_more_fuel c b frame fuel k w r :
  RandomExecutionTrace_init c b fuel frame w = Some r →
  RandomExecutionTrace_init c b (fuel + k) frame w = Some r.
Proof.
  unfold RandomExecutionTrace_init.
  destruct (alloc_trace (fresh_trace c) w) as [w0 [s|x]]; [|done].
  destruct b; [|done].
  destruct (rejection_loop fuel s frame w0) as [r0|] eqn:Hloop; [|done].
  by rewrite (rejection_loop_more s frame fuel k w0 r0 Hloop).
Qed.

Lemma rejection_loop_unsatisfiable c self frame fuel : ∀ w t r,
  (∀ w0 t0, running self w0 t0 → computation t0 = c →
            forallb id (conditions c w0) = false) →
  traces w !! self = Some t →
  computation t = c →
  conditionsSatisfied t = false →
  rejection_loop fuel self frame w = Some r →
  ∃ x, r.2 = Raises x.
Proof.
  intros w t r Hfalse. revert w t r.
  induction fuel as [|fuel IH]; intros w t r Ht Hc Hcs Hloop;
    simpl in Hloop; unfold get_trace in Hloop; rewrite Ht, Hcs in Hloop;
    [done|].
  rewrite (clear_then_update self frame w t Ht) in Hloop.
  set (w0 := set_traces (<[self := set_vars ∅ t]> (traces w)) w) in *.
  assert (Ht0 : traces w0 !! self = Some (set_vars ∅ t))
    by apply lookup_insert_eq.
  assert (Hwf0 : wf_trace w0 (set_vars ∅ t)).
  { split; intros *; simpl; by rewrite lookup_empty. }
  destruct (traceUpdate self frame w0) as [w1 [[]|x]] eqn:Hupd.
  2: { simplify_eq. simpl. eauto. }
  destruct (traceUpdate_inv self frame w0 _ w1 Ht0 Hwf0 Hupd)
    as (we & wo & v & Hent & Hrune & _ & _ & Hrunc & Hw1).
  destruct (run_conditions self _ _ _ _ _ Hrune Hrunc) as (to & Hruno & Hcso).
  destruct (run_sim self _ _ _ _ _ Hrune Hrunc) as (to' & Hruno' & _ & Hcomp).
  destruct Hruno as (Hto & _). destruct Hruno' as (Hto' & _).
  assert (to' = to) as -> by congruence.
  simpl in Hcso, Hcomp. rewrite Hc in Hcso, Hcomp.
  rewrite (Hfalse we _ Hrune) in Hcso by done.
  apply (IH w1 (finished to (records wo) v)); [| | |done].
  - rewrite (Hw1 to Hto). apply lookup_insert_eq.
  - simpl. by rewrite Hcomp.
  - done.
Qed.

(** X15.  A computation whose every run passes a false value to [condition]
    never gets a trace from [newTrace]: whatever the number of iterations
    allowed, the loop has not returned, or the computation has raised. *)
Theorem newTrace_unsatisfiable c fuel frame w r :
  (∀ self w0 t0, running self w0 t0 → computation t0 = c →
                 forallb id (conditions c w0) = false) →
  newTrace c fuel frame w = Some r →
  ∃ x, r.2 = Raises x.
Proof.
  intros Hfalse. unfold newTrace, RandomExecutionTrace_init, alloc_trace.
  set (self := fresh (dom (traces w))).
  set (w0 := set_traces (<[self := fresh_trace c]> (traces w)) w).
  destruct (rejection_loop fuel self frame w0) as [[w1 o]|] eqn:Hloop; [|done].
  destruct (rejection_loop_unsatisfiable c self frame fuel w0 (fresh_trace c)
              (w1, o) (Hfalse self)) as [x Hx];
    [apply lookup_insert_eq|done|done|done|].
  simpl in Hx. subst o. intros [= <-]. eauto.
Qed.


(** X16.  When the first run of the computation completes and every value it
    passed to [condition] was true, [newTrace] makes that one run and
    returns the new trace, in the state one [traceUpdate] of a trace just
    created leaves. *)
Theorem newTrace_first_pass c fuel frame w w1 :
  let self := fresh (dom (traces w)) in
  let w0 := set_traces (<[self := fresh_trace c]> (traces w)) w in
  traceUpdate self frame w0 = (w1, Returns tt) →
  forallb id (conditions c (entered_world self frame w0)) = true →
  newTrace c (S fuel) frame w = Some (w1, Returns self).
Proof.
  intros self w0 Hupd Hconds.
  assert (Ht0 : traces w0 !! self = Some (fresh_trace c))
    by apply lookup_insert_eq.
  unfold newTrace, RandomExecutionTrace_init, alloc_trace.
  fold self. fold w0. simpl. unfold get_trace at 1. rewrite Ht0. simpl.
  rewrite (clear_then_update self frame w0 _ Ht0).
  assert (set_traces (<[self := set_vars ∅ (fresh_trace c)]> (traces w0)) w0
          = w0) as ->.
  { unfold w0, set_traces. simpl. f_equal. by rewrite insert_insert_eq. }
  rewrite Hupd.
  destruct (traceUpdate_inv self frame w0 _ w1 Ht0 (wf_trace_fresh w0 c) Hupd)
    as (we & wo & v & Hent & Hrune & _ & _ & Hrunc & Hw1).
  rewrite (entered_world_eq _ _ _ _ _ Hent) in Hconds.
  destruct (run_conditions self _ _ _ _ _ Hrune Hrunc) as (to & Hruno & Hcs).
  destruct Hruno as (Hto & _). simpl in Hcs, Hrunc. rewrite Hconds in Hcs.
  assert (Hlk : get_trace self w1
                = (w1, Returns (finished to (records wo) v))).
  { unfold get_trace. rewrite (Hw1 to Hto) at 1. simpl.
    by rewrite lookup_insert_eq. }
  destruct fuel; simpl; rewrite Hlk; simpl; by rewrite Hcs.
Qed.

(** ** Addresses (trace.py, lines 126-152) *)

Lemma string_app_cons (x : ascii) (a b : string) :
  String x a +:+ b = String x (a +:+ b).
Proof. reflexivity. Qed.

Lemma string_app_assoc (a b c : string) : (a +:+ b) +:+ c = a +:+ (b +:+ c).
Proof.
  induction a as [|x a IH]; [done|].
  by rewrite !string_app_cons, IH.
Qed.

Lemma string_app_nil_r (a : string) : a +:+ EmptyString = a.
Proof.
  induction a as [|x a IH]; [done|].
  by rewrite string_app_cons, IH.
Qed.

Lemma plain_pretty_N_char (x : N) :
  pretty_N_char x ≠ ":"%char ∧ pretty_N_char x ≠ "|"%char.
Proof. unfold pretty_N_char. repeat case_match; by split. Qed.

Lemma plain_pretty_N_go (x : N) (s : string) :
  plain s → plain (pretty_N_go x s).
Proof.
  revert s. induction (N.lt_wf_0 x) as [x _ IH]. intros s Hs.
  destruct (decide (x = 0%N)) as [->|Hx].
  - by rewrite pretty_N_go_0.
  - rewrite pretty_N_go_step by lia.
    apply IH; [apply N.div_lt; lia|].
    destruct (plain_pretty_N_char (x `mod` 10)). by repeat split.
Qed.

Lemma plain_pretty (x : N) : plain (pretty x).
Proof.
  unfold pretty, pretty_N. case_decide.
  - by repeat split.
  - by apply plain_pretty_N_go.
Qed.

(** A plain string in front of a separator is read back from the whole. *)
Lemma plain_split (a a' : string) (x x' : ascii) (r r' : string) :
  plain a → plain a' →
  x = ":"%char ∨ x = "|"%char → x' = ":"%char ∨ x' = "|"%char →
  a +:+ String x r = a' +:+ String x' r' → a = a' ∧ x = x' ∧ r = r'.
Proof.
  revert a'. induction a as [|y a IH]; intros [|y' a'] Ha Ha' Hx Hx' Heq.
  - change (String x r = String x' r') in Heq. by injection Heq as -> ->.
  - change (String x r = String y' (a' +:+ String x' r')) in Heq.
    injection Heq as -> _.
    destruct Ha' as (? & ? & _). by destruct Hx.
  - change (String y (a +:+ String x r) = String x' r') in Heq.
    injection Heq as -> _.
    destruct Ha as (? & ? & _). by destruct Hx'.
  - rewrite !string_app_cons in Heq. injection Heq as -> Heq.
    destruct Ha as (_ & _ & Ha), Ha' as (_ & _ & Ha').
    destruct (IH a' Ha Ha' Hx Hx' Heq) as (-> & -> & ->). done.
Qed.

Lemma format_frame_inj (c c' : gmap N N) (f f' : Frame) (r r' : string) :
  format_frame c f +:+ r = format_frame c' f' +:+ r' →
  frame_key c f = frame_key c' f' ∧ r = r'.
Proof.
  unfold format_frame, frame_key. rewrite !string_app_assoc. intros Heq.
  change (":" +:+ ?s) with (String ":"%char s) in Heq.
  change ("|" +:+ ?s) with (String "|"%char s) in Heq.
  apply plain_split in Heq as (H1 & _ & Heq);
    [|apply plain_pretty..|by left|by left].
  apply plain_split in Heq as (H2 & _ & Heq);
    [|apply plain_pretty..|by left|by left].
  apply plain_split in Heq as (H3 & _ & Heq);
    [|apply plain_pretty..|by left|by left].
  apply plain_split in Heq as (H4 & _ & Heq);
    [|apply plain_pretty..|by right|by right].
  apply (inj pretty) in H1, H2, H3, H4. split; [|done]. congruence.
Qed.

Lemma format_frame_nonempty (c : gmap N N) (f : Frame) (r : string) :
  format_frame c f +:+ r ≠ EmptyString.
Proof.
  unfold format_frame. rewrite !string_app_assoc.
  by destruct (pretty (f_code f)).
Qed.

Lemma name_of_app (c : gmap N N) (fs gs : list Frame) :
  name_of c (fs ++ gs) = name_of c fs +:+ name_of c gs.
Proof.
  induction fs as [|f fs IH]; [done|].
  simpl. by rewrite IH, string_app_assoc.
Qed.

Lemma name_loop_name_of (root : option N) (c : gmap N N) (stack : list Frame) :
  name_loop root c stack = name_of c (reverse (named_frames root stack)).
Proof.
  induction stack as [|f stack IH]; [done|].
  simpl. case_decide; [done|].
  rewrite reverse_cons, name_of_app, IH. simpl.
  by rewrite string_app_nil_r.
Qed.

Lemma name_of_inj (c c' : gmap N N) (fs fs' : list Frame) :
  name_of c fs = name_of c' fs' → frame_key c <$> fs = frame_key c' <$> fs'.
Proof.
  revert fs'. induction fs as [|f fs IH]; intros [|f' fs'] Heq; simpl in Heq.
  - done.
  - symmetry in Heq. by apply format_frame_nonempty in Heq.
  - by apply format_frame_nonempty in Heq.
  - apply format_frame_inj in Heq as [Hk Heq].
    rewrite !fmap_cons, Hk. f_equal. by apply IH.
Qed.

Lemma name_loop_inj (root root' : option N) (c c' : gmap N N)
    (stack stack' : list Frame) :
  name_loop root c stack = name_loop root' c' stack' →
  frame_key c <$> named_frames root stack =
  frame_key c' <$> named_frames root' stack'.
Proof.
  rewrite !name_loop_name_of. intros Heq%name_of_inj.
  rewrite !fmap_reverse in Heq. by apply (inj reverse) in Heq.
Qed.

(** X17.  Two addresses are the same string only when they were written from
    the same sequence of frames, frame by frame the same code object, loop
    count, line and instruction offset: distinct sequences never share an
    address, whatever the root frames and the loop counters of the two
    traces. *)
Theorem address_injective (root root' : option N) (c c' : gmap N N)
    (stack stack' : list Frame) :
  name_loop root c stack = name_loop root' c' stack' →
  frame_key c <$> named_frames root stack =
  frame_key c' <$> named_frames root' stack'.
Proof.
  intros Heq. rewrite !name_loop_name_of in Heq.
  apply name_of_inj in Heq. rewrite !fmap_reverse in Heq.
  by apply (inj reverse) in Heq.
Qed.

(** X18.  Counting one more iteration for a frame changes the address of
    everything below it: when the frame [numFrameSkip] up the stack is not
    the root, [currentName] returns before and after [incrementLoopCounter]
    two different names. *)
Theorem loop_counter_renames (self : loc) (stack : list Frame) (n : nat)
    (w : World) (t : RandomExecutionTrace) (f : Frame) (fs : list Frame) :
  traces w !! self = Some t →
  f_back n stack = Some (f :: fs) →
  rootframe t ≠ Some (f_id f) →
  ∃ w' a a',
    currentName self stack n w = (w, Returns a) ∧
    trace_incrementLoopCounter self stack n w = (w', Returns tt) ∧
    currentName self stack n w' = (w', Returns a') ∧
    a ≠ a'.
Proof.
  intros Ht Hfs Hroot.
  set (c' := <[f_id f := (counter_get (loopcounters t) (f_id f) + 1)%N]>
               (loopcounters t)).
  exists (set_traces (<[self := set_loopcounters c' t]> (traces w)) w),
    (name_loop (rootframe t) (loopcounters t) (f :: fs)),
    (name_loop (rootframe t) c' (f :: fs)).
  split_and!.
  - unfold currentName, get_trace, bind, ret. by rewrite Ht, Hfs.
  - unfold trace_incrementLoopCounter. rewrite Hfs.
    unfold update_trace, get_trace, bind, ret. by rewrite Ht.
  - unfold currentName, get_trace, bind, ret. simpl.
    by rewrite lookup_insert_eq, Hfs.
  - intros Heq%name_loop_inj. simpl in Heq.
    rewrite decide_False in Heq by done.
    rewrite !fmap_cons in Heq. injection Heq as Hk _.
    assert (counter_get c' (f_id f) =
            (counter_get (loopcounters t) (f_id f) + 1)%N) as Hc'.
    { unfold c'. unfold counter_get at 1. by rewrite lookup_insert_eq. }
    lia.
Qed.
End Engine.
(** * The theorems at the example inputs *)

Lemma accounting_invariant_witness :
  let w := new_world rounding in
  let w' := (traceUpdate example_erps 0 1 0 w).1 in
  let evs := update_events example_erps 0 1 0 w in
  ∃ t', traces w' !! 1%positive = Some t' ∧
        (∀ n r, view w' t' !! n = Some r →
                active r = true ∧ n ∈ lookups evs) ∧
        (∀ n, n ∈ lookups evs → is_Some (view w' t' !! n)) ∧
        tlogprob t' = sum_F (contribution (view w' t') <$> evs).
Proof.
  apply (accounting_invariant example_erps 0 1 0 (new_world rounding)
           (fresh_trace rounding)).
  - reflexivity.
  - apply wf_check_sound. vm_compute. reflexivity.
  - apply pair_eq_2. vm_compute. reflexivity.
  - apply (bool_decide_unpack _). vm_compute. exact I.
Defined.

(** C1 as stated, at a computation that looks up one address twice: the
    call completes, one record is active, and its [logprob] has been added
    to the trace's twice. *)
Lemma accounting_counterexample :
  let w := new_world same_site_twice in
  let w' := (traceUpdate example_erps 0 1 0 w).1 in
  (traceUpdate example_erps 0 1 0 w).2 = Returns tt ∧
  ∃ t', traces w' !! 1%positive = Some t' ∧
        tlogprob t' = (-2)%float ∧
        active_logprob w' t' = (-1)%float ∧
        sum_F (factors (update_events example_erps 0 1 0 w)) = 0%float ∧
        PrimFloat.eqb (tlogprob t')
          (active_logprob w' t'
           + sum_F (factors (update_events example_erps 0 1 0 w)))
        = false.
Proof.
  split; [vm_compute; reflexivity|].
  eexists. split; [vm_compute; reflexivity|].
  split; [vm_compute; reflexivity|].
  split; [vm_compute; reflexivity|].
  split; vm_compute; reflexivity.
Qed.

(** C1 as stated, at [rounding], where no address is looked up twice: the
    call adds 1e16, the record's -1 and -1e16 in this order and ends with
    [logprob] 0.0, while the one active record has [logprob] -1 and the
    factors sum to 0.0. *)
Lemma accounting_rounding :
  let w := new_world rounding in
  let w' := (traceUpdate example_erps 0 1 0 w).1 in
  (traceUpdate example_erps 0 1 0 w).2 = Returns tt ∧
  ∃ t', traces w' !! 1%positive = Some t' ∧
        tlogprob t' = 0%float ∧
        active_logprob w' t' = (-1)%float ∧
        sum_F (factors (update_events example_erps 0 1 0 w)) = 0%float ∧
        PrimFloat.eqb (tlogprob t')
          (active_logprob w' t'
           + sum_F (factors (update_events example_erps 0 1 0 w)))
        = false.
Proof.
  split; [vm_compute; reflexivity|].
  eexists. split; [vm_compute; reflexivity|].
  split; [vm_compute; reflexivity|].
  split; [vm_compute; reflexivity|].
  split; vm_compute; reflexivity.
Qed.

Lemma reclamation_witness :
  let w := ready_world in
  let w' := (traceUpdate example_erps 0 1 0 w).1 in
  let seen := lookups (update_events example_erps 0 1 0 w) in
  let made := update_creations example_erps 0 1 0 w in
  ∃ t', traces w' !! 1%positive = Some t' ∧
        (∀ n, n ∉ seen → _vars t' !! n = None) ∧
        (∃ names,
           NoDup names ∧
           (∀ n, n ∈ names ↔ (n ∉ seen) ∧ is_Some (view w ready_trace !! n)) ∧
           oldlogprob t' = sum_F (logprob_at (view w ready_trace) <$> names)) ∧
        (∀ n, n ∈ seen →
           ∃ l r, _vars t' !! n = Some l ∧
                  records w' !! l = Some r ∧
                  active r = true ∧
                  (n ∈ made → records w !! l = None) ∧
                  (n ∉ made → _vars ready_trace !! n = Some l)).
Proof.
  apply (reclamation example_erps 0 1 0 ready_world ready_trace).
  - reflexivity.
  - apply wf_check_sound. vm_compute. reflexivity.
  - apply pair_eq_2. vm_compute. reflexivity.
Defined.

(** C4 as stated, at [changed_world]: the address of record 1 is looked
    up, with another ERP, and record 2 is not reached.  The call completes;
    record 1, which was looked up, is not in the dictionary any more (its
    address is bound to a new record), and [oldlogprob] is the [logprob] of
    record 2 alone: of the two records the call removed, one is not in the
    sum. *)
Lemma reclamation_counterexample :
  let w := changed_world in
  let w' := (traceUpdate example_erps 0 1 0 w).1 in
  (traceUpdate example_erps 0 1 0 w).2 = Returns tt ∧
  lookups (update_events example_erps 0 1 0 w) = ["7:0:1:3|"] ∧
  _vars changed_trace !! "7:0:1:3|" = Some 1%positive ∧
  _vars changed_trace !! "7:0:9:3|" = Some 2%positive ∧
  logprob <$> records w !! 1%positive = Some (-1)%float ∧
  logprob <$> records w !! 2%positive = Some (-2)%float ∧
  ∃ t', traces w' !! 1%positive = Some t' ∧
        map_to_list (_vars t') = [("7:0:1:3|", 3%positive)] ∧
        records w !! 3%positive = None ∧
        oldlogprob t' = (-2)%float.
Proof.
  split; [vm_compute; reflexivity|].
  split; [vm_compute; reflexivity|].
  split; [vm_compute; reflexivity|].
  split; [vm_compute; reflexivity|].
  split; [vm_compute; reflexivity|].
  split; [vm_compute; reflexivity|].
  eexists. split; [vm_compute; reflexivity|].
  split; [vm_compute; reflexivity|].
  split; vm_compute; reflexivity.
Qed.



(** C8 as stated, at a computation with one choice, conditioned on [nan]:
    [nan] is truthy and differs from itself, so the second call finds the
    record the first left, replaces it, and ends with [newlogprob] -1. *)
Lemma reuse_idempotence_nan :
  let w0 := new_world nan_conditioned in
  let w1 := (traceUpdate example_erps 0 1 0 w0).1 in
  let w2 := (traceUpdate example_erps 0 1 0 w1).1 in
  (traceUpdate example_erps 0 1 0 w0).2 = Returns tt ∧
  (traceUpdate example_erps 0 1 0 w1).2 = Returns tt ∧
  update_events example_erps 0 1 0 w1 = update_events example_erps 0 1 0 w0 ∧
  NoDup (lookups (update_events example_erps 0 1 0 w0)) ∧
  self_equal (update_events example_erps 0 1 0 w0) = false ∧
  ∃ t1 t2,
    traces w1 !! 1%positive = Some t1 ∧
    traces w2 !! 1%positive = Some t2 ∧
    _vars t1 !! "7:0:1:3|" = Some 1%positive ∧
    _vars t2 !! "7:0:1:3|" = Some 2%positive ∧
    newlogprob t2 = (-1)%float.
Proof.
  split; [vm_compute; reflexivity|].
  split; [vm_compute; reflexivity|].
  split; [vm_compute; reflexivity|].
  split; [apply (bool_decide_unpack _); vm_compute; exact I|].
  split; [vm_compute; reflexivity|].
  eexists _, _.
  split; [vm_compute; reflexivity|].
  split; [vm_compute; reflexivity|].
  split; [vm_compute; reflexivity|].
  split; vm_compute; reflexivity.
Qed.

Lemma resolve_choice_witness :
  let w := new_world one_choice in
  let w1 := running_world in
  lookupVariableValue example_erps (call_stack 1) 0 [VNum 1] false 0 VNone w
  = (set_rng 1 w, Returns (VNum 10)) ∧
  lookupVariableValue example_erps (call_stack 1) 0 [VNum 1] false 0 (VNum 0) w
  = (set_rng 1 w, Returns (VNum 10)) ∧
  lookupVariableValue example_erps (call_stack 1) 0 [VNum 1] false 0 (VNum 7) w
  = (w, Returns (VNum 7)) ∧
  lookupVariableValue example_erps (call_stack 1) 0 [VNum 1] false 0 (VNum 0) w1
  = (name <~ currentName 1 (call_stack 1) 1 ;;
     trace_lookup example_erps 1 name 0 [VNum 1] false (VNum 0)) w1.
Proof.
  split; [|split; [|split]].
  - exact (resolve_choice example_erps (call_stack 1) 0 [VNum 1] false 0 VNone
             (new_world one_choice)).
  - exact (resolve_choice example_erps (call_stack 1) 0 [VNum 1] false 0
             (VNum 0) (new_world one_choice)).
  - exact (resolve_choice example_erps (call_stack 1) 0 [VNum 1] false 0
             (VNum 7) (new_world one_choice)).
  - exact (resolve_choice example_erps (call_stack 1) 0 [VNum 1] false 0
             (VNum 0) running_world).
Defined.

(** C6 as stated, with no trace active and 7 supplied as
    [conditionedValue]: the call returns 7 and leaves the random source
    alone, where a draw returns 10 and advances it. *)
Lemma resolve_choice_counterexample :
  let w := new_world one_choice in
  _trace w = None ∧
  lookupVariableValue example_erps (call_stack 1) 0 [VNum 1] false 0 (VNum 7) w
  = (w, Returns (VNum 7)) ∧
  sample example_erps 0 [VNum 1] w = (set_rng 1 w, Returns (VNum 10)) ∧
  lookupVariableValue example_erps (call_stack 1) 0 [VNum 1] false 0 (VNum 7) w
  ≠ sample example_erps 0 [VNum 1] w.
Proof.
  split; [reflexivity|]. split; [reflexivity|]. split; [reflexivity|].
  intros H. discriminate H.
Qed.
Lemma proposal_bookkeeping_witness :
  let r := mkRecord 0 [VNum 1] (VNum 10) (-1) true false false in
  let propval := VNum 25 in
  ∃ w1 nt tn l',
    proposeChange_mutate example_erps 1 "7:0:1:3|" ready_world
    = (w1, Returns (nt, (-2)%float, (-2)%float)) ∧
    traces w1 !! nt = Some tn ∧
    _vars tn !! "7:0:1:3|" = Some l' ∧
    records w1 !! l' = Some (set_logprob (-1) (set_val propval r)) ∧
    ∀ w2, traceUpdate example_erps 0 nt 0 w1 = (w2, Returns tt) →
      ∃ t2, traces w2 !! nt = Some t2 ∧
            proposeChange example_erps 0 1 "7:0:1:3|" 0 ready_world
            = (w2, Returns (nt, (-2 + newlogprob t2)%float,
                            (-2 + oldlogprob t2)%float)).
Proof.
  apply (proposal_bookkeeping example_erps 0 1 "7:0:1:3|" 0 ready_world
           ready_trace 1%positive
           (mkRecord 0 [VNum 1] (VNum 10) (-1) true false false)).
  - reflexivity.
  - apply wf_check_sound. vm_compute. reflexivity.
  - reflexivity.
  - reflexivity.
Defined.

Lemma proposal_leaves_original_witness :
  let w' := (proposeChange example_erps 0 1 "7:0:1:3|" 0 ready_world).1 in
  traces w' !! 1%positive = Some ready_trace ∧
  records w' !! 1%positive
  = Some (mkRecord 0 [VNum 1] (VNum 10) (-1) true false false) ∧
  records w' !! 2%positive
  = Some (mkRecord 1 [] (VNum 4) (-2) true false true).
Proof.
  destruct (proposal_leaves_original example_erps 0 1 "7:0:1:3|" 0 ready_world
              (proposeChange example_erps 0 1 "7:0:1:3|" 0 ready_world).1
              (proposeChange example_erps 0 1 "7:0:1:3|" 0 ready_world).2)
    as (HT & HR & _).
  - apply surjective_pairing.
  - split; [apply HT; reflexivity|].
    split; apply HR; reflexivity.
Defined.

Lemma falsy_condition_is_sampled_witness :
  ∃ w' t' l r,
    trace_lookup example_erps 1 "7:0:5:3|" 0 [VNum 1] false (VNum 0) ready_world
    = (w', Returns (VNum 15)) ∧
    traces w' !! 1%positive = Some t' ∧
    _vars t' !! "7:0:5:3|" = Some l ∧
    records w' !! l = Some r ∧
    val r = VNum 15 ∧
    conditioned r = true ∧
    ∀ a b, ∃ names,
      freeVarNames 1 a b w' = (w', Returns names) ∧ "7:0:5:3|" ∉ names.
Proof.
  apply (falsy_condition_is_sampled example_erps 1 "7:0:5:3|" 0 [VNum 1] false
           (VNum 0) ready_world ready_trace).
  - reflexivity.
  - vm_compute. reflexivity.
  - reflexivity.
  - intros H. discriminate H.
Defined.

(** C2 at a failing input.  The address holds a record of the same ERP and
    flag with value 10; [False] is supplied as [conditionedValue] and
    differs from 10.  The claim has a fresh record created; the code takes
    the stored one: same record object, same value, nothing added to
    [newlogprob]. *)
Lemma lookup_rule_falsy_condition :
  let w := ready_world in
  let r := mkRecord 0 [VNum 1] (VNum 10) (-1) true false false in
  let w' := (trace_lookup example_erps 1 "7:0:1:3|" 0 [VNum 1] false
               (VBool false) w).1 in
  view w ready_trace !! "7:0:1:3|" = Some r ∧
  py_ne (VBool false) VNone = true ∧
  py_ne (VBool false) (val r) = true ∧
  must_create (Some r) 0 false (VBool false) = false ∧
  (trace_lookup example_erps 1 "7:0:1:3|" 0 [VNum 1] false (VBool false) w).2
  = Returns (VNum 10) ∧
  ∃ t', traces w' !! 1%positive = Some t' ∧
        _vars t' !! "7:0:1:3|" = _vars ready_trace !! "7:0:1:3|" ∧
        view w' t' !! "7:0:1:3|" = Some r ∧
        newlogprob t' = newlogprob ready_trace.
Proof.
  split; [vm_compute; reflexivity|].
  split; [reflexivity|]. split; [reflexivity|]. split; [reflexivity|].
  split; [vm_compute; reflexivity|].
  eexists. split; [vm_compute; reflexivity|].
  split; [vm_compute; reflexivity|].
  split; vm_compute; reflexivity.
Qed.

(** C5 at a failing input.  The address holds a record with value 10; 0 is
    supplied as [conditionedValue].  The claim has a fresh record with
    value 0, marked conditioned; the code returns 10 and leaves the stored
    record, not conditioned, in place. *)
Lemma conditioning_override_falsy :
  let w := ready_world in
  let w' := (trace_lookup example_erps 1 "7:0:1:3|" 0 [VNum 1] false
               (VNum 0) w).1 in
  val <$> view w ready_trace !! "7:0:1:3|" = Some (VNum 10) ∧
  py_ne (VNum 0) (VNum 10) = true ∧
  (trace_lookup example_erps 1 "7:0:1:3|" 0 [VNum 1] false (VNum 0) w).2
  = Returns (VNum 10) ∧
  ∃ t' r', traces w' !! 1%positive = Some t' ∧
           view w' t' !! "7:0:1:3|" = Some r' ∧
           val r' = VNum 10 ∧
           conditioned r' = false.
Proof.
  split; [vm_compute; reflexivity|].
  split; [reflexivity|].
  split; [vm_compute; reflexivity|].
  eexists _, _. split; [vm_compute; reflexivity|].
  split; [vm_compute; reflexivity|].
  split; reflexivity.
Qed.

(** C9 at a failing input.  No trace is active and the computation raises:
    the error reaches the caller of [traceUpdate], and [_trace] is left
    holding the trace instead of [None]. *)
Lemma slot_after_error :
  let w := new_world failing in
  _trace w = None ∧
  (traceUpdate example_erps 0 1 0 w).2 = Raises (UserError 1) ∧
  _trace (traceUpdate example_erps 0 1 0 w).1 = Some 1%positive.
Proof.
  split; [reflexivity|]. split; vm_compute; reflexivity.
Qed.


(** * The further properties at the example inputs *)

Lemma lookup_again_witness :
  ∃ w1 t1 v,
    trace_lookup example_erps 1 "7:0:5:3|" 0 [VNum 1] false (VNum 7) ready_world
    = (w1, Returns v) ∧
    traces w1 !! 1%positive = Some t1 ∧
    val <$> view w1 t1 !! "7:0:5:3|" = Some v ∧
    ∃ w2 t2,
      trace_lookup example_erps 1 "7:0:5:3|" 0 [VNum 1] false (VNum 7) w1
      = (w2, Returns v) ∧
      traces w2 !! 1%positive = Some t2 ∧
      _vars t2 = _vars t1 ∧
      view w2 t2 = view w1 t1 ∧
      newlogprob t2 = newlogprob t1 ∧
      rng w2 = rng w1.
Proof.
  apply (lookup_again example_erps 1 "7:0:5:3|" 0 [VNum 1] false (VNum 7)
           ready_world ready_trace).
  - reflexivity.
  - apply wf_check_sound. vm_compute. reflexivity.
  - reflexivity.
Defined.

Lemma lookup_elsewhere_witness :
  let r := trace_lookup example_erps 1 "7:0:5:3|" 0 [VNum 1] false VNone
             ready_world in
  ∃ t', traces r.1 !! 1%positive = Some t' ∧
        (∀ n, n ≠ "7:0:5:3|" →
              view r.1 t' !! n = view ready_world ready_trace !! n) ∧
        (∀ t2, t2 ≠ 1%positive → traces r.1 !! t2 = traces ready_world !! t2) ∧
        _trace r.1 = _trace ready_world ∧
        oldlogprob t' = oldlogprob ready_trace ∧
        conditionsSatisfied t' = conditionsSatisfied ready_trace ∧
        returnValue t' = returnValue ready_trace.
Proof.
  intros r.
  apply (lookup_elsewhere example_erps 1 "7:0:5:3|" 0 [VNum 1] false VNone
           ready_world ready_trace r.1 r.2).
  - reflexivity.
  - apply wf_check_sound. vm_compute. reflexivity.
  - apply surjective_pairing.
Defined.

Lemma lookup_returns_condition_witness :
  ∃ w' v,
    trace_lookup example_erps 1 "7:0:1:3|" 0 [VNum 1] false (VNum 7)
      ready_world = (w', Returns v) ∧
    (v = VNum 7 ∨ py_eq (VNum 7) v = true) ∧
    (py_eq (VNum 7) (VNum 7) = true → py_eq (VNum 7) v = true).
Proof.
  apply (lookup_returns_condition example_erps 1 "7:0:1:3|" 0 [VNum 1] false
           (VNum 7) ready_world ready_trace).
  - reflexivity.
  - apply wf_check_sound. vm_compute. reflexivity.
  - reflexivity.
Defined.

Lemma freeVarNames_spec_witness :
  ∃ names,
    freeVarNames 1 true false ready_world = (ready_world, Returns names) ∧
    NoDup names ∧
    ∀ n, n ∈ names ↔
         ∃ r, view ready_world ready_trace !! n = Some r ∧
              conditioned r = false ∧
              ((true = true ∧ structural r = true) ∨
               (false = true ∧ structural r = false)).
Proof.
  apply (freeVarNames_spec 1 true false ready_world ready_trace).
  reflexivity.
Defined.

Lemma run_outside_witness :
  let w := new_world two_choices in
  let r := run example_erps 0 two_choices w in
  traces r.1 = traces w ∧ records r.1 = records w ∧ _trace r.1 = None ∧
  (rng w ≤ rng r.1)%N.
Proof.
  intros w r.
  apply (run_outside example_erps 0 two_choices w r.1 r.2).
  - reflexivity.
  - apply surjective_pairing.
Defined.

Lemma skip_past_stack_witness :
  lookupVariableValue example_erps (call_stack 1) 0 [VNum 1] false 3 VNone
    running_world = (running_world, Raises AttributeError) ∧
  incrementLoopCounter 0 (call_stack 1) 3 running_world
  = (running_world, Raises AttributeError).
Proof.
  apply (skip_past_stack example_erps 0 1 (call_stack 1) 0 [VNum 1] false 3
           VNone running_world
           (mkTrace one_choice ∅ 0 0 0 (Some 0%N) ∅ true VNone)).
  - reflexivity.
  - reflexivity.
  - simpl. lia.
Defined.

Lemma conditions_accumulate_witness :
  let w := new_world conditioned_choice in
  let w' := (traceUpdate example_erps 0 1 0 w).1 in
  ∃ t', traces w' !! 1%positive = Some t' ∧
        conditionsSatisfied t'
        = forallb id (conditions example_erps 0 conditioned_choice
                        (entered_world 1 0 w)).
Proof.
  apply (conditions_accumulate example_erps 0 1 0
           (new_world conditioned_choice) (fresh_trace conditioned_choice)).
  - reflexivity.
  - apply wf_check_sound. vm_compute. reflexivity.
  - apply pair_eq_2. vm_compute. reflexivity.
Defined.

Lemma traceUpdate_outcome_witness :
  let w := new_world two_choices in
  let w' := (traceUpdate example_erps 0 1 0 w).1 in
  ∃ wo v t',
    run example_erps 0 two_choices (entered_world 1 0 w) = (wo, Returns v) ∧
    traces w' !! 1%positive = Some t' ∧
    returnValue t' = v ∧
    rootframe t' = None ∧
    loopcounters t' = ∅ ∧
    computation t' = two_choices ∧
    records w' = records wo ∧
    ∀ n r, view w' t' !! n = Some r → active r = true.
Proof.
  apply (traceUpdate_outcome example_erps 0 1 0 (new_world two_choices)
           (fresh_trace two_choices) _ (Returns tt)).
  - reflexivity.
  - apply wf_check_sound. vm_compute. reflexivity.
  - apply pair_eq_2. vm_compute. reflexivity.
Defined.

Lemma update_from_empty_witness :
  let w := new_world one_choice in
  let w' := (traceUpdate example_erps 0 1 0 w).1 in
  let evs := update_events example_erps 0 1 0 w in
  ∃ t', traces w' !! 1%positive = Some t' ∧
        oldlogprob t' = 0%float ∧
        newlogprob t' = sum_F (logprob_at (view w' t') <$> lookups evs) ∧
        (factors evs = [] → newlogprob t' = tlogprob t').
Proof.
  apply (update_from_empty example_erps 0 1 0 (new_world one_choice)
           (fresh_trace one_choice)).
  - reflexivity.
  - reflexivity.
  - apply pair_eq_2. vm_compute. reflexivity.
  - apply (bool_decide_unpack _). vm_compute. exact I.
Defined.

Lemma deepcopy_copy_witness :
  let w := ready_world in
  let t := ready_trace in
  ∃ w1 nt tn,
    deepcopy 1 w = (w1, Returns nt) ∧
    traces w !! nt = None ∧
    traces w1 !! nt = Some tn ∧
    view w1 tn = view w t ∧
    (∀ n l, _vars tn !! n = Some l → records w !! l = None) ∧
    (computation tn = computation t ∧ tlogprob tn = tlogprob t ∧
     newlogprob tn = newlogprob t ∧ oldlogprob tn = oldlogprob t ∧
     conditionsSatisfied tn = conditionsSatisfied t ∧
     returnValue tn = returnValue t ∧
     rootframe tn = None ∧ loopcounters tn = ∅) ∧
    (∀ t2 tr, traces w !! t2 = Some tr → traces w1 !! t2 = Some tr) ∧
    (∀ l r, records w !! l = Some r → records w1 !! l = Some r) ∧
    _trace w1 = _trace w ∧ rng w1 = rng w.
Proof.
  apply (deepcopy_copy 1 ready_world ready_trace).
  - reflexivity.
  - apply wf_check_sound. vm_compute. reflexivity.
Defined.

Lemma proposeChange_unbound_witness :
  ∃ w', proposeChange example_erps 0 1 "7:0:5:3|" 0 ready_world
        = (w', Raises AttributeError) ∧
        _trace w' = _trace ready_world ∧ rng w' = rng ready_world.
Proof.
  apply (proposeChange_unbound example_erps 0 1 "7:0:5:3|" 0 ready_world
           ready_trace).
  - reflexivity.
  - apply wf_check_sound. vm_compute. reflexivity.
  - reflexivity.
Defined.

Lemma varDiff_spec_witness :
  ∃ names,
    varDiff 1 2 two_traces = (two_traces, Returns names) ∧
    NoDup names ∧
    ∀ n, n ∈ names ↔
         is_Some (_vars ready_trace !! n) ∧ _vars other_trace !! n = None.
Proof.
  apply (varDiff_spec 1 2 two_traces ready_trace other_trace); reflexivity.
Defined.

Lemma lpDiff_spec_witness :
  (∃ names,
     varDiff 1 2 two_traces = (two_traces, Returns names) ∧
     NoDup names ∧
     (∀ n, n ∈ names ↔
           is_Some (_vars ready_trace !! n) ∧ _vars other_trace !! n = None) ∧
     lpDiff 1 2 two_traces
     = (two_traces,
        Returns (sum_F (logprob_at (view two_traces ready_trace) <$> names)))) ∧
  varDiff 1 1 two_traces = (two_traces, Returns []) ∧
  lpDiff 1 1 two_traces = (two_traces, Returns 0%float).
Proof.
  apply (lpDiff_spec 1 2 two_traces ready_trace other_trace).
  - reflexivity.
  - reflexivity.
  - apply wf_check_sound. vm_compute. reflexivity.
Defined.

Lemma init_satisfied_witness :
  let w := new_world one_choice in
  ∃ w' self,
    RandomExecutionTrace_init example_erps 0 conditioned_choice true 1 0 w
    = Some (w', Returns self) ∧
    traces w !! self = None ∧
    ∃ t', traces w' !! self = Some t' ∧
          conditionsSatisfied t' = true ∧
          computation t' = conditioned_choice ∧
          wf_trace w' t'.
Proof.
  intros w.
  assert (∃ w' self,
            RandomExecutionTrace_init example_erps 0 conditioned_choice true
              1 0 w = Some (w', Returns self)) as (w' & self & Hinit).
  { vm_compute. eauto. }
  exists w', self. split; [exact Hinit|].
  exact (proj1 (init_satisfied example_erps 0 conditioned_choice 0 1 w w' self)
           Hinit).
Defined.

Lemma newTrace_unsatisfiable_witness :
  ∃ w' x,
    newTrace example_erps 0 impossible 1 0 (new_world one_choice)
    = Some (w', Raises x).
Proof.
  assert (∃ r, newTrace example_erps 0 impossible 1 0 (new_world one_choice)
               = Some r) as ([w' o] & Hr).
  { vm_compute. eauto. }
  destruct (newTrace_unsatisfiable example_erps 0 impossible 1 0
              (new_world one_choice) (w', o)) as [x Hx].
  - intros self w0 t0 (Ht & Hg & _) _. simpl.
    rewrite (condition_active self) by done.
    unfold conditionOn, update_trace, get_trace, bind, ret.
    rewrite Ht. unfold condition_event. by rewrite Hg.
  - exact Hr.
  - simpl in Hx. subst o. by exists w', x.
Defined.

Lemma newTrace_first_pass_witness :
  let w := new_world one_choice in
  let self := fresh (dom (traces w)) in
  let w0 := set_traces (<[self := fresh_trace conditioned_choice]> (traces w))
              w in
  newTrace example_erps 0 conditioned_choice 1 0 w
  = Some ((traceUpdate example_erps 0 self 0 w0).1, Returns self).
Proof.
  intros w self w0.
  apply (newTrace_first_pass example_erps 0 conditioned_choice 0 0 w).
  - apply pair_eq_2. vm_compute. reflexivity.
  - vm_compute. reflexivity.
Defined.

Lemma address_injective_witness :
  let stack := [mkFrame 2 7 1 3; mkFrame 0 5 93 0] in
  let stack' := [mkFrame 4 7 1 3; mkFrame 9 6 1 1] in
  frame_key ∅ <$> named_frames (Some 0%N) stack
  = frame_key ∅ <$> named_frames (Some 9%N) stack'.
Proof.
  intros stack stack'.
  apply (address_injective (Some 0%N) (Some 9%N) ∅ ∅ stack stack').
  reflexivity.
Defined.

Lemma loop_counter_renames_witness :
  ∃ w' a a',
    currentName 1 (call_stack 1) 1 running_world = (running_world, Returns a) ∧
    trace_incrementLoopCounter 0 1 (call_stack 1) 1 running_world
    = (w', Returns tt) ∧
    currentName 1 (call_stack 1) 1 w' = (w', Returns a') ∧
    a ≠ a'.
Proof.
  apply (loop_counter_renames 0 1 (call_stack 1) 1 running_world
           (mkTrace one_choice ∅ 0 0 0 (Some 0%N) ∅ true VNone)
           (mkFrame 2 7 1 3) [mkFrame 0 5 93 0]).
  - reflexivity.
  - reflexivity.
  - discriminate.
Defined.
